(** * The LinkedIn job harvester ([src/jobs-ai-hr.ts]), embedded in Rocq

    The repository keeps two iterations of the harvesting engine in
    [playwright-linkedin-login/src/jobs-ai-hr.ts]: the first one (module [V1]
    below, no global deadline, scroller located once) and the robust one
    (module [V2], block detection, per-navigation and global deadlines).
    The pure helpers ([normalizeText], [normalizeJobUrl], [toIsoDateOrEmpty],
    [matchesAIandHR] and the two regular expressions) are the same text in
    both and are embedded once.

    Layout: part I holds every definition (the JavaScript built-ins the code
    calls, the Playwright interface, the two engines, simulated browsers used
    for concrete runs); part II holds the theory. *)

From Stdlib Require Import ZArith NArith Ascii String Lia Bool.
From stdpp Require Import base list gmap sets.

(* ===================================================================== *)
(** * Part I: definitions *)
(* ===================================================================== *)

(** ** JavaScript strings

    A JavaScript string is a sequence of UTF-16 code units; [length],
    [slice], [startsWith], [includes], [split] and (without the [u] flag)
    regular expressions all work on code units. *)

Module JS.

Abbreviation code_unit := N (only parsing).
Abbreviation jsstring := (list N) (only parsing).

(** An ASCII literal as a JavaScript string. *)
Definition js (s : string) : jsstring :=
  map N_of_ascii (list_ascii_of_string s).

(** The quotation mark, U+0022, for literals that contain one. *)
Definition dquote : jsstring := [34%N].
Definition quoted (s : jsstring) : jsstring := dquote ++ s ++ dquote.

(** [Boolean(s)] of a string: only the empty string is falsy. *)
Definition truthy (s : jsstring) : bool :=
  match s with [] => false | _ :: _ => true end.

(** [a || b] on strings. *)
Definition or_else (a b : jsstring) : jsstring := if truthy a then a else b.

(** [s.startsWith(pre)] *)
Fixpoint startsWith (s pre : jsstring) : bool :=
  match pre, s with
  | [], _ => true
  | _ :: _, [] => false
  | p :: pre', c :: s' => (c =? p)%N && startsWith s' pre'
  end.

(** [s.includes(pat)] *)
Fixpoint includes (s pat : jsstring) : bool :=
  startsWith s pat ||
  match s with
  | [] => false
  | _ :: s' => includes s' pat
  end.

(** [s.split(sep)[0]] for a separator of one code unit: the part of [s]
    before the first occurrence of [sep], all of [s] when there is none. *)
Fixpoint split_first (sep : code_unit) (s : jsstring) : jsstring :=
  match s with
  | [] => []
  | c :: s' => if (c =? sep)%N then [] else c :: split_first sep s'
  end.

(** ECMAScript WhiteSpace and LineTerminator code units: what [\s] matches
    and what [trim] strips. *)
Definition is_ws (c : code_unit) : bool :=
  ((9 <=? c) && (c <=? 13) || (c =? 32) || (c =? 160) || (c =? 5760) ||
   (8192 <=? c) && (c <=? 8202) || (c =? 8232) || (c =? 8233) ||
   (c =? 8239) || (c =? 8287) || (c =? 12288) || (c =? 65279))%N.

Fixpoint trimStart (s : jsstring) : jsstring :=
  match s with
  | [] => []
  | c :: s' => if is_ws c then trimStart s' else s
  end.

Definition trimEnd (s : jsstring) : jsstring := rev (trimStart (rev s)).

(** [s.trim()] *)
Definition trim (s : jsstring) : jsstring := trimEnd (trimStart s).

(** [s.replace(/\s+/g, " ")]: every maximal run of white space becomes one
    space. [in_run] tells whether the previous code unit was white space. *)
Fixpoint collapse_ws_from (in_run : bool) (s : jsstring) : jsstring :=
  match s with
  | [] => []
  | c :: s' =>
      if is_ws c
      then (if in_run then collapse_ws_from true s'
            else 32%N :: collapse_ws_from true s')
      else c :: collapse_ws_from false s'
  end.

Definition collapse_ws (s : jsstring) : jsstring := collapse_ws_from false s.

(** [s.slice(0, n)] *)
Definition slice0 (n : N) (s : jsstring) : jsstring := take (N.to_nat n) s.

(** [s.padStart(n, fill)] for a filler of one code unit. *)
Definition padStart (n : nat) (fill : code_unit) (s : jsstring) : jsstring :=
  replicate (n - length s) fill ++ s.

(** Decimal digits of a natural number, most significant first.
    [fuel] bounds the number of digits. *)
Fixpoint digits_fuel (fuel : nat) (n : N) (acc : jsstring) : jsstring :=
  match fuel with
  | O => acc
  | S fuel' =>
      let acc' := (48 + n mod 10)%N :: acc in
      if (n <? 10)%N then acc' else digits_fuel fuel' (n / 10)%N acc'
  end.

Definition digits (n : N) : jsstring := digits_fuel (S (N.to_nat (N.log2 n))) n [].

(** [String(z)] for an integer [z] (magnitudes below 1e21 print in plain
    decimal notation). *)
Definition String_of_Z (z : Z) : jsstring :=
  match z with
  | Z0 => js "0"
  | Zpos p => digits (Npos p)
  | Zneg p => js "-" ++ digits (Npos p)
  end.

Definition String_of_N (n : N) : jsstring := digits n.

End JS.
Export JS.

(** ** JavaScript dates

    Time values are milliseconds since the epoch; [None] stands for [NaN].
    The definitions follow ECMAScript's Day, DayFromYear, YearFromTime,
    MonthFromTime and DateFromTime. *)

Module JSDate.

#[local] Open Scope Z_scope.

Definition msPerDay : Z := 86400000.
Definition maxTime : Z := 8640000000000000.

Definition Day (t : Z) : Z := t / msPerDay.

Definition isLeapYear (y : Z) : bool :=
  (y mod 4 =? 0) && (negb (y mod 100 =? 0) || (y mod 400 =? 0)).

Definition DaysInYear (y : Z) : Z := if isLeapYear y then 366 else 365.

Definition DayFromYear (y : Z) : Z :=
  365 * (y - 1970) + (y - 1969) / 4 - (y - 1901) / 100 + (y - 1601) / 400.

(** YearFromTime: the largest [y] with [DayFromYear y <= Day t]. The search
    starts from a year that is not after the answer (a year has at most
    366 days, at least 365) and walks up. *)
Fixpoint year_search (fuel : nat) (d y : Z) : Z :=
  match fuel with
  | O => y
  | S fuel' => if DayFromYear (y + 1) <=? d then year_search fuel' d (y + 1) else y
  end.

Definition YearFromDay (d : Z) : Z :=
  year_search 1000 d (1970 + (if 0 <=? d then d / 366 else d / 365)).

Definition YearFromTime (t : Z) : Z := YearFromDay (Day t).

Definition DayWithinYear (t : Z) : Z := Day t - DayFromYear (YearFromTime t).

Definition InLeapYear (t : Z) : Z := if isLeapYear (YearFromTime t) then 1 else 0.

(** Day number, within a year, of the first day of each month (0-based
    month), [leap] being 0 or 1. *)
Definition monthStart (leap m : Z) : Z :=
  match m with
  | 0 => 0
  | 1 => 31
  | 2 => 59 + leap
  | 3 => 90 + leap
  | 4 => 120 + leap
  | 5 => 151 + leap
  | 6 => 181 + leap
  | 7 => 212 + leap
  | 8 => 243 + leap
  | 9 => 273 + leap
  | 10 => 304 + leap
  | _ => 334 + leap
  end.

Definition MonthFromDay (leap dwy : Z) : Z :=
  if dwy <? 31 then 0
  else if dwy <? 59 + leap then 1
  else if dwy <? 90 + leap then 2
  else if dwy <? 120 + leap then 3
  else if dwy <? 151 + leap then 4
  else if dwy <? 181 + leap then 5
  else if dwy <? 212 + leap then 6
  else if dwy <? 243 + leap then 7
  else if dwy <? 273 + leap then 8
  else if dwy <? 304 + leap then 9
  else if dwy <? 334 + leap then 10
  else 11.

Definition MonthFromTime (t : Z) : Z := MonthFromDay (InLeapYear t) (DayWithinYear t).

Definition DateFromTime (t : Z) : Z :=
  DayWithinYear t - monthStart (InLeapYear t) (MonthFromTime t) + 1.

(** [d.getUTCFullYear()], [d.getUTCMonth()], [d.getUTCDate()] of a valid date. *)
Definition getUTCFullYear (t : Z) : Z := YearFromTime t.
Definition getUTCMonth (t : Z) : Z := MonthFromTime t.
Definition getUTCDate (t : Z) : Z := DateFromTime t.

(** *** Parsing

    [Date.parse] must accept ECMAScript's date-time string format and may
    fall back to implementation-specific heuristics on anything else. The
    mandatory format is modelled for the date-only form [YYYY-MM-DD] and
    the UTC forms [YYYY-MM-DDTHH:mmZ], [YYYY-MM-DDTHH:mm:ssZ] and
    [YYYY-MM-DDTHH:mm:ss.sssZ] with in-range calendar fields; every other
    string is left to the host ([Date_parse_impl]). *)

Class Host := { Date_parse_impl : jsstring -> option Z }.

Definition digit_val (c : code_unit) : option Z :=
  if ((48 <=? c) && (c <=? 57))%N then Some (Z.of_N c - 48) else None.

Fixpoint number_from (acc : Z) (ds : jsstring) : option Z :=
  match ds with
  | [] => Some acc
  | c :: ds' =>
      match digit_val c with
      | Some v => number_from (10 * acc + v) ds'
      | None => None
      end
  end.

Definition number_of (ds : jsstring) : option Z := number_from 0 ds.

Definition DaysInMonth (y m : Z) : Z :=
  let leap := if isLeapYear y then 1 else 0 in
  if m =? 11 then 31 else monthStart leap (m + 1) - monthStart leap m.

(** MakeDay for a year, a 0-based month and a day of the month. *)
Definition MakeDay (y m d : Z) : Z :=
  DayFromYear y + monthStart (if isLeapYear y then 1 else 0) m + d - 1.

(** The time of day after the [T], in milliseconds. *)
Definition parse_utc_time (s : jsstring) : option Z :=
  let hms (h1 h2 m1 m2 : code_unit) (sec ms : option Z) : option Z :=
    match number_of [h1; h2], number_of [m1; m2], sec, ms with
    | Some h, Some m, Some s, Some ms =>
        if (h <? 24) && (m <? 60) && (s <? 60)
        then Some (((h * 60 + m) * 60 + s) * 1000 + ms)
        else None
    | _, _, _, _ => None
    end in
  match s with
  | [h1; h2; 58; m1; m2; 90]%N => hms h1 h2 m1 m2 (Some 0) (Some 0)
  | [h1; h2; 58; m1; m2; 58; s1; s2; 90]%N =>
      hms h1 h2 m1 m2 (number_of [s1; s2]) (Some 0)
  | [h1; h2; 58; m1; m2; 58; s1; s2; 46; f1; f2; f3; 90]%N =>
      hms h1 h2 m1 m2 (number_of [s1; s2]) (number_of [f1; f2; f3])
  | _ => None
  end.

Definition parse_iso (s : jsstring) : option Z :=
  match s with
  | (y1 :: y2 :: y3 :: y4 :: 45 :: m1 :: m2 :: 45 :: d1 :: d2 :: rest)%N =>
      match number_of [y1; y2; y3; y4], number_of [m1; m2], number_of [d1; d2] with
      | Some y, Some m, Some d =>
          if (1 <=? m) && (m <=? 12) && (1 <=? d) && (d <=? DaysInMonth y (m - 1))
          then
            match rest with
            | [] => Some (msPerDay * MakeDay y (m - 1) d)
            | (84 :: tod)%N =>
                match parse_utc_time tod with
                | Some ms => Some (msPerDay * MakeDay y (m - 1) d + ms)
                | None => None
                end
            | _ => None
            end
          else None
      | _, _, _ => None
      end
  | _ => None
  end.

(** [Date.parse(s)]; the empty string is not a date for any engine. *)
Definition Date_parse `{Host} (s : jsstring) : option Z :=
  match s with
  | [] => None
  | _ :: _ =>
      match parse_iso s with
      | Some t => Some t
      | None => Date_parse_impl s
      end
  end.

(** TimeClip *)
Definition TimeClip (t : option Z) : option Z :=
  match t with
  | Some t => if Z.abs t <=? maxTime then Some t else None
  | None => None
  end.

(** [new Date(s).getTime()] for a string [s]; [None] is [NaN]. *)
Definition Date_of_string `{Host} (s : jsstring) : option Z := TimeClip (Date_parse s).

End JSDate.
Export JSDate.

(** ** JavaScript regular expressions

    The fragment the two patterns of the source use: literals, sequence,
    alternation, [?] and the word-boundary assertion, under the [i] flag
    and without the [u] flag. *)

Module JSRegExp.

Inductive regex : Type :=
| REmpty
| RChar (c : code_unit)
| RSeq (r1 r2 : regex)
| RAlt (r1 r2 : regex)
| ROpt (r : regex)
| RWordB.

(** Canonicalize (flag [i], no flag [u]): ASCII letters fold to upper case.
    A code unit of 128 or more never canonicalizes to an ASCII one, so for
    patterns made of ASCII literals it can be left as it is. *)
Definition canon (c : code_unit) : code_unit :=
  if ((97 <=? c) && (c <=? 122))%N then (c - 32)%N else c.

(** IsWordChar: [A-Za-z0-9_]. *)
Definition is_word_unit (c : code_unit) : bool :=
  ((48 <=? c) && (c <=? 57) || (65 <=? c) && (c <=? 90) ||
   (97 <=? c) && (c <=? 122) || (c =? 95))%N.

Definition is_word (c : option code_unit) : bool :=
  match c with Some c => is_word_unit c | None => false end.

(** [rmatch r prev s]: every way [r] can match a prefix of [s], given the
    code unit [prev] that stands before [s] in the subject; each result is
    the code unit before the rest, and the rest. *)
Fixpoint rmatch (r : regex) (prev : option code_unit) (s : jsstring)
  : list (option code_unit * jsstring) :=
  match r with
  | REmpty => [(prev, s)]
  | RChar c =>
      match s with
      | u :: s' => if (canon u =? canon c)%N then [(Some u, s')] else []
      | [] => []
      end
  | RSeq r1 r2 => flat_map (fun ps => rmatch r2 ps.1 ps.2) (rmatch r1 prev s)
  | RAlt r1 r2 => rmatch r1 prev s ++ rmatch r2 prev s
  | ROpt r1 => rmatch r1 prev s ++ [(prev, s)]
  | RWordB => if xorb (is_word prev) (is_word (head s)) then [(prev, s)] else []
  end.

Definition matches_at (r : regex) (prev : option code_unit) (s : jsstring) : bool :=
  match rmatch r prev s with [] => false | _ :: _ => true end.

(** The search over all start positions. *)
Fixpoint search (r : regex) (prev : option code_unit) (s : jsstring) : bool :=
  matches_at r prev s ||
  match s with
  | [] => false
  | u :: s' => search r (Some u) s'
  end.

(** [r.test(s)] for a pattern without the [g] and [y] flags (no state). *)
Definition test (r : regex) (s : jsstring) : bool := search r None s.

(** A literal string, and an alternation of several patterns. *)
Definition lit (s : string) : regex :=
  foldr (fun c r => RSeq (RChar c) r) REmpty (js s).

Definition alts (rs : list regex) : regex :=
  match rs with
  | [] => REmpty
  | r :: rs' => foldl RAlt r rs'
  end.

End JSRegExp.
Export JSRegExp.

(** ** The shared pure helpers of [jobs-ai-hr.ts] *)

(** [normalizeText]: [(s ?? "").replace(/\s+/g, " ").trim()] *)
Definition normalizeText (s : option jsstring) : jsstring :=
  trim (collapse_ws (default [] s)).

Definition LINKEDIN_ORIGIN : jsstring := js "https://www.linkedin.com".
Definition JOBS_VIEW : jsstring := js "/jobs/view/".
Definition QUESTION_MARK : N := 63%N.
Definition NUMBER_SIGN : N := 35%N.

(** [let abs = href; if (abs.startsWith("/")) abs = `https://www.linkedin.com${abs}`] *)
Definition absolutize (href : jsstring) : jsstring :=
  if startsWith href (js "/") then LINKEDIN_ORIGIN ++ href else href.

(** [normalizeJobUrl]; [None] is JavaScript's [null]. *)
Definition normalizeJobUrl (href : jsstring) : option jsstring :=
  if negb (truthy href) then None
  else
    let abs := absolutize href in
    if negb (includes abs JOBS_VIEW) then None
    else Some (split_first QUESTION_MARK abs).

(** [toIsoDateOrEmpty] *)
Definition toIsoDateOrEmpty `{Host} (input : jsstring) : jsstring :=
  match Date_of_string input with
  | None => []
  | Some d =>
      let yyyy := String_of_Z (getUTCFullYear d) in
      let mm := padStart 2 48%N (String_of_Z (getUTCMonth d + 1)) in
      let dd := padStart 2 48%N (String_of_Z (getUTCDate d)) in
      yyyy ++ js "-" ++ mm ++ js "-" ++ dd
  end.

(** [AI_REGEX]:
    [/\b(ai|artificial intelligence|ki|k\.?i\.?|machine learning|ml\b|genai|generative ai|llm|large language model)\b/i] *)
Definition AI_REGEX : regex :=
  RSeq RWordB
    (RSeq
       (alts
          [ lit "ai";
            lit "artificial intelligence";
            lit "ki";
            RSeq (lit "k") (RSeq (ROpt (lit ".")) (RSeq (lit "i") (ROpt (lit "."))));
            lit "machine learning";
            RSeq (lit "ml") RWordB;
            lit "genai";
            lit "generative ai";
            lit "llm";
            lit "large language model" ])
       RWordB).

(** [HR_REGEX]:
    [/\b(hr|human resources|people\b|talent\b|recruit(ing|er|ment)|people operations|personal(wesen|abteilung)?)\b/i] *)
Definition HR_REGEX : regex :=
  RSeq RWordB
    (RSeq
       (alts
          [ lit "hr";
            lit "human resources";
            RSeq (lit "people") RWordB;
            RSeq (lit "talent") RWordB;
            RSeq (lit "recruit") (alts [lit "ing"; lit "er"; lit "ment"]);
            lit "people operations";
            RSeq (lit "personal") (ROpt (alts [lit "wesen"; lit "abteilung"])) ])
       RWordB).

(** The result object of [matchesAIandHR]. *)
Record MatchResult : Type := { ai : bool; hr : bool; ok : bool }.

(** [matchesAIandHR] *)
Definition matchesAIandHR (text : jsstring) : MatchResult :=
  let ai := test AI_REGEX text in
  let hr := test HR_REGEX text in
  {| ai := ai; hr := hr; ok := ai && hr |}.

Arguments test : simpl never.
Arguments matchesAIandHR : simpl never.

(** [ApiJob] *)
Record ApiJob : Type := {
  jobTitle : jsstring;
  description : jsstring;
  link : jsstring;
  contact : jsstring;
  company : jsstring;
  postingDate : jsstring
}.

(** What [readJobPageDetails] returns. *)
Record Details : Type := {
  d_jobTitle : jsstring;
  d_company : jsstring;
  d_description : jsstring;
  d_postingDate : jsstring
}.

(** [`${details.jobTitle}\n${details.company}\n${details.description}`] *)
Definition haystack (d : Details) : jsstring :=
  d_jobTitle d ++ [10%N] ++ d_company d ++ [10%N] ++ d_description d.

(** ** Asynchronous code as a state-and-exception monad

    An [async] function is a computation over the state of the browsing
    session that either fulfils with a value or rejects with an error (the
    error's message). The state survives a rejection, as the browser does.
    Beside the browser state the world carries a ghost history of the run,
    in chronological order; it never influences control flow. *)

Module Async.

Inductive outcome (A : Type) : Type :=
| Ok (a : A)
| Throw (e : jsstring).
Arguments Ok {A} a.
Arguments Throw {A} e.

(** The ghost events: the top of a round, [seen.add(jobUrl)], the
    navigation to a job page (the dispatch of detail extraction), the
    record [readJobPageDetails] returned for it, and [jobs.push(job)]. *)
Inductive event : Type :=
| EvRound (round : nat)
| EvSeen (key : jsstring)
| EvOpen (key : jsstring)
| EvExtracted (key : jsstring) (details : Details)
| EvPush (job : ApiJob).

Record world (W : Type) : Type := World { page : W; log : list event }.
Arguments World {W} page log.
Arguments page {W} w.
Arguments log {W} w.

Definition M (W A : Type) : Type := world W -> outcome A * world W.

Definition ret {W A} (a : A) : M W A := fun w => (Ok a, w).

Definition throw {W A} (e : jsstring) : M W A := fun w => (Throw e, w).

Definition bind {W A B} (m : M W A) (f : A -> M W B) : M W B :=
  fun w =>
    match m w with
    | (Ok a, w') => f a w'
    | (Throw e, w') => (Throw e, w')
    end.

(** [try { body } catch (e) { handler(e) }] *)
Definition try_catch {W A} (body : M W A) (handler : jsstring -> M W A) : M W A :=
  fun w =>
    match body w with
    | (Ok a, w') => (Ok a, w')
    | (Throw e, w') => handler e w'
    end.

(** [try { body } finally { fin }] *)
Definition try_finally {W A} (body : M W A) (fin : M W unit) : M W A :=
  fun w =>
    match body w with
    | (r, w') =>
        match fin w' with
        | (Ok _, w'') => (r, w'')
        | (Throw e, w'') => (Throw e, w'')
        end
    end.

(** [p.catch(() => v)] *)
Definition catch_default {W A} (m : M W A) (v : A) : M W A :=
  try_catch m (fun _ => ret v).

(** A call into the browser: it changes the page, never the history. *)
Definition call {W A} (op : W -> outcome A * W) : M W A :=
  fun w => match op (page w) with (r, p') => (r, World p' (log w)) end.

(** A synchronous browser call, which cannot reject ([page.setDefaultTimeout]). *)
Definition call_total {W} (op : W -> W) : M W unit :=
  fun w => (Ok tt, World (op (page w)) (log w)).

(** An observation of the browser state. *)
Definition observe {W A} (f : W -> A) : M W A := fun w => (Ok (f (page w)), w).

Definition emit {W} (e : event) : M W unit :=
  fun w => (Ok tt, World (page w) (log w ++ [e])).

End Async.
Export Async.

(** [let* x := m in k] awaits [m] and goes on with [k]; [m;; k] is stdpp's
    sequencing notation, through the instances below. *)
#[export] Instance M_ret {W} : MRet (M W) := fun A => @ret W A.
#[export] Instance M_bind {W} : MBind (M W) := fun A B f m => bind m f.

Notation "'let*' x := m 'in' k" := (bind m (fun x => k))
  (at level 10, x name, m at level 100, k at level 200, only parsing).

(** ** The Playwright page, as far as the engine uses it

    Every awaited call of the Playwright API is an operation of the
    browser world [W] that fulfils or rejects; so is [page.waitForTimeout],
    which rejects when the page is closed. Closures that the source sends into
    the page ([page.evaluate], [page.evaluateHandle], [locator.evaluateAll])
    run against the DOM; each of them is one operation here. *)

Class Browser (W Handle : Type) : Type := {
  (** [Date.now()] *)
  now : W -> N;
  (** whether a timer callback runs before a promise reaction that becomes
      ready in the same millisecond *)
  timer_wins_tie : bool;
  (** [page.waitForTimeout(ms)] *)
  waitForTimeout : N -> W -> outcome unit * W;
  (** [page.setDefaultTimeout(ms)] *)
  setDefaultTimeout : N -> W -> W;
  (** [page.goto(url, { waitUntil: "domcontentloaded" })] *)
  goto : jsstring -> W -> outcome unit * W;
  (** [Promise.race([page.goto(url, ...), page.waitForTimeout(ms).then(...)])]:
      [None] when the timer fulfils first, otherwise how the race settled: as
      the navigation, or with the rejection of the timer *)
  goto_race_timer : jsstring -> N -> W -> option (outcome unit) * W;
  (** [page.locator(sel).first().isVisible({ timeout })] *)
  isVisible : jsstring -> option N -> W -> outcome bool * W;
  (** [page.locator(sel).first().click({ timeout })] *)
  click : jsstring -> N -> W -> outcome unit * W;
  (** [page.locator(sel).count()] *)
  count : jsstring -> W -> outcome nat * W;
  (** [page.locator(sel).first().waitFor({ timeout })] *)
  waitFor : jsstring -> N -> W -> outcome unit * W;
  (** [page.locator(sel).first().textContent({ timeout })] *)
  textContent : jsstring -> option N -> W -> outcome (option jsstring) * W;
  (** [page.locator(sel).first().getAttribute(name)] *)
  getAttribute : jsstring -> jsstring -> W -> outcome (option jsstring) * W;
  (** [page.title()] *)
  title : W -> outcome jsstring * W;
  (** the scroller script of the first engine: the best-scored scrollable
      element, [handle.asElement() ?? null] *)
  best_scored_scroller : W -> outcome (option Handle) * W;
  (** the scroller script of the second engine: the first qualifying known
      container, else the best-scored scrollable element *)
  known_or_best_scored_scroller : W -> outcome (option Handle) * W;
  (** the [href] attributes of the job anchors of the whole page *)
  page_job_hrefs : W -> outcome (list (option jsstring)) * W;
  (** the [href] attributes of the job anchors inside an element *)
  element_job_hrefs : Handle -> W -> outcome (list (option jsstring)) * W;
  (** [el.scrollTop = el.scrollTop + delta] *)
  scroll_element : Handle -> N -> W -> outcome unit * W;
  (** [window.scrollBy(0, delta)] *)
  scroll_window : N -> W -> outcome unit * W;
  (** [root?.textContent || ""] for the description root that the fallback
      script of [readJobPageDetails] selects *)
  description_root_text : W -> outcome jsstring * W
}.

(** ** Selectors and constants shared by both engines *)

Definition join_comma (sels : list jsstring) : jsstring :=
  match sels with
  | [] => []
  | s :: rest => s ++ concat (map (fun t => js "," ++ t) rest)
  end.

Definition has_text_button (t : string) : jsstring :=
  js "button:has-text(" ++ quoted (js t) ++ js ")".

Definition text_is (t : jsstring) : jsstring := js "text=" ++ quoted t.

Definition consent_candidates : list jsstring :=
  [ has_text_button "Accept";
    has_text_button "I Accept";
    has_text_button "Agree";
    has_text_button "Allow all cookies";
    has_text_button "Accept cookies";
    has_text_button "Alle Cookies akzeptieren";
    has_text_button "Akzeptieren";
    has_text_button "Zustimmen" ].

(** ['a[href*="/jobs/view/"]'] *)
Definition JOB_LINK_SELECTOR : jsstring :=
  js "a[href*=" ++ quoted JOBS_VIEW ++ js "]".

Definition SHOW_MORE_SELECTOR : jsstring :=
  has_text_button "Mehr anzeigen" ++ js ", " ++ has_text_button "Show more".

Definition COMPANY_LINK_SELECTOR : jsstring :=
  js "a[data-control-name=" ++ quoted (js "company_link") ++ js "]".

Definition JOB_DETAILS_ID_SELECTOR : jsstring :=
  js "div[id*=" ++ quoted (js "job-details") ++ js "]".

Definition TIME_SELECTOR : jsstring := js "time[datetime]".

Definition SEARCH_URL : jsstring :=
  js "https://www.linkedin.com/jobs/search-results/?keywords=%22AI%22%20%2B%20%22HR%22&origin=SWITCH_SEARCH_VERTICAL".

Definition DEFAULT_TIMEOUT : N := 60000.

(** The [hrefs] pipeline of a round:
    [hrefsRaw.map((h) => h?.trim()).filter(Boolean).map((h) => normalizeJobUrl(h!)).filter(Boolean)]
    The last filter drops [null] and the empty string. *)
Definition canonical_hrefs (hrefsRaw : list jsstring) : list jsstring :=
  filter (fun k => truthy k = true)
    (omap normalizeJobUrl (filter (fun h => truthy h = true) (map trim hrefsRaw))).

(** The state the governor keeps across rounds: the seen-set, the result
    array, the stagnation counter and [lastSeen]. *)
Record HarvestState : Type := {
  seen : gset jsstring;
  jobs : list ApiJob;
  stagnant : nat;
  lastSeen : nat
}.

Definition initial_state : HarvestState :=
  {| seen := ∅; jobs := []; stagnant := 0; lastSeen := 0 |}.

(** Why the round loop ended: the cap [break], the stagnation [break], or
    the loop condition [round < MAX_SCROLL_ROUNDS] turning false. *)
Inductive stop_reason : Type := MaxResults | Stagnant | MaxRounds.

Definition job_of (jobUrl : jsstring) (d : Details) (postingDate : jsstring) : ApiJob :=
  {| jobTitle := d_jobTitle d;
     description := d_description d;
     link := jobUrl;
     contact := [];
     company := d_company d;
     postingDate := postingDate |}.

Definition add_seen (key : jsstring) (st : HarvestState) : HarvestState :=
  {| seen := {[ key ]} ∪ seen st; jobs := jobs st;
     stagnant := stagnant st; lastSeen := lastSeen st |}.

Definition push_job (j : ApiJob) (st : HarvestState) : HarvestState :=
  {| seen := seen st; jobs := jobs st ++ [j];
     stagnant := stagnant st; lastSeen := lastSeen st |}.

Definition set_stagnation (n last : nat) (st : HarvestState) : HarvestState :=
  {| seen := seen st; jobs := jobs st; stagnant := n; lastSeen := last |}.

(** [a.getAttribute("href") || ""] *)
Definition href_or_empty (h : option jsstring) : jsstring := or_else (default [] h) [].

(** ['"OK" | "BLOCKED"'] *)
Inductive block_state : Type := OK | BLOCKED.

(** ** The second engine (the file's second [fetchLinkedInJobsAiHr]) *)

Module V2.

Definition HARD_RUN_TIMEOUT_MS : N := 8 * 60000.
Definition MAX_RESULTS_TO_PROCESS : nat := 40.
Definition MAX_SCROLL_ROUNDS : nat := 10.
Definition NAV_TIMEOUT_JOB_MS : N := 15000.
Definition NAV_TIMEOUT_SEARCH_MS : N := 15000.
Definition JOB_SELECTOR_TIMEOUT : N := 2500.
(** the literal of [if (stagnant >= 5)] *)
Definition STAGNATION_THRESHOLD : nat := 5.

Definition HEADER_SELECTOR : jsstring :=
  join_comma [ js "h1";
               js ".jobs-unified-top-card__job-title";
               js ".job-details-jobs-unified-top-card__job-title" ].

Definition TITLE_SELECTOR : jsstring :=
  join_comma [ js ".jobs-unified-top-card__job-title";
               js ".job-details-jobs-unified-top-card__job-title";
               js "h1" ].

Definition COMPANY_SELECTOR : jsstring :=
  join_comma [ js ".jobs-unified-top-card__company-name";
               js ".job-details-jobs-unified-top-card__company-name";
               COMPANY_LINK_SELECTOR ].

Definition DESCRIPTION_SELECTOR : jsstring :=
  join_comma [ js ".jobs-description-content__text";
               js ".jobs-box__html-content";
               js "#job-details";
               JOB_DETAILS_ID_SELECTOR ].

(** The block markers; 252 and 220 are the code units of u-umlaut and
    U-umlaut. *)
Definition BLOCK_SELECTOR : jsstring :=
  join_comma [ text_is (js "Sicherheits" ++ [252%N] ++ js "berpr" ++ [252%N] ++ js "fung");
               text_is (js "Security Verification");
               text_is (js "Verify");
               text_is ([220%N] ++ js "berpr" ++ [252%N] ++ js "fen");
               text_is (js "Sign in to continue");
               text_is (js "Melde dich an");
               text_is (js "Join LinkedIn");
               js "input[name=" ++ quoted (js "session_key") ++ js "]" ].

Definition NAV_TIMEOUT_message (tag : jsstring) (ms : N) (url : jsstring) : jsstring :=
  js "NAV_TIMEOUT_" ++ tag ++ js ": " ++ String_of_N ms ++ js "ms (" ++ url ++ js ")".

Definition TIMEOUT_message (ms : N) : jsstring :=
  js "TIMEOUT: Job fetch exceeded " ++ String_of_N ms ++ js "ms".

Definition BLOCKED_OR_NO_JOBS : jsstring :=
  js "BLOCKED_OR_NO_JOBS: LinkedIn did not render job links (possible verification/anti-bot). Try HEADLESS=false.".

Definition BLOCKED_MIDRUN : jsstring :=
  js "BLOCKED_MIDRUN: verification/anti-bot detected.".

Section Engine.

Context {W Handle : Type} `{!Browser W Handle} `{!Host}.

(** [handleConsentIfPresent]: the [for] loop over the candidates. *)
Fixpoint consent_loop (sels : list jsstring) : M W unit :=
  match sels with
  | [] => mret tt
  | sel :: rest =>
      let* visible := catch_default (call (isVisible sel (Some 800%N))) false in
      if visible
      then catch_default (call (click sel 2000)) tt;;
           call (waitForTimeout 300)
      else consent_loop rest
  end.

Definition handleConsentIfPresent : M W unit := consent_loop consent_candidates.

(** [gotoWithTimeout] *)
Definition gotoWithTimeout (url : jsstring) (ms : N) (tag : jsstring) : M W unit :=
  fun w =>
    match goto_race_timer url ms (page w) with
    | (None, p') => (Throw (NAV_TIMEOUT_message tag ms url), World p' (log w))
    | (Some r, p') => (r, World p' (log w))
    end.

(** [findLeftListScroller] *)
Definition findLeftListScroller : M W (option Handle) :=
  call known_or_best_scored_scroller.

(** [collectLeftHrefs] *)
Definition collectLeftHrefs (scroller : option Handle) : M W (list jsstring) :=
  match scroller with
  | None =>
      catch_default (let* hs := call page_job_hrefs in mret (map href_or_empty hs)) []
  | Some el =>
      catch_default (let* hs := call (element_job_hrefs el) in mret (map href_or_empty hs)) []
  end.

(** [scrollLeft] *)
Definition scrollLeft (scroller : option Handle) (deltaPx : N) : M W unit :=
  match scroller with
  | Some el => catch_default (call (scroll_element el deltaPx)) tt
  | None => catch_default (call (scroll_window deltaPx)) tt
  end;;
  call (waitForTimeout 500).

(** [waitForJobsOrDetectBlock]: the [while (Date.now() - start < 30_000)]
    loop. Every iteration that goes on has awaited a 400 ms timer, so no
    more than 75 iterations fit into the window; [fuel] is that bound. *)
Fixpoint block_poll (fuel : nat) (start : N) : M W block_state :=
  match fuel with
  | O => mret BLOCKED
  | S fuel' =>
      let* t := observe now in
      if (t - start <? 30000)%N
      then
        handleConsentIfPresent;;
        let* blocked := catch_default (call (isVisible BLOCK_SELECTOR (Some 800%N))) false in
        if blocked then mret BLOCKED
        else
          let* n := catch_default (call (count JOB_LINK_SELECTOR)) 0 in
          if 0 <? n then mret OK
          else call (waitForTimeout 400);; block_poll fuel' start
      else mret BLOCKED
  end.

Definition waitForJobsOrDetectBlock : M W block_state :=
  let* start := observe now in
  block_poll 75 start.

(** [readJobPageDetails], its steps named: the wait for the job header
    and the expansion of the description, *)
Definition await_header : M W unit :=
  catch_default (call (waitFor HEADER_SELECTOR 10000)) tt.

Definition expand_description : M W unit :=
  let* showMore := catch_default (call (isVisible SHOW_MORE_SELECTOR (Some 800%N))) false in
  if showMore
  then catch_default (call (click SHOW_MORE_SELECTOR 1500)) tt;;
       call (waitForTimeout 200)
  else mret tt.

(** the initializer of [jobTitle] (the page title is read only when the
    title locator gave nothing), *)
Definition read_jobTitle : M W jsstring :=
  let* titleText := catch_default (call (textContent TITLE_SELECTOR (Some JOB_SELECTOR_TIMEOUT))) (Some []) in
  if truthy (normalizeText titleText) then mret (normalizeText titleText)
  else
    let* pageTitle := catch_default (call title) [] in
    mret (or_else (normalizeText (Some pageTitle)) (js "(unknown title)")).

(** the initializer of [company], *)
Definition read_company : M W jsstring :=
  let* companyText := catch_default (call (textContent COMPANY_SELECTOR (Some JOB_SELECTOR_TIMEOUT))) (Some []) in
  mret (or_else (normalizeText companyText) (js "(unknown company)")).

(** [description] with its fallback to the main content, *)
Definition read_description : M W jsstring :=
  let* descText := catch_default (call (textContent DESCRIPTION_SELECTOR (Some JOB_SELECTOR_TIMEOUT))) (Some []) in
  let description := normalizeText descText in
  if negb (truthy description) || (length description <? 50)
  then
    let* rootText := catch_default
                       (let* t := call description_root_text in mret (slice0 15000 t)) [] in
    mret (normalizeText (Some rootText))
  else mret description.

(** and [postingDate]. *)
Definition read_postingDate : M W jsstring :=
  let* datetime := catch_default (call (getAttribute TIME_SELECTOR (js "datetime"))) None in
  mret match datetime with
       | Some dt => if truthy dt then toIsoDateOrEmpty dt else []
       | None => []
       end.

Definition readJobPageDetails : M W Details :=
  await_header;;
  expand_description;;
  let* jobTitle := read_jobTitle in
  let* company := read_company in
  let* description := read_description in
  let* postingDate := read_postingDate in
  mret {| d_jobTitle := jobTitle; d_company := company;
          d_description := description; d_postingDate := postingDate |}.

(** [withHardTimeout]: the timer armed with [setTimeout] rejects the outer
    promise when its callback runs before the reactions of [p]; otherwise
    the reactions clear the timer and forward the outcome of [p]. A promise
    settles once, so whichever runs first decides. *)
Definition timer_runs_first (deadline settled_at : N) : bool :=
  ((deadline <? settled_at) || (deadline =? settled_at) && timer_wins_tie)%N.

Definition withHardTimeout {A} (p : M W A) (ms : N) : M W A :=
  fun w =>
    let deadline := (now (page w) + ms)%N in
    match p w with
    | (r, w') =>
        if timer_runs_first deadline (now (page w'))
        then (Throw (TIMEOUT_message ms), w')
        else (r, w')
    end.

(** The body of the [for (const jobUrl of hrefs)] loop after [seen.add]:
    the [try] block, the [finally] block, and the statement as a whole.
    Nothing follows [jobs.push] inside the [try] except logging, so the
    [catch] branch always sees the array as it was. *)
Definition attempt (jobUrl : jsstring) (st : HarvestState) : M W HarvestState :=
  emit (EvOpen jobUrl);;
  gotoWithTimeout jobUrl NAV_TIMEOUT_JOB_MS (js "job");;
  call (waitForTimeout 350);;
  let* details := readJobPageDetails in
  emit (EvExtracted jobUrl details);;
  let m := matchesAIandHR (haystack details) in
  if ok m
  then
    let job := job_of jobUrl details (d_postingDate details) in
    emit (EvPush job);;
    mret (push_job job st)
  else mret st.

Definition back_to_list : M W unit :=
  catch_default (gotoWithTimeout SEARCH_URL NAV_TIMEOUT_SEARCH_MS (js "search-back")) tt;;
  call (waitForTimeout 300).

Definition visit (jobUrl : jsstring) (st : HarvestState) : M W HarvestState :=
  try_finally (try_catch (attempt jobUrl st) (fun _ => mret st)) back_to_list.

(** The [for (const jobUrl of hrefs)] loop with its [break] and [continue]. *)
Fixpoint process_hrefs (hrefs : list jsstring) (st : HarvestState) : M W HarvestState :=
  match hrefs with
  | [] => mret st
  | jobUrl :: rest =>
      if MAX_RESULTS_TO_PROCESS <=? length (jobs st) then mret st
      else if bool_decide (jobUrl ∈ seen st) then process_hrefs rest st
      else
        emit (EvSeen jobUrl);;
        let* st' := visit jobUrl (add_seen jobUrl st) in
        process_hrefs rest st'
  end.

(** The body of the [for (let round = 0; ...)] loop: [Some reason] when the
    round ends in a [break], [None] when the loop goes on. *)
Definition round_step (round : nat) (st : HarvestState)
  : M W (option stop_reason * HarvestState) :=
  emit (EvRound round);;
  handleConsentIfPresent;;
  let* state := waitForJobsOrDetectBlock in
  match state with
  | BLOCKED => throw BLOCKED_MIDRUN
  | OK =>
      let* scroller := findLeftListScroller in
      let* hrefsRaw := collectLeftHrefs scroller in
      let* st1 := process_hrefs (canonical_hrefs hrefsRaw) st in
      if MAX_RESULTS_TO_PROCESS <=? length (jobs st1) then mret (Some MaxResults, st1)
      else
        let prevSeen := size (seen st1) in
        let* scrollerAfter := findLeftListScroller in
        scrollLeft scrollerAfter 2200;;
        let* scrollerCheck := findLeftListScroller in
        let* hrefsAfterRaw := collectLeftHrefs scrollerCheck in
        let hrefsAfter := canonical_hrefs hrefsAfterRaw in
        let uniqueAfter : gset jsstring := list_to_set hrefsAfter in
        let stagnant' :=
          if size (seen st1) =? prevSeen then S (stagnant st1) else 0 in
        let st2 := set_stagnation stagnant' (lastSeen st1) st1 in
        if STAGNATION_THRESHOLD <=? stagnant' then mret (Some Stagnant, st2)
        else mret (None, st2)
  end.

(** The [for (let round = 0; round < MAX_SCROLL_ROUNDS; round++)] loop;
    [remaining] is [MAX_SCROLL_ROUNDS - round]. *)
Fixpoint rounds (remaining round : nat) (st : HarvestState)
  : M W (stop_reason * HarvestState) :=
  match remaining with
  | O => mret (MaxRounds, st)
  | S remaining' =>
      let* r := round_step round st in
      match r with
      | (Some reason, st') => mret (reason, st')
      | (None, st') => rounds remaining' (S round) st'
      end
  end.

(** The [async] arrow function handed to [withHardTimeout], with the final
    governor state and the reason the loop ended kept beside the result. *)
Definition harvest_run : M W (stop_reason * HarvestState) :=
  gotoWithTimeout SEARCH_URL NAV_TIMEOUT_SEARCH_MS (js "search");;
  handleConsentIfPresent;;
  let* state0 := waitForJobsOrDetectBlock in
  match state0 with
  | BLOCKED => throw BLOCKED_OR_NO_JOBS
  | OK => rounds MAX_SCROLL_ROUNDS 0 initial_state
  end.

Definition harvest : M W (list ApiJob) :=
  let* r := harvest_run in
  mret (jobs r.2).

(** [fetchLinkedInJobsAiHr] *)
Definition fetchLinkedInJobsAiHr : M W (list ApiJob) :=
  call_total (setDefaultTimeout DEFAULT_TIMEOUT);;
  withHardTimeout harvest HARD_RUN_TIMEOUT_MS.

End Engine.

End V2.

(** ** The first engine (the file's first [fetchLinkedInJobsAiHr]) *)

Module V1.

Definition MAX_RESULTS_TO_PROCESS : nat := 80.
Definition MAX_SCROLL_ROUNDS : nat := 25.
(** the literal of [if (stagnant >= 4)] *)
Definition STAGNATION_THRESHOLD : nat := 4.

Definition TITLE_SELECTOR : jsstring :=
  join_comma [ js "h1"; js "h2.jobs-unified-top-card__job-title" ].

Definition COMPANY_SELECTOR : jsstring :=
  join_comma [ js "a.jobs-unified-top-card__company-name";
               js "span.jobs-unified-top-card__company-name";
               js "div.jobs-unified-top-card__company-name";
               COMPANY_LINK_SELECTOR ].

Definition POSTED_TEXT_SELECTOR : jsstring :=
  join_comma [ js "span.jobs-unified-top-card__posted-date";
               js "span.jobs-unified-top-card__subtitle-secondary-grouping";
               js "span.jobs-unified-top-card__bullet" ].

Definition DESCRIPTION_SELECTOR : jsstring :=
  join_comma [ js "div.jobs-description-content__text";
               js "div.jobs-box__html-content";
               JOB_DETAILS_ID_SELECTOR;
               js "section.description";
               js "div.jobs-description" ].

Section Engine.

Context {W Handle : Type} `{!Browser W Handle} `{!Host}.

(** [handleConsentIfPresent] *)
Fixpoint consent_loop (sels : list jsstring) : M W unit :=
  match sels with
  | [] => mret tt
  | sel :: rest =>
      let* visible := catch_default (call (isVisible sel None)) false in
      if visible
      then catch_default (call (click sel 2000)) tt;;
           call (waitForTimeout 600)
      else consent_loop rest
  end.

Definition handleConsentIfPresent : M W unit := consent_loop consent_candidates.

(** [findLeftListScroller] *)
Definition findLeftListScroller : M W (option Handle) :=
  call best_scored_scroller.

(** [scrollLeft] *)
Definition scrollLeft (scroller : option Handle) (deltaPx : N) : M W unit :=
  match scroller with
  | Some el => catch_default (call (scroll_element el deltaPx)) tt
  | None => catch_default (call (scroll_window deltaPx)) tt
  end;;
  call (waitForTimeout 650).

(** [waitForAnyJobLinks]: the [while (Date.now() - start < DEFAULT_TIMEOUT)]
    loop; an iteration that goes on has awaited a 400 ms timer, so at
    most 150 iterations fit into the window. *)
Fixpoint links_poll (fuel : nat) (start : N) : M W unit :=
  match fuel with
  | O => mret tt
  | S fuel' =>
      let* t := observe now in
      if (t - start <? DEFAULT_TIMEOUT)%N
      then
        handleConsentIfPresent;;
        let* n := catch_default (call (count JOB_LINK_SELECTOR)) 0 in
        if 0 <? n then mret tt
        else call (waitForTimeout 400);; links_poll fuel' start
      else mret tt
  end.

Definition waitForAnyJobLinks : M W unit :=
  let* start := observe now in
  links_poll 150 start.

(** [collectLeftHrefs] *)
Definition collectLeftHrefs (scroller : option Handle) : M W (list jsstring) :=
  match scroller with
  | None =>
      catch_default (let* hs := call page_job_hrefs in mret (map href_or_empty hs)) []
  | Some el =>
      catch_default (let* hs := call (element_job_hrefs el) in mret (map href_or_empty hs)) []
  end.

(** [readJobPageDetails], its steps named: the expansion of the
    description, *)
Definition expand_description : M W unit :=
  let* showMore := catch_default (call (isVisible SHOW_MORE_SELECTOR None)) false in
  if showMore
  then catch_default (call (click SHOW_MORE_SELECTOR 2000)) tt;;
       call (waitForTimeout 250)
  else mret tt.

(** the initializers of [jobTitle], [company] and [description], *)
Definition read_jobTitle : M W jsstring :=
  let* titleText := catch_default (call (textContent TITLE_SELECTOR None)) (Some []) in
  mret (or_else (normalizeText titleText) (js "(unknown title)")).

Definition read_company : M W jsstring :=
  let* companyText := catch_default (call (textContent COMPANY_SELECTOR None)) (Some []) in
  mret (or_else (normalizeText companyText) (js "(unknown company)")).

Definition read_description : M W jsstring :=
  let* descText := catch_default (call (textContent DESCRIPTION_SELECTOR None)) (Some []) in
  mret (normalizeText descText).

(** and [postingDate]: the [datetime] attribute first, the posted-date
    text when that gave nothing. *)
Definition read_postingDate : M W jsstring :=
  let* datetime := catch_default (call (getAttribute TIME_SELECTOR (js "datetime"))) None in
  let postingDate :=
    match datetime with
    | Some dt => if truthy dt then toIsoDateOrEmpty dt else []
    | None => []
    end in
  if negb (truthy postingDate)
  then
    let* postedText := catch_default (call (textContent POSTED_TEXT_SELECTOR None)) (Some []) in
    mret (toIsoDateOrEmpty (normalizeText postedText))
  else mret postingDate.

Definition readJobPageDetails : M W Details :=
  expand_description;;
  let* jobTitle := read_jobTitle in
  let* company := read_company in
  let* description := read_description in
  let* postingDate := read_postingDate in
  mret {| d_jobTitle := jobTitle; d_company := company;
          d_description := description; d_postingDate := postingDate |}.

(** The body of the [for (const jobUrl of hrefs)] loop after [seen.add]. *)
Definition visit (jobUrl : jsstring) (st : HarvestState) : M W HarvestState :=
  emit (EvOpen jobUrl);;
  catch_default (call (goto jobUrl)) tt;;
  call (waitForTimeout 800);;
  let* details := readJobPageDetails in
  emit (EvExtracted jobUrl details);;
  let m := matchesAIandHR (haystack details) in
  if negb (ok m) then mret st
  else
    let job := job_of jobUrl details (d_postingDate details) in
    emit (EvPush job);;
    mret (push_job job st).

(** The [for (const jobUrl of hrefs)] loop with its [break] and [continue]. *)
Fixpoint process_hrefs (hrefs : list jsstring) (st : HarvestState) : M W HarvestState :=
  match hrefs with
  | [] => mret st
  | jobUrl :: rest =>
      if MAX_RESULTS_TO_PROCESS <=? length (jobs st) then mret st
      else if bool_decide (jobUrl ∈ seen st) then process_hrefs rest st
      else
        emit (EvSeen jobUrl);;
        let* st' := visit jobUrl (add_seen jobUrl st) in
        process_hrefs rest st'
  end.

(** The body of the [for (let round = 0; ...)] loop: [Some reason] when the
    round ends in a [break], [None] when the loop goes on. *)
Definition round_step (scroller : option Handle) (round : nat) (st : HarvestState)
  : M W (option stop_reason * HarvestState) :=
  emit (EvRound round);;
  handleConsentIfPresent;;
  let* hrefsRaw := collectLeftHrefs scroller in
  let* st1 := process_hrefs (canonical_hrefs hrefsRaw) st in
  if MAX_RESULTS_TO_PROCESS <=? length (jobs st1) then mret (Some MaxResults, st1)
  else
    let stagnant' :=
      if size (seen st1) =? lastSeen st1 then S (stagnant st1) else 0 in
    let st2 := set_stagnation stagnant' (size (seen st1)) st1 in
    if STAGNATION_THRESHOLD <=? stagnant' then mret (Some Stagnant, st2)
    else
      catch_default (call (goto SEARCH_URL)) tt;;
      call (waitForTimeout 800);;
      scrollLeft scroller 1800;;
      mret (None, st2).

(** The [for (let round = 0; round < MAX_SCROLL_ROUNDS; round++)] loop. *)
Fixpoint rounds (scroller : option Handle) (remaining round : nat) (st : HarvestState)
  : M W (stop_reason * HarvestState) :=
  match remaining with
  | O => mret (MaxRounds, st)
  | S remaining' =>
      let* r := round_step scroller round st in
      match r with
      | (Some reason, st') => mret (reason, st')
      | (None, st') => rounds scroller remaining' (S round) st'
      end
  end.

(** [fetchLinkedInJobsAiHr], with the final governor state and the reason
    the loop ended kept beside the result. *)
Definition harvest_run : M W (stop_reason * HarvestState) :=
  call_total (setDefaultTimeout DEFAULT_TIMEOUT);;
  call (goto SEARCH_URL);;
  handleConsentIfPresent;;
  waitForAnyJobLinks;;
  let* scroller := findLeftListScroller in
  rounds scroller MAX_SCROLL_ROUNDS 0 initial_state.

Definition fetchLinkedInJobsAiHr : M W (list ApiJob) :=
  let* r := harvest_run in
  mret (jobs r.2).

End Engine.

End V1.

(** ** The scroller scripts

    The closures that [findLeftListScroller] evaluates in the page, as
    functions of what they read from the DOM: for every element its
    [scrollHeight], its [clientHeight], the [overflowY] of its computed
    style and the number of job anchors below it. *)

Module Dom.

Record element : Type := {
  scrollHeight : N;
  clientHeight : N;
  overflowY : jsstring;
  jobLinks : N
}.

(** [isScrollable]; [slack] is the literal added to [clientHeight] (50 in
    the first engine, 30 in the second). *)
Definition isScrollable (slack : N) (el : element) : bool :=
  (clientHeight el + slack <? scrollHeight el)%N &&
  (bool_decide (overflowY el = js "auto") || bool_decide (overflowY el = js "scroll")).

(** [links * 100 + Math.min(el.clientHeight, 1200)] *)
Definition score (el : element) : N :=
  (jobLinks el * 100 + N.min (clientHeight el) 1200)%N.

(** The body of [for (const el of els)], on [(best, bestScore)]. *)
Definition scoring_step (slack : N) (acc : option element * N) (el : element)
  : option element * N :=
  if negb (isScrollable slack el) then acc
  else if (acc.2 <? score el)%N then (Some el, score el) else acc.

Definition best_scored (slack : N) (els : list element) : option element :=
  (foldl (scoring_step slack) (None, 0%N) els).1.

(** The script of the first engine; [els] is
    [document.querySelectorAll("div, section, aside, main")]. *)
Definition V1_script (els : list element) : option element := best_scored 50 els.

(** The script of the second engine; [candidates] are the results of the
    four [document.querySelector] calls, [None] for [null]. *)
Definition V2_script (candidates : list (option element)) (els : list element)
  : option element :=
  match find (fun el => isScrollable 30 el && (0 <? jobLinks el)%N) (omap id candidates) with
  | Some el => Some el
  | None => best_scored 30 els
  end.

End Dom.

(** ** The session wrapper ([src/reuse-session.ts]) and the HTTP trigger
    ([src/functions/runJobsAiHr.ts])

    What the wrapper needs beside the page: the environment, the file
    system, and the life cycle of browser, context and page. The error of
    a rejection is its message, so [String(error?.message ?? error)] is
    the error itself. [context.log] of the trigger is not modelled. *)

Class Session (W : Type) : Type := {
  (** [process.env[name]] *)
  env : jsstring -> option jsstring;
  (** [s.toLowerCase()] *)
  toLowerCase : jsstring -> jsstring;
  (** [fs.existsSync(path)] *)
  existsSync : jsstring -> W -> bool;
  (** [chromium.launch({ headless, args: ["--disable-dev-shm-usage"] })] *)
  launch : bool -> W -> outcome unit * W;
  (** [browser.newContext({ storageState })] *)
  newContext : jsstring -> W -> outcome unit * W;
  (** [context.newPage()] *)
  newPage : W -> outcome unit * W;
  (** [page.url()] *)
  url : W -> jsstring;
  (** [page.locator(sel).isVisible()] *)
  locator_isVisible : jsstring -> W -> outcome bool * W;
  (** [context.close()] and [browser.close()] *)
  context_close : W -> outcome unit * W;
  browser_close : W -> outcome unit * W
}.

Module Reuse.

Definition LINKEDIN_FEED_URL : jsstring := js "https://www.linkedin.com/feed/".
Definition DEFAULT_TIMEOUT : N := 60000.
Definition LOGIN_FIELD_SELECTOR : jsstring :=
  js "input[name=" ++ quoted (js "session_key") ++ js "]".

Definition SESSION_MISSING_message (path : jsstring) : jsstring :=
  js "SESSION_MISSING: Session file not found at " ++ path ++ js ". Run npm run login first.".

Definition AUTH_REQUIRED_session : jsstring :=
  js "AUTH_REQUIRED: Session expired/invalid or verification required.".

Definition AUTH_REQUIRED_form : jsstring :=
  js "AUTH_REQUIRED: LinkedIn login form detected.".

(** [isLoggedOutOrChallengeUrl] *)
Definition isLoggedOutOrChallengeUrl (u : jsstring) : bool :=
  includes u (js "/login") || includes u (js "/checkpoint") || includes u (js "/challenge").

Section Wrapper.

Context {W Handle : Type} `{!Browser W Handle} `{!Session W}.

(** [process.env.SESSION_PATH || "session/linkedin-session.json"] *)
Definition SESSION_PATH : jsstring :=
  or_else (default [] (env (js "SESSION_PATH"))) (js "session/linkedin-session.json").

(** [isHeadless] *)
Definition isHeadless : bool :=
  bool_decide (toLowerCase (default (js "true") (env (js "HEADLESS"))) = js "true").

(** The [try] block and the [finally] block of [runWithLinkedInSession]. *)
Definition guarded {T} (work : M W T) : M W T :=
  call (goto LINKEDIN_FEED_URL);;
  let* u := observe url in
  if isLoggedOutOrChallengeUrl u then throw AUTH_REQUIRED_session
  else
    let* loginVisible := catch_default (call (locator_isVisible LOGIN_FIELD_SELECTOR)) false in
    if loginVisible then throw AUTH_REQUIRED_form
    else work.

Definition close_all : M W unit :=
  call context_close;; call browser_close.

(** [runWithLinkedInSession] *)
Definition runWithLinkedInSession {T} (work : M W T) : M W T :=
  let* present := observe (existsSync SESSION_PATH) in
  if negb present then throw (SESSION_MISSING_message SESSION_PATH)
  else
    call (launch isHeadless);;
    call (newContext SESSION_PATH);;
    call newPage;;
    call_total (setDefaultTimeout DEFAULT_TIMEOUT);;
    try_finally (guarded work) close_all.

End Wrapper.

End Reuse.

Module Trigger.

(** The [jsonBody] of the response: [{ ok: true, count, tookMs, jobs }] or
    [{ ok: false, error }]. *)
Inductive JsonBody : Type :=
| Success (count : nat) (tookMs : Z) (jobs : list ApiJob)
| Failure (error : jsstring).

Record HttpResponseInit : Type := { status : N; jsonBody : JsonBody }.

Section Handler.

Context {W Handle : Type} `{!Browser W Handle} `{!Session W}.

(** [runJobsAiHr]; [fetch] is the imported [fetchLinkedInJobsAiHr]. *)
Definition runJobsAiHr (fetch : M W (list ApiJob)) : M W HttpResponseInit :=
  let* startedAt := observe now in
  try_catch
    (let* jobs := Reuse.runWithLinkedInSession fetch in
     let* finishedAt := observe now in
     mret {| status := 200;
             jsonBody := Success (length jobs) (Z.of_N finishedAt - Z.of_N startedAt) jobs |})
    (fun message =>
       let status :=
         if includes message (js "AUTH_REQUIRED") || includes message (js "SESSION_MISSING")
         then 401%N else 500%N in
       mret {| status := status; jsonBody := Failure message |}).

End Handler.

End Trigger.

(** ** Specification vocabulary *)

(** [wp m Q w]: running [m] from [w] ends in an outcome and a world that
    satisfy [Q]. *)
Definition wp {W A} (m : M W A) (Q : outcome A → world W → Prop) (w : world W) : Prop :=
  Q (m w).1 (m w).2.

(** A computation that leaves the history alone, and one that never rejects. *)
Definition quiet {W A} (m : M W A) : Prop := ∀ w, log (m w).2 = log w.

Definition safe {W A} (m : M W A) : Prop := ∀ w, ∃ a, (m w).1 = Ok a.



(** What a history says: the keys marked as seen, the keys dispatched to
    detail extraction, the records pushed, and the records the content
    filter accepts among those extracted, each in order of occurrence. *)
Definition marked (h : list event) : list jsstring :=
  omap (λ e, match e with EvSeen k => Some k | _ => None end) h.

Definition opened (h : list event) : list jsstring :=
  omap (λ e, match e with EvOpen k => Some k | _ => None end) h.

Definition pushed (h : list event) : list ApiJob :=
  omap (λ e, match e with EvPush j => Some j | _ => None end) h.

Definition accepted (h : list event) : list ApiJob :=
  omap (λ e, match e with
             | EvExtracted k d =>
                 if ok (matchesAIandHR (haystack d))
                 then Some (job_of k d (d_postingDate d)) else None
             | _ => None
             end) h.

Definition round_starts (h : list event) : list nat :=
  omap (λ e, match e with EvRound n => Some n | _ => None end) h.

(** The text of a result record as the content filter saw it. *)
Definition job_text (j : ApiJob) : jsstring :=
  jobTitle j ++ [10%N] ++ company j ++ [10%N] ++ description j.

(** The discipline of a history under a cap [max]: what must hold of the
    events so far when the next event happens. *)
Definition step_ok (max : nat) (h : list event) (e : event) : Prop :=
  match e with
  | EvRound _ => True
  | EvSeen k => (k ∉ marked h) ∧ length (pushed h) < max
  | EvOpen k => k ∈ marked h ∧ (k ∉ opened h) ∧ length (pushed h) < max
  | EvExtracted _ _ => True
  | EvPush j =>
      length (pushed h) < max ∧ link j ∈ opened h ∧ (link j ∉ map link (pushed h))
  end.

Inductive orderly (max : nat) : list event → Prop :=
| orderly_nil : orderly max []
| orderly_snoc h e : orderly max h → step_ok max h e → orderly max (h ++ [e]).

(** What holds of the history whenever the governor is between two
    candidates, and how its state relates to the history then. *)
Definition settled (max : nat) (h : list event) : Prop :=
  orderly max h ∧ pushed h = accepted h.

Record inv (max : nat) (st : HarvestState) (h : list event) : Prop := {
  inv_settled : settled max h;
  inv_jobs : jobs st = pushed h;
  inv_seen : ∀ k, k ∈ seen st ↔ k ∈ marked h
}.

(** The decimal digits of a number below 100, and of one below 10000,
    with leading zeros. *)
Definition two_digits (n : N) : jsstring := [48 + n / 10; 48 + n mod 10]%N.

Definition four_digits (n : N) : jsstring :=
  [48 + n / 1000; 48 + (n / 100) mod 10; 48 + (n / 10) mod 10; 48 + n mod 10]%N.

(** Two subjects that differ in the case of ASCII letters only. *)
Definition same_modulo_case (s t : jsstring) : Prop := map canon s = map canon t.

(** Two positions of a match that differ in case only. *)
Definition same_position (x y : option N * jsstring) : Prop :=
  canon <$> x.1 = canon <$> y.1 ∧ same_modulo_case x.2 y.2.

(** What the claims say of a run [(outcome, final world)] of the engine. *)


(** Distinct links, among the pushed records and in the returned sequence. *)
Definition distinct_links {W} (run : outcome (list ApiJob) * world W) : Prop :=
  NoDup (map link (pushed (log run.2))) ∧
  (∀ jobs, run.1 = Ok jobs → NoDup (map link jobs)).

(** A dispatch of a key comes after the key was marked as seen, and no key
    is dispatched twice. *)
Definition mark_before_dispatch (h : list event) : Prop :=
  ∀ h1 k h2, h = h1 ++ EvOpen k :: h2 →
    EvSeen k ∈ h1 ∧ (EvOpen k ∉ h1) ∧ (EvOpen k ∉ h2).

(** The filter gates the results: the pushed records are exactly the
    extracted records the filter accepts, so each matches both patterns,
    and nothing is returned when no extracted record matches the second. *)
Definition filtered {W} (run : outcome (list ApiJob) * world W) : Prop :=
  pushed (log run.2) = accepted (log run.2) ∧
  (∀ j, j ∈ pushed (log run.2) →
     test AI_REGEX (job_text j) = true ∧ test HR_REGEX (job_text j) = true) ∧
  ((∀ k d, EvExtracted k d ∈ log run.2 → test HR_REGEX (haystack d) = false) →
   pushed (log run.2) = [] ∧ ∀ jobs, run.1 = Ok jobs → jobs = []).

(** *** Normal forms of texts, keys, dates and records *)

(** Whether a text begins with white space. *)
Definition head_ws (s : jsstring) : bool :=
  match s with c :: _ => is_ws c | [] => false end.

(** Every white-space unit is a U+0020 that no white space follows. *)
Fixpoint loose (s : jsstring) : bool :=
  match s with
  | [] => true
  | c :: s' => (if is_ws c then (c =? 32)%N && negb (head_ws s') else true) && loose s'
  end.

(** Every white-space unit is a U+0020 that another, non-white unit follows. *)
Fixpoint single_spaced (s : jsstring) : bool :=
  match s with
  | [] => true
  | c :: s' =>
      (if is_ws c
       then (c =? 32)%N && match s' with d :: _ => negb (is_ws d) | [] => false end
       else true) && single_spaced s'
  end.

Definition tidy (s : jsstring) : bool := negb (head_ws s) && single_spaced s.

Definition black (c : N) : Prop := is_ws c = false.

(** The date-only form [YYYY-MM-DD] of a year, a month (1 to 12) and a day. *)
Definition iso_date (y m d : Z) : jsstring :=
  four_digits (Z.to_N y) ++ js "-" ++ two_digits (Z.to_N m) ++ js "-" ++ two_digits (Z.to_N d).

(** The literal code units of a pattern. *)
Fixpoint literals (r : regex) : list N :=
  match r with
  | RChar c => [c]
  | RSeq r1 r2 | RAlt r1 r2 => literals r1 ++ literals r2
  | ROpt r1 => literals r1
  | REmpty | RWordB => []
  end.

(** A code unit that no literal of the pattern matches and that is not a
    word character: a match can neither contain it nor tell it from the
    end of the subject. *)
Definition separates (sep : N) (r : regex) : bool :=
  negb (is_word_unit sep) && forallb (λ c, negb (canon sep =? canon c)%N) (literals r).

Definition LINE_FEED : N := 10%N.

(** A canonical key as the governor processes it. *)
Definition key_ok (k : jsstring) : Prop :=
  k ≠ [] ∧ ∃ href, normalizeJobUrl href = Some k.

(** A text that [normalizeText] leaves as it is. *)
Definition text_ok (s : jsstring) : Prop := normalizeText (Some s) = s.

(** The shape of a posting date: empty, or a year as [String] prints it,
    a two-digit month and a two-digit day. *)
Definition date_ok (s : jsstring) : Prop :=
  s = [] ∨
  ∃ (y : Z) (m d : N),
    (-271822 ≤ y ≤ 275761)%Z ∧ (1 ≤ m ≤ 12)%N ∧ (1 ≤ d ≤ 31)%N ∧
    s = String_of_Z y ++ js "-" ++ two_digits m ++ js "-" ++ two_digits d.

Definition details_ok (d : Details) : Prop :=
  d_jobTitle d ≠ [] ∧ d_company d ≠ [] ∧
  text_ok (d_jobTitle d) ∧ text_ok (d_company d) ∧ text_ok (d_description d) ∧
  date_ok (d_postingDate d).

Definition job_ok (j : ApiJob) : Prop :=
  key_ok (link j) ∧ contact j = [] ∧
  jobTitle j ≠ [] ∧ company j ≠ [] ∧
  text_ok (jobTitle j) ∧ text_ok (company j) ∧ text_ok (description j) ∧
  date_ok (postingDate j).

Definition event_ok (e : event) : Prop :=
  match e with
  | EvRound _ => True
  | EvSeen k | EvOpen k => key_ok k
  | EvExtracted k d => key_ok k ∧ details_ok d
  | EvPush j => job_ok j
  end.

(** [returns Q m]: whenever [m] fulfils, its value satisfies [Q];
    [keeps P Q m]: moreover [m] adds only events that satisfy [P]. *)
Definition returns {W A} (Q : A → Prop) (m : M W A) : Prop :=
  ∀ w a, (m w).1 = Ok a → Q a.

Definition keeps {W A} (P : event → Prop) (Q : A → Prop) (m : M W A) : Prop :=
  ∀ w, Forall P (log w) → Forall P (log (m w).2) ∧ ∀ a, (m w).1 = Ok a → Q a.

(** [rejects_with E m]: whenever [m] rejects, the error satisfies [E]. *)
Definition rejects_with {W A} (E : jsstring → Prop) (m : M W A) : Prop :=
  ∀ w e, (m w).1 = Throw e → E e.

(** What holds of every record of a run: of those pushed, and of those
    returned. *)
Definition every_record {W} (P : ApiJob → Prop) (run : outcome (list ApiJob) * world W) : Prop :=
  Forall P (pushed (log run.2)) ∧ ∀ jobs, run.1 = Ok jobs → Forall P jobs.

(** *** Failures *)

Section Failures.

Context {W Handle : Type} `{!Browser W Handle}.

(** The error is the rejection of a pause [page.waitForTimeout(ms)] of one
    of the given lengths. *)
Definition pause_rejected (pauses : list N) (e : jsstring) : Prop :=
  ∃ ms p, ms ∈ pauses ∧ (waitForTimeout ms p).1 = Throw e.

(** The ways the second engine's [fetchLinkedInJobsAiHr] can reject: its
    own four errors, a rejection of the first navigation, a rejection of
    the scroller script, and a rejection of one of the pauses that stand
    outside the [try] block of a candidate: after the click on a consent
    button and in the [finally] block (300), between two polls for job
    links (400), after a scroll (500). *)
Definition V2_failure (e : jsstring) : Prop :=
  e = V2.TIMEOUT_message V2.HARD_RUN_TIMEOUT_MS ∨
  e = V2.NAV_TIMEOUT_message (js "search") V2.NAV_TIMEOUT_SEARCH_MS SEARCH_URL ∨
  e = V2.BLOCKED_OR_NO_JOBS ∨
  e = V2.BLOCKED_MIDRUN ∨
  (∃ p, (goto_race_timer SEARCH_URL V2.NAV_TIMEOUT_SEARCH_MS p).1 = Some (Throw e)) ∨
  (∃ p, (known_or_best_scored_scroller p).1 = Throw e) ∨
  pause_rejected [300; 400; 500]%N e.


(** A page on which the job-link locator never counts a link, and one on
    which a block marker is visible whenever it is looked for. *)
Definition never_shows_links : Prop :=
  ∀ p n p', count JOB_LINK_SELECTOR p = (Ok n, p') → n = 0.

Definition always_blocked : Prop :=
  ∀ p, (isVisible V2.BLOCK_SELECTOR (Some 800%N) p).1 = Ok true.

End Failures.

(** *** What the detail extractor makes of the page

    How one call into the browser ended, and what each field of the
    record is, given how its reads ended at the page they were made on:
    the normalized text when the read gave one, the next source or the
    default when it rejected. *)




Section Reads.

Context {W Handle : Type} `{!Browser W Handle} `{!Host}.









End Reads.

(** *** The protocol of a history

    Where the governor stands with its current candidate: between two
    candidates, behind [seen.add], behind the dispatch, behind the
    extraction. *)
Inductive phase : Type :=
| Resting
| Marked (k : jsstring)
| Opened (k : jsstring)
| Extracted (k : jsstring) (d : Details).

(** Every phase but [Marked] lets the next candidate or the next round begin. *)
Definition free (ph : phase) : Prop :=
  match ph with Marked _ => False | _ => True end.

Inductive next : phase → event → phase → Prop :=
| next_round ph n : free ph → next ph (EvRound n) Resting
| next_seen ph k : free ph → next ph (EvSeen k) (Marked k)
| next_open k : next (Marked k) (EvOpen k) (Opened k)
| next_extracted k d : next (Opened k) (EvExtracted k d) (Extracted k d)
| next_push k d :
    ok (matchesAIandHR (haystack d)) = true →
    next (Extracted k d) (EvPush (job_of k d (d_postingDate d))) Resting.

Inductive trace : list event → phase → Prop :=
| trace_nil : trace [] Resting
| trace_snoc h e ph ph' : trace h ph → next ph e ph' → trace (h ++ [e]) ph'.

(** A history that follows the protocol and stands between two candidates. *)
Definition between_candidates (h : list event) : Prop := ∃ ph, trace h ph ∧ free ph.

(** The key the phase has dispatched and not yet settled. *)
Definition pending (ph : phase) : list jsstring :=
  match ph with Opened k | Extracted k _ => [k] | _ => [] end.

(** ** Simulated browsers

    A small deterministic site for concrete runs: a list of postings, of
    which the list page shows [shown n] after [n] scrolls; a navigation
    takes [nav_ms] milliseconds; with [all_fail] every fallible call
    rejects, and a locator call rejects for the selectors in [fail_sel].
    No scrollable container is ever found, so links are collected from the
    whole page. *)

Module Sim.

Record posting : Type := {
  p_href : jsstring;
  p_title : jsstring;
  p_company : jsstring;
  p_description : jsstring;
  p_datetime : option jsstring
}.

Record site : Type := {
  postings : list posting;
  shown : nat -> nat;
  nav_ms : N;
  all_fail : bool;
  fail_sel : jsstring -> bool
}.

Record state : Type := { current : option posting; scrolls : nat; clock : N }.

Definition start : state := {| current := None; scrolls := 0; clock := 0 |}.

Definition tick (ms : N) (s : state) : state :=
  {| current := current s; scrolls := scrolls s; clock := (clock s + ms)%N |}.

Definition open_url (S : site) (url : jsstring) (s : state) : state :=
  {| current := find (fun p => bool_decide (normalizeJobUrl (trim (p_href p)) = Some url)) (postings S);
     scrolls := scrolls s;
     clock := (clock s + nav_ms S)%N |}.

Definition scrolled (s : state) : state :=
  {| current := current s; scrolls := S (scrolls s); clock := clock s |}.

Definition closed : jsstring := js "Target page, context or browser has been closed".

Definition answer {A} (S : site) (a : A) (s : state) : outcome A * state :=
  if all_fail S then (Throw closed, s) else (Ok a, s).

Definition timed_out : jsstring := js "Timeout 2500ms exceeded.".

Definition locate {A} (S : site) (sel : jsstring) (a : A) (s : state) : outcome A * state :=
  if fail_sel S sel then (Throw timed_out, s) else answer S a s.

Definition visible_hrefs (S : site) (s : state) : list (option jsstring) :=
  map (fun p => Some (p_href p)) (take (shown S (scrolls s)) (postings S)).

Definition field (f : posting -> jsstring) (s : state) : option jsstring :=
  match current s with Some p => Some (f p) | None => None end.

Definition text_of (sel : jsstring) (s : state) : option jsstring :=
  if bool_decide (sel = V2.TITLE_SELECTOR) || bool_decide (sel = V1.TITLE_SELECTOR)
  then field p_title s
  else if bool_decide (sel = V2.COMPANY_SELECTOR) || bool_decide (sel = V1.COMPANY_SELECTOR)
  then field p_company s
  else if bool_decide (sel = V2.DESCRIPTION_SELECTOR) || bool_decide (sel = V1.DESCRIPTION_SELECTOR)
  then field p_description s
  else None.

Definition browser (S : site) : Browser state unit := {|
  now := clock;
  timer_wins_tie := true;
  waitForTimeout := fun ms s => answer S tt (tick ms s);
  setDefaultTimeout := fun _ s => s;
  goto := fun url s => answer S tt (open_url S url s);
  goto_race_timer := fun url ms s =>
    if (nav_ms S <? ms)%N
    then (Some (answer S tt (open_url S url s)).1, open_url S url s)
    else (None, tick ms s);
  isVisible := fun sel _ => locate S sel false;
  click := fun sel _ => locate S sel tt;
  count := fun sel s => locate S sel (length (visible_hrefs S s)) s;
  waitFor := fun sel _ => locate S sel tt;
  textContent := fun sel _ s => locate S sel (text_of sel s) s;
  getAttribute := fun sel name s =>
    locate S sel (if bool_decide (sel = TIME_SELECTOR)
                  then match current s with Some p => p_datetime p | None => None end
                  else None) s;
  title := answer S (js "LinkedIn");
  best_scored_scroller := answer S None;
  known_or_best_scored_scroller := answer S None;
  page_job_hrefs := fun s => answer S (visible_hrefs S s) s;
  element_job_hrefs := fun _ s => answer S (visible_hrefs S s) s;
  scroll_element := fun _ _ s => answer S tt (scrolled s);
  scroll_window := fun _ s => answer S tt (scrolled s);
  description_root_text := fun s =>
    answer S (default [] (field p_description s)) s
|}.

(** The same site on a page that is closed during the first pause: every
    button looked for is visible and every call works, but
    [page.waitForTimeout] rejects. *)
Definition closing (S : site) : Browser state unit := {|
  now := clock;
  timer_wins_tie := true;
  waitForTimeout := fun _ s => (Throw closed, s);
  setDefaultTimeout := fun _ s => s;
  goto := goto (Browser := browser S);
  goto_race_timer := goto_race_timer (Browser := browser S);
  isVisible := fun _ _ s => (Ok true, s);
  click := click (Browser := browser S);
  count := count (Browser := browser S);
  waitFor := waitFor (Browser := browser S);
  textContent := textContent (Browser := browser S);
  getAttribute := getAttribute (Browser := browser S);
  title := title (Browser := browser S);
  best_scored_scroller := best_scored_scroller (Browser := browser S);
  known_or_best_scored_scroller := known_or_best_scored_scroller (Browser := browser S);
  page_job_hrefs := page_job_hrefs (Browser := browser S);
  element_job_hrefs := element_job_hrefs (Browser := browser S);
  scroll_element := scroll_element (Browser := browser S);
  scroll_window := scroll_window (Browser := browser S);
  description_root_text := description_root_text (Browser := browser S)
|}.

(** A host whose date parser knows the mandatory format only. *)
Definition host : Host := {| Date_parse_impl := fun _ => None |}.

Definition world0 : world state := World start [].

Definition job_href (n : nat) : jsstring :=
  js "/jobs/view/" ++ String_of_N (N.of_nat n) ++ js "/?trk=list".

Definition job_key (n : nat) : jsstring :=
  js "https://www.linkedin.com/jobs/view/" ++ String_of_N (N.of_nat n) ++ js "/".

(** A posting about both topics, one about the first topic only, and one
    about neither. *)
Definition both_topics (n : nat) : posting :=
  {| p_href := job_href n;
     p_title := js "AI Engineer for HR analytics";
     p_company := js "Acme";
     p_description := js "Build machine learning tools for our recruiting team.";
     p_datetime := Some (js "2024-05-03") |}.

Definition only_ai (n : nat) : posting :=
  {| p_href := job_href n;
     p_title := js "Machine Learning Engineer";
     p_company := js "Acme";
     p_description := js "Train large language model systems and ship generative AI.";
     p_datetime := Some (js "2024-05-03") |}.

Definition neither (n : nat) : posting :=
  {| p_href := job_href n;
     p_title := js "Accountant";
     p_company := js "Acme";
     p_description := js "Prepare the quarterly balance sheet.";
     p_datetime := None |}.

(** A list that shows everything at once and never reveals more. *)
Definition static_site (ps : list posting) : site :=
  {| postings := ps; shown := fun _ => length ps; nav_ms := 1000; all_fail := false;
     fail_sel := fun _ => false |}.

(** A list that reveals one more posting with every scroll. *)
Definition growing_site (ps : list posting) : site :=
  {| postings := ps; shown := fun n => S n; nav_ms := 1000; all_fail := false;
     fail_sel := fun _ => false |}.


(** The rounds and the marks of a history, in order. *)
Definition outline (h : list event) : list (nat + jsstring) :=
  omap (λ e, match e with
             | EvRound n => Some (inl n)
             | EvSeen k => Some (inr k)
             | _ => None
             end) h.

(** What a concrete run of the round loop is summarised to: the reason it
    ended with the counter, the size of the seen-set and the number of
    results, and the outline of its history. *)
Definition report (r : outcome (stop_reason * HarvestState) * world state)
  : option (stop_reason * nat * nat * nat) * list (nat + jsstring) :=
  (match r.1 with
   | Ok (reason, st) => Some (reason, stagnant st, size (seen st), length (jobs st))
   | Throw _ => None
   end,
   outline (log r.2)).

(** And a run of [fetchLinkedInJobsAiHr]: the links returned, the rounds
    started and the keys dispatched. *)
Definition fetch_report (r : outcome (list ApiJob) * world state)
  : option (list jsstring) * list nat * list jsstring :=
  (match r.1 with Ok jobs => Some (map link jobs) | Throw _ => None end,
   round_starts (log r.2), opened (log r.2)).

(** A session whose page is gone: every fallible call rejects. *)
Definition dead_site : site :=
  {| postings := []; shown := fun _ => 0; nav_ms := 1000; all_fail := true;
     fail_sel := fun _ => false |}.

(** A site on which the title locator times out and everything else works. *)
Definition untitled_site (ps : list posting) : site :=
  {| postings := ps; shown := fun _ => length ps; nav_ms := 1000; all_fail := false;
     fail_sel := fun sel => bool_decide (sel = V2.TITLE_SELECTOR) || bool_decide (sel = V1.TITLE_SELECTOR) |}.

End Sim.

(** A simulated session: the file is there or not, the page sits at [at_url],
    no login form shows, and launching and closing work. *)
Module SimSession.

Definition lower (c : N) : N := if ((65 <=? c) && (c <=? 90))%N then (c + 32)%N else c.

Definition session (present : bool) (at_url : jsstring) : Session Sim.state := {|
  env := fun _ => None;
  toLowerCase := map lower;
  existsSync := fun _ _ => present;
  launch := fun _ s => (Ok tt, s);
  newContext := fun _ s => (Ok tt, s);
  newPage := fun s => (Ok tt, s);
  url := fun _ => at_url;
  locator_isVisible := fun _ s => (Ok false, s);
  context_close := fun s => (Ok tt, s);
  browser_close := fun s => (Ok tt, s)
|}.

Definition signed_in : Session Sim.state := session true Reuse.LINKEDIN_FEED_URL.
Definition no_file : Session Sim.state := session false Reuse.LINKEDIN_FEED_URL.

End SimSession.

Module SimRuns.

Import Sim SimSession.

(** A signed-in session over a list with one matching posting, one over
    an empty list, and one without the session file. *)
Definition one_job : site := static_site [both_topics 1].

Definition session_run (S : site) (ses : Session state)
  : outcome (list ApiJob) * world state :=
  @Reuse.runWithLinkedInSession _ _ (browser S) ses _
    (@V2.fetchLinkedInJobsAiHr _ _ (browser S) host) world0.

Definition trigger_run (S : site) (ses : Session state)
  : outcome Trigger.HttpResponseInit * world state :=
  @Trigger.runJobsAiHr _ _ (browser S) ses
    (@V2.fetchLinkedInJobsAiHr _ _ (browser S) host) world0.

Definition value_of {A} (r : outcome A * world state) (d : A) : A :=
  match r.1 with Ok a => a | Throw _ => d end.

Definition error_of {A} (r : outcome A * world state) : jsstring :=
  match r.1 with Ok _ => [] | Throw e => e end.




(** The first round of the first engine on a list that grows. *)
Definition first_round
  : outcome (option stop_reason * HarvestState) * world state :=
  @V1.round_step _ _ (browser (growing_site (map both_topics (seq 1 3)))) host
    None 0 initial_state world0.

End SimRuns.

(* ===================================================================== *)
(** * Part II: theory *)
(* ===================================================================== *)

(** ** Strings *)

Section Strings.

Implicit Types (s t pat : jsstring) (c sep : N).

Lemma startsWith_nil s : startsWith s [] = true.
Proof. by destruct s. Qed.

Lemma startsWith_cons c s p pat :
  startsWith (c :: s) (p :: pat) = (c =? p)%N && startsWith s pat.
Proof. reflexivity. Qed.

Lemma includes_nil_l pat : pat ≠ [] → includes [] pat = false.
Proof. by destruct pat. Qed.

Lemma includes_truthy s pat : pat ≠ [] → includes s pat = true → truthy s = true.
Proof.
  intros Hpat Hinc. destruct s; [|done].
  by rewrite includes_nil_l in Hinc.
Qed.

Lemma split_first_no_sep sep s : sep ∉ split_first sep s.
Proof.
  induction s as [|c s IH]; simpl; [apply not_elem_of_nil|].
  destruct (N.eqb_spec c sep) as [->|Hne]; [apply not_elem_of_nil|].
  intros [Heq|Hin]%elem_of_cons; [congruence|done].
Qed.

Lemma split_first_id sep s : sep ∉ s → split_first sep s = s.
Proof.
  induction s as [|c s IH]; simpl; [done|].
  intros Hnin. destruct (N.eqb_spec c sep) as [->|Hne].
  - exfalso. apply Hnin. apply elem_of_cons. by left.
  - f_equal. apply IH. intros Hin. apply Hnin. apply elem_of_cons. by right.
Qed.

Lemma split_first_idem sep s : split_first sep (split_first sep s) = split_first sep s.
Proof. apply split_first_id, split_first_no_sep. Qed.

(** [split_first] cuts [s] at the first separator and nowhere else. *)
Lemma split_first_cut sep s :
  ∃ rest, s = split_first sep s ++ rest ∧ (rest = [] ∨ ∃ r, rest = sep :: r).
Proof.
  induction s as [|c s (rest & Heq & Hrest)]; simpl.
  - exists []. by split; [|left].
  - destruct (N.eqb_spec c sep) as [->|Hne].
    + exists (sep :: s). split; [done|]. right. by exists s.
    + exists rest. split; [|done]. simpl. by rewrite <- Heq.
Qed.

Lemma split_first_head sep s c :
  c ≠ sep → head (split_first sep s) = Some c ↔ head s = Some c.
Proof.
  intros Hne. destruct s as [|d s]; simpl; [done|].
  destruct (N.eqb_spec d sep) as [->|Hd]; simpl; [|done].
  split; [done|]. intros [= ->]. done.
Qed.

Lemma startsWith_slash s : startsWith s (js "/") = true ↔ head s = Some 47%N.
Proof.
  destruct s as [|c s]; [done|].
  change (js "/") with [47%N]. rewrite startsWith_cons, startsWith_nil, andb_true_r.
  rewrite N.eqb_eq. simpl. split; [by intros ->|by intros [= ->]].
Qed.

Lemma absolutize_not_relative href : startsWith (absolutize href) (js "/") = false.
Proof.
  unfold absolutize. destruct (startsWith href (js "/")) eqn:Hrel.
  - reflexivity.
  - exact Hrel.
Qed.

End Strings.

(** ** URL canonicalization *)

Section Canonicalization.

Implicit Types (href key : jsstring).

(** What [normalizeJobUrl] returns, case by case. *)
Lemma normalizeJobUrl_Some href key :
  normalizeJobUrl href = Some key ↔
  href ≠ [] ∧ includes (absolutize href) JOBS_VIEW = true ∧
  key = split_first QUESTION_MARK (absolutize href).
Proof.
  unfold normalizeJobUrl. destruct href as [|c href]; simpl truthy; simpl negb; cbv iota.
  - split; [done|]. by intros [? _].
  - destruct (includes (absolutize (c :: href)) JOBS_VIEW); simpl.
    + split; [by intros [= <-]|]. by intros (_ & _ & ->).
    + split; [done|]. by intros (_ & ? & _).
Qed.

Lemma normalizeJobUrl_None href :
  normalizeJobUrl href = None ↔
  href = [] ∨ includes (absolutize href) JOBS_VIEW = false.
Proof.
  unfold normalizeJobUrl. destruct href as [|c href]; simpl truthy; simpl negb; cbv iota.
  - split; [by left|done].
  - destruct (includes (absolutize (c :: href)) JOBS_VIEW); simpl.
    + split; [done|]. by intros [?|?].
    + split; [by right|done].
Qed.

(** A key never starts with a slash, so canonicalizing it again leaves it
    unprefixed. *)
Lemma key_not_relative href key :
  normalizeJobUrl href = Some key → absolutize key = key.
Proof.
  intros (_ & _ & ->)%normalizeJobUrl_Some.
  unfold absolutize at 1.
  destruct (startsWith (split_first QUESTION_MARK (absolutize href)) (js "/")) eqn:Hrel; [|done].
  exfalso. apply startsWith_slash in Hrel.
  apply split_first_head in Hrel; [|done].
  apply startsWith_slash in Hrel.
  by rewrite absolutize_not_relative in Hrel.
Qed.

Lemma key_no_query href key :
  normalizeJobUrl href = Some key → QUESTION_MARK ∉ key.
Proof.
  intros (_ & _ & ->)%normalizeJobUrl_Some. apply split_first_no_sep.
Qed.

(** C7, as amended: canonicalizing a key again returns the key when the
    key itself still contains [/jobs/view/] (the marker stood before the
    first [?] of the input), and [null] otherwise. *)
Theorem normalizeJobUrl_idempotent_on_keys href key :
  normalizeJobUrl href = Some key →
  normalizeJobUrl key = if includes key JOBS_VIEW then Some key else None.
Proof.
  intros Hkey.
  pose proof (key_not_relative _ _ Hkey) as Habs.
  pose proof (key_no_query _ _ Hkey) as Hq.
  destruct (includes key JOBS_VIEW) eqn:Hinc.
  - apply normalizeJobUrl_Some. rewrite Habs. split_and!; [|done|].
    + intros ->. by rewrite includes_nil_l in Hinc.
    + by rewrite split_first_id.
  - apply normalizeJobUrl_None. right. by rewrite Habs.
Qed.

Lemma normalizeJobUrl_idempotent_on_keys_witness :
  normalizeJobUrl (js "https://www.linkedin.com/jobs/view/123/")
  = if includes (js "https://www.linkedin.com/jobs/view/123/") JOBS_VIEW
    then Some (js "https://www.linkedin.com/jobs/view/123/") else None.
Proof.
  apply (normalizeJobUrl_idempotent_on_keys (js "/jobs/view/123/?trk=abc")).
  reflexivity.
Defined.

(** C7 as stated fails: the marker may stand after the first [?] only. *)
Lemma normalizeJobUrl_not_idempotent :
  normalizeJobUrl (js "https://www.linkedin.com/jobs/search/?currentJobId=42&ref=/jobs/view/42")
  = Some (js "https://www.linkedin.com/jobs/search/") ∧
  normalizeJobUrl (js "https://www.linkedin.com/jobs/search/") = None.
Proof. split; reflexivity. Qed.

(** C8, as amended: the key is the absolute URL cut at its first [?] and
    nowhere else, so it holds no query, while a fragment that is not behind
    a [?] stays; empty inputs and inputs that do not contain [/jobs/view/]
    give [null]. *)
Theorem normalizeJobUrl_cuts_at_query href :
  match normalizeJobUrl href with
  | Some key =>
      href ≠ [] ∧ includes (absolutize href) JOBS_VIEW = true ∧
      (QUESTION_MARK ∉ key) ∧
      (∃ rest, absolutize href = key ++ rest ∧
               (rest = [] ∨ ∃ r, rest = QUESTION_MARK :: r))
  | None => href = [] ∨ includes (absolutize href) JOBS_VIEW = false
  end.
Proof.
  destruct (normalizeJobUrl href) as [key|] eqn:Hn.
  - pose proof (key_no_query _ _ Hn) as Hq.
    apply normalizeJobUrl_Some in Hn as (Hne & Hinc & ->).
    split_and!; [done..|]. apply split_first_cut.
  - by apply normalizeJobUrl_None.
Qed.

(** C8 as stated fails: a fragment survives. *)
Lemma normalizeJobUrl_keeps_fragment :
  normalizeJobUrl (js "/jobs/view/123#apply")
  = Some (js "https://www.linkedin.com/jobs/view/123#apply") ∧
  NUMBER_SIGN ∈ js "https://www.linkedin.com/jobs/view/123#apply".
Proof.
  split; [reflexivity|]. apply list_elem_of_In. vm_compute. tauto.
Qed.

End Canonicalization.


(** ** Dates *)

Ltac zlia := Z.div_mod_to_equations; lia.

Section Dates.

#[local] Open Scope Z_scope.

Lemma DayFromYear_succ y : DayFromYear (y + 1) = DayFromYear y + DaysInYear y.
Proof.
  unfold DayFromYear, DaysInYear, isLeapYear.
  destruct (Z.eqb_spec (y mod 4) 0), (Z.eqb_spec (y mod 100) 0),
    (Z.eqb_spec (y mod 400) 0); cbn [andb orb negb]; zlia.
Qed.

(** The search finds the year of a day when it starts not after it and
    has fuel to reach it. *)
Lemma year_search_spec fuel d y :
  DayFromYear y <= d → d < DayFromYear (y + Z.of_nat fuel) →
  DayFromYear (year_search fuel d y) <= d < DayFromYear (year_search fuel d y + 1).
Proof.
  revert y. induction fuel as [|fuel IH]; intros y Hlo Hhi; cbn [year_search].
  - change (Z.of_nat 0) with 0 in Hhi. rewrite Z.add_0_r in Hhi. lia.
  - destruct (Z.leb_spec (DayFromYear (y + 1)) d) as [Hnext|Hstop].
    + apply IH; [done|].
      by replace (y + 1 + Z.of_nat fuel) with (y + Z.of_nat (S fuel)) by lia.
    + lia.
Qed.

(** YearFromTime is what ECMAScript says: the largest year that begins
    not after the day, for every day a time value can fall on. *)
Lemma YearFromDay_spec d :
  -100000001 <= d <= 100000001 →
  DayFromYear (YearFromDay d) <= d < DayFromYear (YearFromDay d + 1).
Proof.
  intros Hd. unfold YearFromDay. apply year_search_spec.
  - unfold DayFromYear. destruct (Z.leb_spec 0 d); zlia.
  - change (Z.of_nat 1000) with 1000. unfold DayFromYear.
    destruct (Z.leb_spec 0 d); zlia.
Qed.

Lemma YearFromDay_range d :
  -100000001 <= d <= 100000001 → -271822 <= YearFromDay d <= 275761.
Proof.
  intros Hd. pose proof (YearFromDay_spec d Hd) as Hspec.
  revert Hspec. generalize (YearFromDay d). intros y [Hlo Hhi].
  unfold DayFromYear in Hlo, Hhi. zlia.
Qed.

Lemma Day_range t : Z.abs t <= maxTime → -100000001 <= Day t <= 100000001.
Proof. unfold Day, msPerDay, maxTime. intros Ht. zlia. Qed.

Lemma DayWithinYear_range t :
  Z.abs t <= maxTime → 0 <= DayWithinYear t < 365 + InLeapYear t.
Proof.
  intros Ht. unfold DayWithinYear, InLeapYear, YearFromTime.
  pose proof (YearFromDay_spec _ (Day_range t Ht)) as [Hlo Hhi].
  rewrite DayFromYear_succ in Hhi. unfold DaysInYear in Hhi.
  destruct (isLeapYear (YearFromDay (Day t))); lia.
Qed.

Lemma MonthFromDay_range leap dwy : 0 <= MonthFromDay leap dwy <= 11.
Proof.
  unfold MonthFromDay.
  repeat match goal with |- context [if ?b then _ else _] => destruct b end; lia.
Qed.

Lemma DateFromDay_range leap dwy :
  0 <= leap <= 1 → 0 <= dwy < 365 + leap →
  1 <= dwy - monthStart leap (MonthFromDay leap dwy) + 1 <= 31.
Proof.
  intros Hleap Hdwy. unfold MonthFromDay.
  repeat match goal with
         | |- context [if ?a <? ?b then _ else _] => destruct (Z.ltb_spec a b)
         end; cbn [monthStart]; lia.
Qed.

End Dates.

Section Digits.

Implicit Types (n : N) (acc : jsstring).

Lemma digits_fuel_last f n acc : (n < 10)%N → digits_fuel (S f) n acc = (48 + n)%N :: acc.
Proof.
  intros Hn. cbn [digits_fuel]. rewrite (N.mod_small n 10) by done.
  apply N.ltb_lt in Hn. by rewrite Hn.
Qed.

Lemma digits_fuel_step f n acc :
  (10 ≤ n)%N →
  digits_fuel (S f) n acc = digits_fuel f (n / 10) ((48 + n mod 10)%N :: acc).
Proof.
  intros Hn. cbn [digits_fuel]. apply N.ltb_ge in Hn. by rewrite Hn.
Qed.

Lemma log2_fuel n k : (2 ^ k ≤ n)%N → ∃ f, N.to_nat (N.log2 n) = (N.to_nat k + f)%nat.
Proof.
  intros Hn. assert (k ≤ N.log2 n)%N as Hk.
  { rewrite <- (N.log2_pow2 k) by lia. by apply N.log2_le_mono. }
  exists (N.to_nat (N.log2 n - k)). lia.
Qed.

Lemma digits_one n : (n < 10)%N → digits n = [(48 + n)%N].
Proof. intros Hn. unfold digits. by apply digits_fuel_last. Qed.

Lemma digits_two n : (10 ≤ n < 100)%N → digits n = two_digits n.
Proof.
  intros [Hlo Hhi]. unfold digits, two_digits.
  destruct (log2_fuel n 3) as [f ->]; [simpl; lia|].
  rewrite digits_fuel_step by done. change (N.to_nat 3 + f)%nat with (S (S (S f))).
  rewrite digits_fuel_last; [done|]. apply N.Div0.div_lt_upper_bound. lia.
Qed.

Lemma digits_four n : (1000 ≤ n < 10000)%N → digits n = four_digits n.
Proof.
  intros [Hlo Hhi]. unfold digits, four_digits.
  destruct (log2_fuel n 9) as [f ->]; [simpl; lia|].
  change (N.to_nat 9 + f)%nat with (S (S (S (S (S (S (S (S (S f))))))))).
  assert (100 ≤ n / 10 < 1000)%N as [? ?].
  { split; [apply N.div_le_lower_bound; lia|apply N.Div0.div_lt_upper_bound; lia]. }
  assert (10 ≤ n / 10 / 10 < 100)%N as [? ?].
  { split; [apply N.div_le_lower_bound; lia|apply N.Div0.div_lt_upper_bound; lia]. }
  assert (n / 10 / 10 / 10 < 10)%N.
  { apply N.Div0.div_lt_upper_bound; lia. }
  rewrite digits_fuel_step by lia. rewrite digits_fuel_step by lia.
  rewrite digits_fuel_step by lia. rewrite digits_fuel_last by lia.
  rewrite !N.Div0.div_div. reflexivity.
Qed.

(** [String(n).padStart(2, "0")] *)
Lemma pad_two n : (n < 100)%N → padStart 2 48%N (digits n) = two_digits n.
Proof.
  intros Hn. destruct (N.lt_ge_cases n 10) as [Hsmall|Hbig].
  - rewrite digits_one by done. unfold padStart, two_digits. simpl.
    rewrite N.div_small, N.mod_small by done. by rewrite N.add_0_r.
  - by rewrite digits_two.
Qed.

Lemma String_of_Z_pos z : (0 < z)%Z → String_of_Z z = digits (Z.to_N z).
Proof. by destruct z. Qed.

End Digits.

Section DateFormat.

Context `{!Host}.

Lemma Date_of_string_range s t : Date_of_string s = Some t → (Z.abs t <= maxTime)%Z.
Proof.
  unfold Date_of_string, TimeClip. destruct (Date_parse s) as [t'|]; [|done].
  destruct (Z.leb_spec (Z.abs t') maxTime); [|done]. by intros [= <-].
Qed.

(** What [toIsoDateOrEmpty] returns: the empty string for an invalid date;
    otherwise the UTC year as [String] prints it, then the UTC month plus
    one and the UTC day of the month, with two digits each. *)
Lemma toIsoDateOrEmpty_parts s :
  match Date_of_string s with
  | None => toIsoDateOrEmpty s = []
  | Some t =>
      (0 ≤ getUTCMonth t ≤ 11)%Z ∧ (1 ≤ getUTCDate t ≤ 31)%Z ∧
      toIsoDateOrEmpty s
      = String_of_Z (getUTCFullYear t) ++ js "-"
        ++ two_digits (Z.to_N (getUTCMonth t + 1)) ++ js "-"
        ++ two_digits (Z.to_N (getUTCDate t)) ∧
      (-271822 ≤ getUTCFullYear t ≤ 275761)%Z ∧
      ((1000 ≤ getUTCFullYear t ≤ 9999)%Z →
       String_of_Z (getUTCFullYear t) = four_digits (Z.to_N (getUTCFullYear t)))
  end.
Proof.
  unfold toIsoDateOrEmpty. destruct (Date_of_string s) as [t|] eqn:Hparse; [|done].
  apply Date_of_string_range in Hparse.
  pose proof (DayWithinYear_range t Hparse) as Hdwy.
  assert (0 ≤ InLeapYear t ≤ 1)%Z as Hleap.
  { unfold InLeapYear. destruct (isLeapYear _); lia. }
  pose proof (MonthFromDay_range (InLeapYear t) (DayWithinYear t)) as Hm.
  pose proof (DateFromDay_range (InLeapYear t) (DayWithinYear t) Hleap Hdwy) as Hd.
  unfold getUTCMonth, getUTCDate, DateFromTime, MonthFromTime.
  split; [lia|]. split; [lia|]. split; [|split].
  - rewrite (String_of_Z_pos (_ + 1)), (String_of_Z_pos (_ - _ + 1)) by lia.
    by rewrite !pad_two by lia.
  - unfold getUTCFullYear, YearFromTime. apply YearFromDay_range, Day_range, Hparse.
  - intros Hy. rewrite String_of_Z_pos by lia. apply digits_four. lia.
Qed.

(** The same, with the year as it is and a month from 01 to 12 and a day
    from 01 to 31. The year has its four digits exactly when it lies
    between 1000 and 9999. *)
Lemma toIsoDateOrEmpty_format s :
  match Date_of_string s with
  | None => toIsoDateOrEmpty s = []
  | Some t =>
      ∃ m d : N,
        (1 ≤ m ≤ 12)%N ∧ (1 ≤ d ≤ 31)%N ∧
        toIsoDateOrEmpty s
        = String_of_Z (getUTCFullYear t) ++ js "-" ++ two_digits m ++ js "-" ++ two_digits d ∧
        (-271822 ≤ getUTCFullYear t ≤ 275761)%Z ∧
        ((1000 ≤ getUTCFullYear t ≤ 9999)%Z →
         String_of_Z (getUTCFullYear t) = four_digits (Z.to_N (getUTCFullYear t)))
  end.
Proof.
  pose proof (toIsoDateOrEmpty_parts s) as Hf.
  destruct (Date_of_string s) as [t|]; [|done].
  destruct Hf as (Hm & Hd & Heq & Hy & Hfour).
  exists (Z.to_N (getUTCMonth t + 1)), (Z.to_N (getUTCDate t)).
  split; [lia|]. split; [lia|]. done.
Qed.

(** C10 fails for years below 1000: the year is printed without padding. *)
Theorem toIsoDateOrEmpty_does_not_pad_the_year :
  toIsoDateOrEmpty (js "0050-01-01") = js "50-01-01".
Proof. vm_compute. reflexivity. Qed.

Example toIsoDateOrEmpty_usual :
  toIsoDateOrEmpty (js "2024-02-29") = js "2024-02-29" ∧
  toIsoDateOrEmpty (js "2024-05-03T23:59:59.999Z") = js "2024-05-03" ∧
  toIsoDateOrEmpty (js "1970-01-01T00:00:00Z") = js "1970-01-01" ∧
  toIsoDateOrEmpty (js "1969-12-31") = js "1969-12-31" ∧
  toIsoDateOrEmpty (js "2000-12-31") = js "2000-12-31" ∧
  toIsoDateOrEmpty (js "1900-03-01") = js "1900-03-01" ∧
  toIsoDateOrEmpty (js "9999-12-31") = js "9999-12-31".
Proof. repeat split; vm_compute; reflexivity. Qed.

End DateFormat.

(** ** The content filter *)

Section Filter.

Implicit Types (r : regex) (s t : jsstring) (c u : N) (p q : option N).

Lemma canon_upper c : (97 ≤ c ≤ 122)%N → canon c = (c - 32)%N.
Proof.
  intros [Hlo Hhi]. unfold canon.
  apply N.leb_le in Hlo, Hhi. by rewrite Hlo, Hhi.
Qed.

Lemma canon_other c : ¬ (97 ≤ c ≤ 122)%N → canon c = c.
Proof.
  intros Hout. unfold canon.
  destruct (N.leb_spec 97 c), (N.leb_spec c 122); simpl; try done. lia.
Qed.

Lemma is_word_unit_upper c : (65 ≤ c ≤ 90)%N → is_word_unit c = true.
Proof.
  intros [Hlo Hhi]. unfold is_word_unit.
  apply N.leb_le in Hlo, Hhi. rewrite Hlo, Hhi. simpl. by rewrite orb_true_r.
Qed.

Lemma is_word_unit_lower c : (97 ≤ c ≤ 122)%N → is_word_unit c = true.
Proof.
  intros [Hlo Hhi]. unfold is_word_unit.
  apply N.leb_le in Hlo, Hhi. rewrite Hlo, Hhi. simpl. by rewrite !orb_true_r.
Qed.

(** Folding the case does not change whether a code unit is a word character. *)
Lemma is_word_unit_canon c : is_word_unit (canon c) = is_word_unit c.
Proof.
  destruct (decide (97 ≤ c ≤ 122)%N) as [Hin|Hout].
  - rewrite (canon_upper c), (is_word_unit_lower c) by done. apply is_word_unit_upper. lia.
  - by rewrite canon_other.
Qed.

Lemma is_word_canon p q : canon <$> p = canon <$> q → is_word p = is_word q.
Proof.
  destruct p as [c|], q as [u|]; simpl; try done.
  intros [= Heq]. by rewrite <- (is_word_unit_canon c), Heq, is_word_unit_canon.
Qed.

Lemma flat_map_Forall2 {A B} (R : A → A → Prop) (R' : B → B → Prop) (f g : A → list B) l k :
  (∀ x y, R x y → Forall2 R' (f x) (g y)) →
  Forall2 R l k → Forall2 R' (flat_map f l) (flat_map g k).
Proof.
  intros Hfg. induction 1 as [|x y l k Hxy Hlk IH]; simpl; [constructor|].
  apply Forall2_app; [by apply Hfg|done].
Qed.

Lemma rmatch_modulo_case r p q s t :
  canon <$> p = canon <$> q → same_modulo_case s t →
  Forall2 same_position (rmatch r p s) (rmatch r q t).
Proof.
  revert p q s t. induction r as [|c|r1 IH1 r2 IH2|r1 IH1 r2 IH2|r1 IH1|];
    intros p q s t Hpq Hst; simpl.
  - by repeat constructor.
  - destruct s as [|u s], t as [|v t]; try done.
    injection Hst as Huv Hst. rewrite Huv.
    destruct (canon v =? canon c)%N; [|constructor].
    repeat constructor; simpl; [by rewrite Huv|done].
  - eapply flat_map_Forall2; [|by apply IH1].
    intros [p1 s1] [q1 t1] [H1 H2]. by apply IH2.
  - apply Forall2_app; [by apply IH1|by apply IH2].
  - apply Forall2_app; [by apply IH1|]. by repeat constructor.
  - rewrite (is_word_canon p q Hpq).
    assert (is_word (head s) = is_word (head t)) as ->.
    { apply is_word_canon. destruct s, t; try done.
      injection Hst as Hh _. simpl. by rewrite Hh. }
    destruct (xorb _ _); by repeat constructor.
Qed.

Lemma matches_at_modulo_case r p q s t :
  canon <$> p = canon <$> q → same_modulo_case s t →
  matches_at r p s = matches_at r q t.
Proof.
  intros Hpq Hst. unfold matches_at.
  by destruct (rmatch_modulo_case r p q s t Hpq Hst).
Qed.

Lemma search_modulo_case r p q s t :
  canon <$> p = canon <$> q → same_modulo_case s t →
  search r p s = search r q t.
Proof.
  revert p q t. induction s as [|u s IH]; intros p q t Hpq Hst.
  - destruct t; [|done]. simpl. by rewrite (matches_at_modulo_case r p q [] []).
  - destruct t as [|v t]; [done|]. simpl.
    rewrite (matches_at_modulo_case r p q (u :: s) (v :: t) Hpq Hst).
    injection Hst as Huv Hst. f_equal. apply IH; [|done]. simpl. by rewrite Huv.
Qed.

(** [r.test] does not see the case of ASCII letters (flag [i]). *)
Lemma test_modulo_case r s t : same_modulo_case s t → test r s = test r t.
Proof. intros Hst. unfold test. by apply search_modulo_case. Qed.

Lemma matchesAIandHR_ok text :
  ok (matchesAIandHR text) = true ↔
  test AI_REGEX text = true ∧ test HR_REGEX text = true.
Proof. unfold matchesAIandHR. simpl. apply andb_true_iff. Qed.

Lemma matchesAIandHR_modulo_case s t :
  same_modulo_case s t → matchesAIandHR s = matchesAIandHR t.
Proof.
  intros Hst. unfold matchesAIandHR.
  by rewrite (test_modulo_case AI_REGEX s t Hst), (test_modulo_case HR_REGEX s t Hst).
Qed.

End Filter.

(** ** The monad *)

Ltac unfold_monad := unfold mret, mbind, M_ret, M_bind in *.

Section MonadLaws.

Context {W : Type}.
Implicit Types (w : world W).

Lemma wp_ret {A} (a : A) (Q : outcome A → world W → Prop) w :
  Q (Ok a) w → wp (ret a) Q w.
Proof. done. Qed.

Lemma wp_throw {A} e (Q : outcome A → world W → Prop) w :
  Q (Throw e) w → wp (throw e) Q w.
Proof. done. Qed.

Lemma wp_bind {A B} (m : M W A) (f : A → M W B) Q w :
  wp m (λ r w', match r with
                | Ok a => wp (f a) Q w'
                | Throw e => Q (Throw e) w'
                end) w →
  wp (bind m f) Q w.
Proof. unfold wp, bind. by destruct (m w) as [[a|e] w']. Qed.

Lemma wp_mono {A} (m : M W A) (Q Q' : outcome A → world W → Prop) w :
  wp m Q w → (∀ r w', Q r w' → Q' r w') → wp m Q' w.
Proof. unfold wp. auto. Qed.

Lemma wp_try_catch {A} (body : M W A) handler Q w :
  wp body (λ r w', match r with
                   | Ok a => Q (Ok a) w'
                   | Throw e => wp (handler e) Q w'
                   end) w →
  wp (try_catch body handler) Q w.
Proof. unfold wp, try_catch. by destruct (body w) as [[a|e] w']. Qed.

Lemma wp_try_finally {A} (body : M W A) fin Q w :
  wp body (λ r w', wp fin (λ r' w'', match r' with
                                      | Ok _ => Q r w''
                                      | Throw e => Q (Throw e) w''
                                      end) w') w →
  wp (try_finally body fin) Q w.
Proof.
  unfold wp, try_finally. destruct (body w) as [r w'].
  simpl. by destruct (fin w') as [[[]|e] w''].
Qed.

Lemma wp_emit ev (Q : outcome unit → world W → Prop) w :
  Q (Ok tt) (World (page w) (log w ++ [ev])) → wp (emit ev) Q w.
Proof. done. Qed.

(** A quiet computation can change the page only. *)
Lemma wp_quiet {A} (m : M W A) (Q : outcome A → world W → Prop) w :
  quiet m → (∀ r w', log w' = log w → Q r w') → wp m Q w.
Proof. intros Hq HQ. apply HQ, Hq. Qed.

Lemma wp_quiet_safe {A} (m : M W A) (Q : outcome A → world W → Prop) w :
  quiet m → safe m → (∀ a w', log w' = log w → Q (Ok a) w') → wp m Q w.
Proof.
  intros Hq Hs HQ. unfold wp. destruct (Hs w) as [a Ha]. rewrite Ha. apply HQ, Hq.
Qed.

Lemma quiet_ret {A} (a : A) : quiet (ret (W:=W) a).
Proof. done. Qed.

Lemma quiet_throw {A} e : quiet (throw (W:=W) (A:=A) e).
Proof. done. Qed.

Lemma quiet_bind {A B} (m : M W A) (f : A → M W B) :
  quiet m → (∀ a, quiet (f a)) → quiet (bind m f).
Proof.
  intros Hm Hf w. unfold bind. specialize (Hm w).
  destruct (m w) as [[a|e] w']; simpl in *; [rewrite Hf|]; done.
Qed.

Lemma quiet_try_catch {A} (body : M W A) handler :
  quiet body → (∀ e, quiet (handler e)) → quiet (try_catch body handler).
Proof.
  intros Hm Hf w. unfold try_catch. specialize (Hm w).
  destruct (body w) as [[a|e] w']; simpl in *; [|rewrite Hf]; done.
Qed.

Lemma quiet_catch_default {A} (m : M W A) v : quiet m → quiet (catch_default m v).
Proof. intros Hm. apply quiet_try_catch; [done|]. intros e. apply quiet_ret. Qed.

Lemma quiet_call {A} (op : W → outcome A * W) : quiet (call op).
Proof. intros w. unfold call. by destruct (op (page w)). Qed.

Lemma quiet_call_total (op : W → W) : quiet (call_total op).
Proof. done. Qed.

Lemma quiet_observe {A} (f : W → A) : quiet (observe f).
Proof. done. Qed.

Lemma safe_ret {A} (a : A) : safe (ret (W:=W) a).
Proof. intros w. by exists a. Qed.

Lemma safe_bind {A B} (m : M W A) (f : A → M W B) :
  safe m → (∀ a, safe (f a)) → safe (bind m f).
Proof.
  intros Hm Hf w. unfold bind. destruct (Hm w) as [a Ha].
  destruct (m w) as [r w']. simpl in Ha. subst r. apply Hf.
Qed.

(** [p.catch(() => v)] never rejects, whatever [p] does. *)
Lemma safe_catch_default {A} (m : M W A) v : safe (catch_default m v).
Proof.
  intros w. unfold catch_default, try_catch. destruct (m w) as [[a|e] w']; eauto.
Qed.

Lemma safe_call_total (op : W → W) : safe (call_total op).
Proof. intros w. by exists tt. Qed.

Lemma safe_observe {A} (f : W → A) : safe (observe f).
Proof. intros w. by eexists. Qed.





End MonadLaws.

(** Structural steps shared by the proofs that a subroutine is quiet or
    never rejects. *)
Ltac quiet_step :=
  unfold_monad;
  first
    [ apply quiet_ret | apply quiet_throw | apply quiet_call | apply quiet_call_total
    | apply quiet_observe | apply quiet_catch_default
    | apply quiet_bind; [|intros ?]
    | match goal with
      | |- quiet (if ?b then _ else _) => destruct b
      | |- quiet (match ?x with _ => _ end) => destruct x
      end
    | assumption ].

Ltac safe_step :=
  unfold_monad;
  first
    [ apply safe_ret | apply safe_catch_default | apply safe_call_total
    | apply safe_observe
    | apply safe_bind; [|intros ?]
    | match goal with
      | |- safe (if ?b then _ else _) => destruct b
      | |- safe (match ?x with _ => _ end) => destruct x
      end
    | assumption ].

(** ** Judgements on computations *)

Section Judgements.

Context {W : Type}.
Implicit Types (w : world W) (P : event → Prop).

Lemma returns_ret {A} (Q : A → Prop) a : Q a → returns (W:=W) Q (ret a).
Proof. intros HQ w a' [= <-]. done. Qed.

Lemma returns_bind {A B} (Q : A → Prop) (R : B → Prop) (m : M W A) (f : A → M W B) :
  returns Q m → (∀ a, Q a → returns R (f a)) → returns R (bind m f).
Proof.
  intros Hm Hf w b. unfold bind. specialize (Hm w).
  destruct (m w) as [[a|e] w']; [|done]. intros Hb. eapply Hf; [|exact Hb]. by apply Hm.
Qed.

Lemma returns_any {A} (m : M W A) : returns (λ _, True) m.
Proof. done. Qed.

Lemma keeps_ret {A} P (Q : A → Prop) a : Q a → keeps (W:=W) P Q (ret a).
Proof. intros HQ w Hw. split; [done|]. by intros a' [= <-]. Qed.

Lemma keeps_throw {A} P (Q : A → Prop) e : keeps (W:=W) P Q (throw e).
Proof. intros w Hw. by split. Qed.

Lemma keeps_bind {A B} P (Q : A → Prop) (R : B → Prop) (m : M W A) (f : A → M W B) :
  keeps P Q m → (∀ a, Q a → keeps P R (f a)) → keeps P R (bind m f).
Proof.
  intros Hm Hf w Hw. unfold bind. destruct (Hm w Hw) as [Hlog Hval].
  destruct (m w) as [[a|e] w']; simpl in *; [|by split].
  by apply Hf; [apply Hval|].
Qed.

Lemma keeps_weaken {A} P (Q Q' : A → Prop) (m : M W A) :
  keeps P Q m → (∀ a, Q a → Q' a) → keeps P Q' m.
Proof. intros Hm HQ w Hw. destruct (Hm w Hw) as [? Hv]. split; [done|]. eauto. Qed.

Lemma keeps_quiet {A} P (Q : A → Prop) (m : M W A) :
  quiet m → returns Q m → keeps P Q m.
Proof. intros Hq Hr w Hw. split; [by rewrite Hq|]. apply Hr. Qed.

Lemma keeps_emit P ev : P ev → keeps (W:=W) P (λ _, True) (emit ev).
Proof.
  intros Hev w Hw. split; [|done]. simpl. apply Forall_app. split; [done|].
  by constructor.
Qed.

Lemma keeps_try_catch {A} P (Q : A → Prop) (body : M W A) handler :
  keeps P Q body → (∀ e, keeps P Q (handler e)) → keeps P Q (try_catch body handler).
Proof.
  intros Hb Hh w Hw. unfold try_catch. destruct (Hb w Hw) as [Hlog Hval].
  destruct (body w) as [[a|e] w']; simpl in *; [by split|]. by apply Hh.
Qed.

Lemma keeps_try_finally {A} P (Q : A → Prop) (body : M W A) fin :
  keeps P Q body → keeps P (λ _, True) fin → keeps P Q (try_finally body fin).
Proof.
  intros Hb Hf w Hw. unfold try_finally. destruct (Hb w Hw) as [Hlog Hval].
  destruct (body w) as [r w']; simpl in *. destruct (Hf w' Hlog) as [Hlog' _].
  destruct (fin w') as [[[]|e] w'']; simpl in *; by split.
Qed.

Lemma rejects_ret {A} E (a : A) : rejects_with (W:=W) E (ret a).
Proof. by intros w e. Qed.

Lemma rejects_throw {A} (E : jsstring → Prop) e : E e → rejects_with (W:=W) (A:=A) E (throw e).
Proof. intros He w e' [= <-]. done. Qed.

Lemma rejects_safe {A} E (m : M W A) : safe m → rejects_with E m.
Proof. intros Hs w e He. destruct (Hs w) as [a Ha]. congruence. Qed.

Lemma rejects_bind {A B} E (m : M W A) (f : A → M W B) :
  rejects_with E m → (∀ a, rejects_with E (f a)) → rejects_with E (bind m f).
Proof.
  intros Hm Hf w e. unfold bind. specialize (Hm w).
  destruct (m w) as [[a|e'] w']; [apply Hf|]. simpl in *. intros [= <-]. by apply Hm.
Qed.

(** The same, when the continuation is only known to behave on the values
    the first part can return. *)
Lemma rejects_bind_returns {A B} E (Q : A → Prop) (m : M W A) (f : A → M W B) :
  returns Q m → rejects_with E m → (∀ a, Q a → rejects_with E (f a)) →
  rejects_with E (bind m f).
Proof.
  intros Hr Hm Hf w e. unfold bind. specialize (Hm w). specialize (Hr w).
  destruct (m w) as [[a|e'] w']; [by apply Hf, Hr|]. simpl in *. intros [= <-]. by apply Hm.
Qed.

Lemma rejects_try_finally {A} E (body : M W A) fin :
  rejects_with E body → rejects_with E fin → rejects_with E (try_finally body fin).
Proof.
  intros Hb Hf w e. unfold try_finally. specialize (Hb w).
  destruct (body w) as [r w']. specialize (Hf w').
  destruct (fin w') as [[[]|e'] w'']; simpl in *.
  - intros ->. by apply Hb.
  - intros [= <-]. by apply Hf.
Qed.

Lemma rejects_call {A} (op : W → outcome A * W) :
  rejects_with (λ e, ∃ p, (op p).1 = Throw e) (call op).
Proof.
  intros w e. unfold call. destruct (op (page w)) as [r p'] eqn:Hop. simpl.
  intros ->. exists (page w). by rewrite Hop.
Qed.

Lemma rejects_weaken {A} (E E' : jsstring → Prop) (m : M W A) :
  rejects_with E m → (∀ e, E e → E' e) → rejects_with E' m.
Proof. intros Hm HE w e He. eauto. Qed.

Lemma safe_try_catch {A} (body : M W A) handler :
  (∀ e, safe (handler e)) → safe (try_catch body handler).
Proof.
  intros Hh w. unfold try_catch. destruct (body w) as [[a|e] w']; [by exists a|]. apply Hh.
Qed.

Lemma safe_try_finally {A} (body : M W A) fin :
  safe body → safe fin → safe (try_finally body fin).
Proof.
  intros Hb Hf w. unfold try_finally. destruct (Hb w) as [a Ha].
  destruct (body w) as [r w']. simpl in Ha. subst r.
  destruct (Hf w') as [u Hu]. destruct (fin w') as [r' w'']. simpl in Hu. subst r'.
  destruct u. by exists a.
Qed.

Lemma safe_emit ev : safe (emit (W:=W) ev).
Proof. intros w. by exists tt. Qed.

End Judgements.

(** ** Pauses *)

Section Pauses.

Context {W Handle : Type} `{!Browser W Handle}.

Lemma pause_rejected_mono (l l' : list N) e :
  l ⊆ l' → pause_rejected l e → pause_rejected l' e.
Proof. intros Hsub (ms & p & Hms & He). exists ms, p. split; [by apply Hsub|done]. Qed.

(** An awaited pause rejects only as the timer does. *)
Lemma rejects_pause (pauses : list N) ms :
  ms ∈ pauses → rejects_with (pause_rejected pauses) (call (waitForTimeout ms)).
Proof.
  intros Hms. eapply rejects_weaken; [apply rejects_call|].
  intros e [p He]. by exists ms, p.
Qed.

End Pauses.

Ltac rejects_step :=
  unfold_monad;
  first
    [ apply rejects_ret | apply rejects_safe, safe_catch_default
    | apply rejects_safe, safe_observe
    | apply rejects_pause; compute_done
    | apply rejects_bind; [|intros ?]
    | match goal with
      | |- rejects_with _ (if ?b then _ else _) => destruct b
      | |- rejects_with _ (match ?x with _ => _ end) => destruct x
      end
    | assumption ].

(** ** The subroutines of the second engine *)

Section V2Subroutines.

Context {W Handle : Type} `{!Browser W Handle} `{!Host}.

Lemma V2_consent_loop_quiet sels : quiet (V2.consent_loop sels).
Proof. induction sels as [|sel sels IH]; simpl; repeat quiet_step. Qed.

Lemma V2_handleConsentIfPresent_quiet : quiet V2.handleConsentIfPresent.
Proof. apply V2_consent_loop_quiet. Qed.

Lemma V2_gotoWithTimeout_quiet url ms tag : quiet (V2.gotoWithTimeout url ms tag).
Proof.
  intros w. unfold V2.gotoWithTimeout.
  by destruct (goto_race_timer url ms (page w)) as [[r|] p'].
Qed.

Lemma V2_findLeftListScroller_quiet : quiet V2.findLeftListScroller.
Proof. apply quiet_call. Qed.

Lemma V2_collectLeftHrefs_quiet scroller : quiet (V2.collectLeftHrefs scroller).
Proof. unfold V2.collectLeftHrefs. repeat quiet_step. Qed.

Lemma V2_collectLeftHrefs_safe scroller : safe (V2.collectLeftHrefs scroller).
Proof. unfold V2.collectLeftHrefs. repeat safe_step. Qed.

Lemma V2_scrollLeft_quiet scroller delta : quiet (V2.scrollLeft scroller delta).
Proof. unfold V2.scrollLeft. repeat quiet_step. Qed.

Lemma V2_block_poll_quiet fuel start : quiet (V2.block_poll fuel start).
Proof.
  induction fuel as [|fuel IH]; simpl; repeat quiet_step;
    try apply V2_handleConsentIfPresent_quiet.
Qed.

Lemma V2_waitForJobsOrDetectBlock_quiet : quiet V2.waitForJobsOrDetectBlock.
Proof.
  unfold V2.waitForJobsOrDetectBlock.
  apply quiet_bind; [apply quiet_observe|]. intros start. apply V2_block_poll_quiet.
Qed.

Lemma V2_readJobPageDetails_quiet : quiet V2.readJobPageDetails.
Proof.
  unfold V2.readJobPageDetails, V2.await_header, V2.expand_description,
    V2.read_jobTitle, V2.read_company, V2.read_description, V2.read_postingDate.
  repeat quiet_step.
Qed.

End V2Subroutines.

(** ** The subroutines of the first engine *)

Section V1Subroutines.

Context {W Handle : Type} `{!Browser W Handle} `{!Host}.

Lemma V1_consent_loop_quiet sels : quiet (V1.consent_loop sels).
Proof. induction sels as [|sel sels IH]; simpl; repeat quiet_step. Qed.

Lemma V1_handleConsentIfPresent_quiet : quiet V1.handleConsentIfPresent.
Proof. apply V1_consent_loop_quiet. Qed.

Lemma V1_collectLeftHrefs_quiet scroller : quiet (V1.collectLeftHrefs scroller).
Proof. unfold V1.collectLeftHrefs. repeat quiet_step. Qed.

Lemma V1_collectLeftHrefs_safe scroller : safe (V1.collectLeftHrefs scroller).
Proof. unfold V1.collectLeftHrefs. repeat safe_step. Qed.

Lemma V1_scrollLeft_quiet scroller delta : quiet (V1.scrollLeft scroller delta).
Proof. unfold V1.scrollLeft. repeat quiet_step. Qed.

Lemma V1_links_poll_quiet fuel start : quiet (V1.links_poll fuel start).
Proof.
  induction fuel as [|fuel IH]; simpl; repeat quiet_step;
    try apply V1_handleConsentIfPresent_quiet.
Qed.

Lemma V1_waitForAnyJobLinks_quiet : quiet V1.waitForAnyJobLinks.
Proof.
  unfold V1.waitForAnyJobLinks.
  apply quiet_bind; [apply quiet_observe|]. intros start. apply V1_links_poll_quiet.
Qed.

Lemma V1_readJobPageDetails_quiet : quiet V1.readJobPageDetails.
Proof.
  unfold V1.readJobPageDetails, V1.expand_description,
    V1.read_jobTitle, V1.read_company, V1.read_description, V1.read_postingDate.
  repeat quiet_step.
Qed.

End V1Subroutines.

(** ** The detail extractor *)

Section Extractor.

Context {W Handle : Type} `{!Browser W Handle} `{!Host}.

Implicit Types (w : world W) (p : W).

Lemma or_else_nonempty a b : b ≠ [] → or_else a b ≠ [].
Proof. unfold or_else. by destruct a. Qed.






Lemma V1_read_jobTitle_safe : safe V1.read_jobTitle.
Proof. unfold V1.read_jobTitle. repeat safe_step. Qed.

Lemma V1_read_company_safe : safe V1.read_company.
Proof. unfold V1.read_company. repeat safe_step. Qed.

Lemma V1_read_description_safe : safe V1.read_description.
Proof. unfold V1.read_description. repeat safe_step. Qed.

Lemma V1_read_postingDate_safe : safe V1.read_postingDate.
Proof. unfold V1.read_postingDate. repeat safe_step. Qed.













Lemma V1_expand_description_rejects :
  rejects_with (pause_rejected [250%N]) V1.expand_description.
Proof.
  unfold V1.expand_description. repeat rejects_step.
Qed.




End Extractor.


(** One unreadable field does not cost the others: the title locator
    times out, the company, the description and the date are still read. *)
Example readJobPageDetails_without_title :
  let S := Sim.untitled_site [Sim.both_topics 1] in
  let on_job := World (Sim.open_url S (Sim.job_key 1) Sim.start) [] in
  (@V2.readJobPageDetails _ _ (Sim.browser S) Sim.host on_job).1
  = Ok {| d_jobTitle := js "LinkedIn";
          d_company := js "Acme";
          d_description := js "Build machine learning tools for our recruiting team.";
          d_postingDate := js "2024-05-03" |} ∧
  (@V1.readJobPageDetails _ _ (Sim.browser S) Sim.host on_job).1
  = Ok {| d_jobTitle := js "(unknown title)";
          d_company := js "Acme";
          d_description := js "Build machine learning tools for our recruiting team.";
          d_postingDate := js "2024-05-03" |}.
Proof. split; vm_compute; reflexivity. Qed.

(** ** Histories *)

Section Histories.

Implicit Types (h : list event) (e : event) (k : jsstring) (j : ApiJob).

Lemma marked_snoc h e :
  marked (h ++ [e]) = marked h ++ match e with EvSeen k => [k] | _ => [] end.
Proof. unfold marked. rewrite omap_app. by destruct e. Qed.

Lemma opened_snoc h e :
  opened (h ++ [e]) = opened h ++ match e with EvOpen k => [k] | _ => [] end.
Proof. unfold opened. rewrite omap_app. by destruct e. Qed.

Lemma pushed_snoc h e :
  pushed (h ++ [e]) = pushed h ++ match e with EvPush j => [j] | _ => [] end.
Proof. unfold pushed. rewrite omap_app. by destruct e. Qed.

Lemma accepted_snoc h e :
  accepted (h ++ [e])
  = accepted h ++ match e with
                  | EvExtracted k d =>
                      if ok (matchesAIandHR (haystack d))
                      then [job_of k d (d_postingDate d)] else []
                  | _ => []
                  end.
Proof.
  unfold accepted. rewrite omap_app. destruct e as [| | |k d|]; try done.
  f_equal. cbn. by destruct (ok (matchesAIandHR (haystack d))).
Qed.

Lemma elem_of_marked h k : k ∈ marked h ↔ EvSeen k ∈ h.
Proof.
  unfold marked. rewrite list_elem_of_omap. split.
  - intros (e & He & Hk). destruct e; try done. by injection Hk as ->.
  - intros He. by exists (EvSeen k).
Qed.

Lemma elem_of_opened h k : k ∈ opened h ↔ EvOpen k ∈ h.
Proof.
  unfold opened. rewrite list_elem_of_omap. split.
  - intros (e & He & Hk). destruct e; try done. by injection Hk as ->.
  - intros He. by exists (EvOpen k).
Qed.

Lemma elem_of_pushed h j : j ∈ pushed h ↔ EvPush j ∈ h.
Proof.
  unfold pushed. rewrite list_elem_of_omap. split.
  - intros (e & He & Hk). destruct e; try done. by injection Hk as ->.
  - intros He. by exists (EvPush j).
Qed.

Lemma opened_app h1 h2 : opened (h1 ++ h2) = opened h1 ++ opened h2.
Proof. apply omap_app. Qed.


Lemma marked_app h1 h2 : marked (h1 ++ h2) = marked h1 ++ marked h2.
Proof. apply omap_app. Qed.

Section Orderly.

Variable max : nat.

Lemma orderly_snoc_inv h e : orderly max (h ++ [e]) → orderly max h ∧ step_ok max h e.
Proof.
  inversion 1 as [Hnil|h' e' Hh Hstep Heq].
  - by destruct h.
  - by apply app_inj_tail in Heq as [-> ->].
Qed.

Lemma orderly_prefix h1 h2 : orderly max (h1 ++ h2) → orderly max h1.
Proof.
  induction h2 as [|e h2 IH] using rev_ind.
  - by rewrite app_nil_r.
  - rewrite app_assoc. intros [Hh _]%orderly_snoc_inv. by apply IH.
Qed.

(** Every event of an orderly history happened under its side condition. *)
Lemma orderly_at h1 e h2 : orderly max (h1 ++ e :: h2) → step_ok max h1 e.
Proof.
  intros Hord. change (e :: h2) with ([e] ++ h2) in Hord. rewrite app_assoc in Hord.
  by apply orderly_prefix, orderly_snoc_inv in Hord as [_ Hstep].
Qed.

Lemma orderly_pushed_le h : orderly max h → length (pushed h) ≤ max.
Proof.
  induction 1 as [|h e Hh IH Hstep]; simpl; [lia|].
  rewrite pushed_snoc. destruct e; rewrite ?app_nil_r; try done.
  rewrite length_app. simpl. destruct Hstep as [Hlt _]. lia.
Qed.

Lemma orderly_opened_marked h k : orderly max h → k ∈ opened h → k ∈ marked h.
Proof.
  induction 1 as [|h e Hh IH Hstep]; [by intros ?%elem_of_nil|].
  rewrite opened_snoc, marked_snoc. destruct e; rewrite ?app_nil_r; try done.
  - intros Hin. apply elem_of_app. left. by apply IH.
  - intros [Hin| ->%list_elem_of_singleton]%elem_of_app; [by apply IH|].
    by destruct Hstep.
Qed.

Lemma orderly_pushed_opened h j : orderly max h → j ∈ pushed h → link j ∈ opened h.
Proof.
  induction 1 as [|h e Hh IH Hstep]; [by intros ?%elem_of_nil|].
  rewrite opened_snoc, pushed_snoc. destruct e; rewrite ?app_nil_r; try done.
  - intros Hin. apply elem_of_app. left. by apply IH.
  - intros [Hin| ->%list_elem_of_singleton]%elem_of_app; [by apply IH|].
    by destruct Hstep as (_ & ? & _).
Qed.

Lemma orderly_NoDup_marked h : orderly max h → NoDup (marked h).
Proof.
  induction 1 as [|h e Hh IH Hstep]; [apply NoDup_nil_2|].
  rewrite marked_snoc. destruct e; rewrite ?app_nil_r; try done.
  apply NoDup_app. split_and!; [done| |apply NoDup_singleton].
  intros k' Hin ->%list_elem_of_singleton. by destruct Hstep.
Qed.

Lemma orderly_NoDup_opened h : orderly max h → NoDup (opened h).
Proof.
  induction 1 as [|h e Hh IH Hstep]; [apply NoDup_nil_2|].
  rewrite opened_snoc. destruct e; rewrite ?app_nil_r; try done.
  apply NoDup_app. split_and!; [done| |apply NoDup_singleton].
  intros k' Hin ->%list_elem_of_singleton. by destruct Hstep as (_ & ? & _).
Qed.

Lemma orderly_NoDup_links h : orderly max h → NoDup (map link (pushed h)).
Proof.
  induction 1 as [|h e Hh IH Hstep]; [apply NoDup_nil_2|].
  rewrite pushed_snoc. destruct e; rewrite ?app_nil_r; try done.
  rewrite map_app. apply NoDup_app. split_and!; [done| |apply NoDup_singleton].
  intros k' Hin ->%list_elem_of_singleton. by destruct Hstep as (_ & _ & ?).
Qed.


(** A dispatch comes after the mark of its key, and once per key. *)
Lemma orderly_dispatch h1 k h2 :
  orderly max (h1 ++ EvOpen k :: h2) →
  EvSeen k ∈ h1 ∧ (EvOpen k ∉ h1) ∧ (EvOpen k ∉ h2).
Proof.
  intros Hord. pose proof (orderly_at _ _ _ Hord) as (Hm & Ho & _).
  split_and!.
  - by apply elem_of_marked.
  - by rewrite <- elem_of_opened.
  - rewrite <- elem_of_opened. intros Hin.
    apply orderly_NoDup_opened in Hord.
    change (EvOpen k :: h2) with ([EvOpen k] ++ h2) in Hord.
    rewrite !opened_app in Hord. simpl in Hord.
    apply NoDup_app in Hord as (_ & _ & Hnd).
    apply NoDup_cons in Hnd as [Hnin _]. done.
Qed.

End Orderly.

(** A record the filter accepted matches both patterns. *)
Lemma accepted_match h j :
  j ∈ accepted h →
  test AI_REGEX (job_text j) = true ∧ test HR_REGEX (job_text j) = true.
Proof.
  unfold accepted. rewrite list_elem_of_omap. intros (e & _ & He).
  destruct e as [| | |k d|]; try done.
  destruct (ok (matchesAIandHR (haystack d))) eqn:Hok; [|done].
  injection He as <-. unfold matchesAIandHR in Hok. simpl in Hok.
  apply andb_true_iff in Hok. exact Hok.
Qed.

Lemma inv_initial max : inv max initial_state [].
Proof.
  split; [split; [constructor|done]|done|].
  intros k. simpl. split; [by intros ?%not_elem_of_empty|by intros ?%elem_of_nil].
Qed.

Lemma inv_cap max st h : inv max st h → length (jobs st) ≤ max.
Proof. intros [[Hord _] -> _]. by apply orderly_pushed_le. Qed.

Lemma inv_round max st h n : inv max st h → inv max st (h ++ [EvRound n]).
Proof.
  intros [[Hord Hacc] Hjobs Hseen]. split; [split|..].
  - by constructor.
  - by rewrite pushed_snoc, accepted_snoc, !app_nil_r.
  - by rewrite pushed_snoc, app_nil_r.
  - intros k. by rewrite marked_snoc, app_nil_r.
Qed.

(** [seen.add(jobUrl)] behind the cap check and the [seen.has] check. *)
Lemma inv_mark max st h k :
  inv max st h → k ∉ seen st → length (jobs st) < max →
  inv max (add_seen k st) (h ++ [EvSeen k]).
Proof.
  intros [[Hord Hacc] Hjobs Hseen] Hnew Hroom. split; [split|..].
  - constructor; [done|]. simpl. split; [by rewrite <- Hseen|by rewrite <- Hjobs].
  - by rewrite pushed_snoc, accepted_snoc, !app_nil_r.
  - simpl. by rewrite pushed_snoc, app_nil_r.
  - intros k'. simpl. rewrite marked_snoc, elem_of_app, elem_of_union, elem_of_singleton,
      list_elem_of_singleton, Hseen. tauto.
Qed.

Lemma inv_set_stagnation max st h n last :
  inv max st h → inv max (set_stagnation n last st) h.
Proof. by intros [Hs Hj Hseen]. Qed.

Lemma round_starts_snoc h e :
  round_starts (h ++ [e]) = round_starts h ++ match e with EvRound n => [n] | _ => [] end.
Proof. unfold round_starts. rewrite omap_app. by destruct e. Qed.

(** The three ways the visit of a freshly marked key can end: the
    navigation failed, the record was rejected, the record was pushed. *)
Section Visit.

Context (max : nat) (st : HarvestState) (h : list event) (k : jsstring).
Context (Hinv : inv max st h) (Hmarked : k ∈ marked h) (Hfresh : k ∉ opened h).
Context (Hroom : length (pushed h) < max).

Lemma orderly_open : orderly max (h ++ [EvOpen k]).
Proof. destruct Hinv as [[Hord _] _ _]. by constructor. Qed.

Lemma inv_open : inv max st (h ++ [EvOpen k]).
Proof.
  destruct Hinv as [[Hord Hacc] Hjobs Hseen]. split; [split|..].
  - apply orderly_open.
  - by rewrite pushed_snoc, accepted_snoc, !app_nil_r.
  - by rewrite pushed_snoc, app_nil_r.
  - intros k'. by rewrite marked_snoc, app_nil_r.
Qed.

Lemma inv_rejected d :
  ok (matchesAIandHR (haystack d)) = false →
  inv max st ((h ++ [EvOpen k]) ++ [EvExtracted k d]).
Proof.
  intros Hno. destruct inv_open as [[Hord Hacc] Hjobs Hseen]. split; [split|..].
  - by constructor.
  - by rewrite pushed_snoc, accepted_snoc, Hno, !app_nil_r.
  - by rewrite pushed_snoc, app_nil_r.
  - intros k'. by rewrite marked_snoc, app_nil_r.
Qed.

Lemma inv_pushed d :
  ok (matchesAIandHR (haystack d)) = true →
  inv max (push_job (job_of k d (d_postingDate d)) st)
    (((h ++ [EvOpen k]) ++ [EvExtracted k d]) ++ [EvPush (job_of k d (d_postingDate d))]).
Proof.
  intros Hyes. destruct inv_open as [[Hord Hacc] Hjobs Hseen].
  assert (orderly max ((h ++ [EvOpen k]) ++ [EvExtracted k d])) as Hord'
    by by constructor.
  split; [split|..].
  - constructor; [done|]. simpl.
    rewrite !pushed_snoc, !opened_snoc, !app_nil_r. split_and!.
    + done.
    + apply elem_of_app. right. by apply list_elem_of_singleton.
    + intros (j & Hk & Hj)%list_elem_of_fmap.
      destruct Hinv as [[Hord0 _] _ _].
      apply (orderly_pushed_opened _ _ _ Hord0) in Hj. by rewrite <- Hk in Hj.
  - rewrite !pushed_snoc, !accepted_snoc, Hyes, !app_nil_r.
    destruct Hinv as [[_ Hacc0] _ _]. by rewrite Hacc0.
  - simpl. rewrite Hjobs, !pushed_snoc, !app_nil_r. done.
  - intros k'. by rewrite !marked_snoc, !app_nil_r in *.
Qed.

End Visit.

End Histories.

(** ** The governor of the second engine *)

Ltac wp_emit := apply wp_bind, wp_emit; cbv beta iota.

Tactic Notation "wp_call" constr(Hquiet)
    "as" simple_intropattern(r) ident(w) ident(Hw) :=
  apply wp_bind, wp_quiet; [apply Hquiet|]; intros r w Hw;
  cbn [log page] in Hw; cbv beta iota.

Tactic Notation "wp_total" constr(Hquiet) constr(Hsafe)
    "as" simple_intropattern(a) ident(w) ident(Hw) :=
  apply wp_bind, wp_quiet_safe; [apply Hquiet|apply Hsafe|]; intros a w Hw;
  cbn [log page] in Hw; cbv beta iota.

Section V2Governor.

Context {W Handle : Type} `{!Browser W Handle} `{!Host}.

Implicit Types (w : world W) (st : HarvestState) (k : jsstring).

Local Abbreviation MAX := V2.MAX_RESULTS_TO_PROCESS.
Local Abbreviation THRESHOLD := V2.STAGNATION_THRESHOLD.

Lemma V2_back_to_list_quiet : quiet V2.back_to_list.
Proof.
  unfold V2.back_to_list. unfold_monad. apply quiet_bind; [|intros; apply quiet_call].
  apply quiet_catch_default, V2_gotoWithTimeout_quiet.
Qed.

(** The [try] block either rejects behind the dispatch and before any
    extraction, or extracts a record and pushes it exactly when the filter
    accepts it. *)
Lemma V2_attempt_spec k st w :
  wp (V2.attempt k st)
    (λ r w',
       match r with
       | Throw _ => log w' = log w ++ [EvOpen k]
       | Ok st' =>
           ∃ d,
             (ok (matchesAIandHR (haystack d)) = false ∧ st' = st ∧
              log w' = (log w ++ [EvOpen k]) ++ [EvExtracted k d]) ∨
             (ok (matchesAIandHR (haystack d)) = true ∧
              st' = push_job (job_of k d (d_postingDate d)) st ∧
              log w' = ((log w ++ [EvOpen k]) ++ [EvExtracted k d])
                         ++ [EvPush (job_of k d (d_postingDate d))])
       end) w.
Proof.
  unfold V2.attempt. unfold_monad.
  wp_emit.
  wp_call V2_gotoWithTimeout_quiet as [[]|e] w1 Hw1; [|done].
  wp_call (quiet_call (waitForTimeout 350)) as [[]|e] w2 Hw2; [|congruence].
  wp_call V2_readJobPageDetails_quiet as [d|e] w3 Hw3; [|congruence].
  wp_emit. cbv zeta.
  destruct (ok (matchesAIandHR (haystack d))) eqn:Hok.
  - wp_emit. apply wp_ret. exists d. right. split_and!; [done..|].
    cbn [log]. congruence.
  - apply wp_ret. exists d. left. split_and!; [done..|].
    cbn [log]. congruence.
Qed.

(** The visit of a freshly marked key leaves the history settled, however
    it ends: the navigation failed, the record was rejected, the record
    was pushed, or the pause of the [finally] block rejected. *)
Lemma V2_visit_spec k st w :
  inv MAX st (log w) → k ∈ marked (log w) → k ∉ opened (log w) →
  length (pushed (log w)) < MAX →
  wp (V2.visit k st)
    (λ r w',
       settled MAX (log w') ∧ round_starts (log w') = round_starts (log w) ∧
       ∀ st', r = Ok st' →
         inv MAX st' (log w') ∧ seen st' = seen st ∧
         stagnant st' = stagnant st ∧ lastSeen st' = lastSeen st) w.
Proof.
  intros Hinv Hmarked Hfresh Hroom. unfold V2.visit.
  apply wp_try_finally, wp_try_catch.
  eapply wp_mono; [apply V2_attempt_spec|].
  intros r w1 Hr.
  assert (∃ st', inv MAX st' (log w1) ∧ seen st' = seen st ∧
                 stagnant st' = stagnant st ∧ lastSeen st' = lastSeen st ∧
                 round_starts (log w1) = round_starts (log w) ∧
                 match r with Ok st'' => st'' = st' | Throw _ => st' = st end)
    as (st' & Hinv' & Hs & Hg & Hl & Hrounds & Hst).
  { destruct r as [st''|e].
    - destruct Hr as [d [(Hno & -> & Hlog)|(Hyes & -> & Hlog)]].
      + exists st. rewrite Hlog. split_and!; try done.
        * by apply inv_rejected.
        * by rewrite !round_starts_snoc, !app_nil_r.
      + exists (push_job (job_of k d (d_postingDate d)) st). rewrite Hlog.
        split_and!; try done.
        * by apply inv_pushed.
        * by rewrite !round_starts_snoc, !app_nil_r.
    - exists st. rewrite Hr. split_and!; try done.
      + by apply inv_open.
      + by rewrite !round_starts_snoc, !app_nil_r. }
  assert (wp V2.back_to_list
            (λ r' w'',
               settled MAX (log w'') ∧ round_starts (log w'') = round_starts (log w) ∧
               log w'' = log w1) w1) as Hback.
  { apply wp_quiet; [apply V2_back_to_list_quiet|]. intros r' w2 Hw2. rewrite Hw2.
    split; [apply Hinv'|done]. }
  destruct r as [st''|e]; cbv beta iota; [subst st''|subst st'; unfold_monad; apply wp_ret];
    (eapply wp_mono; [exact Hback|]); intros [[]|e'] w2 (Hsettled & Hr2 & Hw2);
    (split; [done|]); (split; [done|]); try done;
    intros st2 [= <-]; by rewrite Hw2.
Qed.

Lemma V2_process_hrefs_spec hrefs st w :
  inv MAX st (log w) →
  wp (V2.process_hrefs hrefs st)
    (λ r w',
       settled MAX (log w') ∧ round_starts (log w') = round_starts (log w) ∧
       ∀ st', r = Ok st' →
         inv MAX st' (log w') ∧ seen st ⊆ seen st' ∧
         stagnant st' = stagnant st ∧ lastSeen st' = lastSeen st) w.
Proof.
  revert st w. induction hrefs as [|k rest IH]; intros st w Hinv; cbn [V2.process_hrefs].
  { unfold_monad. apply wp_ret. split; [apply Hinv|]. split; [done|]. by intros st' [= <-]. }
  destruct (Nat.leb_spec MAX (length (jobs st))) as [Hfull|Hroom].
  { unfold_monad. apply wp_ret. split; [apply Hinv|]. split; [done|]. by intros st' [= <-]. }
  case_bool_decide as Hseen; [by apply IH|].
  unfold_monad. wp_emit.
  pose proof (inv_mark _ _ _ _ Hinv Hseen Hroom) as Hinv1.
  destruct Hinv as [[Hord Hacc] Hjobs Hmarks].
  apply wp_bind. eapply wp_mono; [apply V2_visit_spec; cbn [log]|].
  - exact Hinv1.
  - rewrite marked_snoc. apply elem_of_app. right. by apply list_elem_of_singleton.
  - rewrite opened_snoc, app_nil_r. intros Hin. apply Hseen, Hmarks.
    by eapply orderly_opened_marked.
  - rewrite pushed_snoc, app_nil_r. by rewrite <- Hjobs.
  - intros r w1 (Hsettled1 & Hr1 & Hok1). cbn [log] in Hr1.
    rewrite round_starts_snoc, app_nil_r in Hr1.
    destruct r as [st1|e]; cbv beta iota; [|done].
    destruct (Hok1 _ eq_refl) as (Hinv' & Hs1 & Hst1 & Hl1). simpl in Hst1, Hl1.
    eapply wp_mono; [by apply IH|].
    intros r w2 (Hsettled2 & Hr2 & Hok2). split; [done|]. split; [congruence|].
    intros st2 ->. destruct (Hok2 _ eq_refl) as (Hinv2 & Hs2 & Hst2 & Hl2).
    split_and!; [done| |congruence..].
    intros x Hx. apply Hs2. rewrite Hs1. simpl. apply elem_of_union. by right.
Qed.

(** One round. Whatever the candidates did to the seen-set, a round that
    does not end at the cap leaves the stagnation counter one higher. *)
Lemma V2_round_step_spec round st w :
  inv MAX st (log w) →
  wp (V2.round_step round st)
    (λ r w',
       settled MAX (log w') ∧
       round_starts (log w') = round_starts (log w) ++ [round] ∧
       ∀ o st', r = Ok (o, st') →
         inv MAX st' (log w') ∧
         match o with
         | Some MaxResults => MAX ≤ length (jobs st')
         | Some Stagnant => stagnant st' = S (stagnant st) ∧ THRESHOLD ≤ stagnant st'
         | Some MaxRounds => False
         | None => stagnant st' = S (stagnant st) ∧ stagnant st' < THRESHOLD
         end) w.
Proof.
  intros Hinv. unfold V2.round_step. unfold_monad.
  wp_emit.
  pose proof (inv_round _ _ _ round Hinv) as Hinv0.
  assert (∀ h, h = log w ++ [EvRound round] →
               settled MAX h ∧ round_starts h = round_starts (log w) ++ [round]) as Hidle.
  { intros h ->. split; [apply Hinv0|]. by rewrite round_starts_snoc. }
  wp_call V2_handleConsentIfPresent_quiet as [[]|e] w1 Hw1;
    [|split; [|split]; [apply Hidle; congruence..|done]].
  wp_call V2_waitForJobsOrDetectBlock_quiet as [[|]|e] w2 Hw2;
    [| |split; [|split]; [apply Hidle; congruence..|done]].
  2:{ apply wp_throw. split; [|split]; [apply Hidle; congruence..|done]. }
  wp_call V2_findLeftListScroller_quiet as [scroller|e] w3 Hw3;
    [|split; [|split]; [apply Hidle; congruence..|done]].
  wp_total V2_collectLeftHrefs_quiet V2_collectLeftHrefs_safe as hrefsRaw w4 Hw4.
  assert (log w4 = log w ++ [EvRound round]) as Hlog4 by congruence.
  apply wp_bind. eapply wp_mono; [apply V2_process_hrefs_spec; by rewrite Hlog4|].
  intros r w5 (Hsettled5 & Hr1 & Hok1).
  assert (round_starts (log w5) = round_starts (log w) ++ [round]) as Hrounds.
  { by rewrite Hr1, Hlog4, round_starts_snoc. }
  destruct r as [st1|e]; cbv beta iota; [|done].
  destruct (Hok1 _ eq_refl) as (Hinv1 & Hsub & Hst1 & Hl1).
  destruct (Nat.leb_spec MAX (length (jobs st1))) as [Hfull|Hroom].
  { apply wp_ret. split; [apply Hinv1|]. split; [done|].
    intros o st' [= <- <-]. done. }
  assert (∀ h, h = log w5 →
               settled MAX h ∧ round_starts h = round_starts (log w) ++ [round]) as Hidle5.
  { intros h ->. split; [apply Hinv1|done]. }
  cbv zeta.
  wp_call V2_findLeftListScroller_quiet as [scrollerAfter|e] w6 Hw6;
    [|split; [|split]; [apply Hidle5; congruence..|done]].
  wp_call V2_scrollLeft_quiet as [[]|e] w7 Hw7;
    [|split; [|split]; [apply Hidle5; congruence..|done]].
  wp_call V2_findLeftListScroller_quiet as [scrollerCheck|e] w8 Hw8;
    [|split; [|split]; [apply Hidle5; congruence..|done]].
  wp_total V2_collectLeftHrefs_quiet V2_collectLeftHrefs_safe as hrefsAfterRaw w9 Hw9.
  rewrite Nat.eqb_refl.
  destruct (Nat.leb_spec THRESHOLD (S (stagnant st1))) as [Hstag|Hgo];
    apply wp_ret; (split; [|split]; [apply Hidle5; congruence..|]);
    intros o st' [= <- <-]; (split; [apply inv_set_stagnation; congruence|]);
    simpl; lia.
Qed.

(** The round loop: the history stays settled, no more rounds start than
    the stagnation counter has room for, and the loop never runs out of
    rounds while the counter has not more room than rounds are left. *)
Lemma V2_rounds_spec remaining round st w :
  inv MAX st (log w) → stagnant st < THRESHOLD →
  wp (V2.rounds remaining round st)
    (λ r w',
       settled MAX (log w') ∧
       length (round_starts (log w')) + stagnant st
         ≤ length (round_starts (log w)) + THRESHOLD ∧
       ∀ reason st', r = Ok (reason, st') →
         inv MAX st' (log w') ∧
         match reason with
         | MaxResults => MAX ≤ length (jobs st')
         | Stagnant => THRESHOLD ≤ stagnant st'
         | MaxRounds => stagnant st' = stagnant st + remaining ∧ stagnant st' < THRESHOLD
         end) w.
Proof.
  revert round st w. induction remaining as [|remaining IH]; intros round st w Hinv Hlt;
    cbn [V2.rounds]; unfold_monad.
  { apply wp_ret. split; [apply Hinv|]. split; [lia|].
    intros reason st' [= <- <-]. split; [done|]. lia. }
  apply wp_bind. eapply wp_mono; [by apply V2_round_step_spec|].
  intros r w1 (Hsettled & Hrounds & Hok).
  destruct r as [[o st1]|e]; cbv beta iota.
  2:{ split; [done|]. split; [|done]. rewrite Hrounds, length_app. simpl. lia. }
  destruct (Hok o st1 eq_refl) as [Hinv1 Ho].
  destruct o as [reason|].
  - apply wp_ret. split; [done|]. split.
    { rewrite Hrounds, length_app. simpl. lia. }
    intros reason' st' [= <- <-]. split; [done|]. destruct reason; try done. lia.
  - destruct Ho as [Hinc Hlt1].
    eapply wp_mono; [by apply IH|].
    intros r w2 (Hsettled2 & Hrounds2 & Hok2). split; [done|]. split.
    { rewrite Hrounds, length_app in Hrounds2. simpl in Hrounds2. lia. }
    intros reason st' ->. destruct (Hok2 _ _ eq_refl) as [Hinv2 Hreason].
    split; [done|]. destruct reason; try done. lia.
Qed.

Lemma V2_harvest_run_spec p :
  wp V2.harvest_run
    (λ r w',
       settled MAX (log w') ∧
       length (round_starts (log w')) ≤ THRESHOLD ∧
       ∀ reason st', r = Ok (reason, st') →
         inv MAX st' (log w') ∧ reason ≠ MaxRounds) (World p []).
Proof.
  assert (settled MAX []) as Hnil by by split; [constructor|].
  assert (∀ h, h = [] → settled MAX h ∧ length (round_starts h) ≤ THRESHOLD) as Hidle.
  { intros h ->. split; [done|]. simpl. lia. }
  unfold V2.harvest_run. unfold_monad.
  wp_call V2_gotoWithTimeout_quiet as [[]|e] w1 Hw1;
    [|split; [|split]; [apply Hidle; congruence..|done]].
  wp_call V2_handleConsentIfPresent_quiet as [[]|e] w2 Hw2;
    [|split; [|split]; [apply Hidle; congruence..|done]].
  wp_call V2_waitForJobsOrDetectBlock_quiet as [[|]|e] w3 Hw3;
    [| |split; [|split]; [apply Hidle; congruence..|done]].
  2:{ apply wp_throw. split; [|split]; [apply Hidle; congruence..|done]. }
  assert (log w3 = []) as Hlog3 by congruence.
  eapply wp_mono.
  { apply V2_rounds_spec; [rewrite Hlog3; apply inv_initial|].
    unfold initial_state, V2.STAGNATION_THRESHOLD. simpl. lia. }
  intros r w4 (Hsettled & Hrounds & Hok). split; [done|]. split.
  { rewrite Hlog3 in Hrounds. simpl in Hrounds. lia. }
  intros reason st' ->. destruct (Hok _ _ eq_refl) as [Hinv Hreason].
  split; [done|]. intros ->. destruct Hreason as [Heq Hlt].
  unfold V2.MAX_SCROLL_ROUNDS, V2.STAGNATION_THRESHOLD in *. simpl in Heq. lia.
Qed.

End V2Governor.

(** ** The governor of the first engine *)

Section V1Governor.

Context {W Handle : Type} `{!Browser W Handle} `{!Host}.

Implicit Types (w : world W) (st : HarvestState) (k : jsstring).

Local Abbreviation MAX := V1.MAX_RESULTS_TO_PROCESS.
Local Abbreviation THRESHOLD := V1.STAGNATION_THRESHOLD.

Lemma V1_visit_spec k st w :
  inv MAX st (log w) → k ∈ marked (log w) → k ∉ opened (log w) →
  length (pushed (log w)) < MAX →
  wp (V1.visit k st)
    (λ r w',
       settled MAX (log w') ∧ round_starts (log w') = round_starts (log w) ∧
       ∀ st', r = Ok st' →
         inv MAX st' (log w') ∧ seen st' = seen st ∧
         stagnant st' = stagnant st ∧ lastSeen st' = lastSeen st) w.
Proof.
  intros Hinv Hmarked Hfresh Hroom. unfold V1.visit. unfold_monad.
  wp_emit.
  assert (∀ h, h = log w ++ [EvOpen k] →
               settled MAX h ∧ round_starts h = round_starts (log w)) as Hopen.
  { intros h ->. split; [by eapply inv_settled, inv_open|].
    by rewrite round_starts_snoc, app_nil_r. }
  wp_total (quiet_catch_default (call (goto k)) tt (quiet_call _))
           (safe_catch_default (call (goto k)) tt) as [] w1 Hw1.
  wp_call (quiet_call (waitForTimeout 800)) as [[]|e] w2 Hw2;
    [|split; [|split]; [apply Hopen; congruence..|done]].
  wp_call V1_readJobPageDetails_quiet as [d|e] w3 Hw3;
    [|split; [|split]; [apply Hopen; congruence..|done]].
  wp_emit. cbv zeta.
  assert (log w3 = log w ++ [EvOpen k]) as Hlog3 by congruence.
  destruct (ok (matchesAIandHR (haystack d))) eqn:Hok; cbn [negb].
  - wp_emit. apply wp_ret. cbn [log]. rewrite Hlog3.
    pose proof (inv_pushed _ _ _ _ Hinv Hmarked Hfresh Hroom d Hok) as Hinv'.
    split; [apply Hinv'|]. split; [by rewrite !round_starts_snoc, !app_nil_r|].
    by intros st' [= <-].
  - apply wp_ret. cbn [log]. rewrite Hlog3.
    pose proof (inv_rejected _ _ _ _ Hinv Hmarked Hfresh Hroom d Hok) as Hinv'.
    split; [apply Hinv'|]. split; [by rewrite !round_starts_snoc, !app_nil_r|].
    by intros st' [= <-].
Qed.

Lemma V1_process_hrefs_spec hrefs st w :
  inv MAX st (log w) →
  wp (V1.process_hrefs hrefs st)
    (λ r w',
       settled MAX (log w') ∧ round_starts (log w') = round_starts (log w) ∧
       ∀ st', r = Ok st' →
         inv MAX st' (log w') ∧ seen st ⊆ seen st' ∧
         stagnant st' = stagnant st ∧ lastSeen st' = lastSeen st) w.
Proof.
  revert st w. induction hrefs as [|k rest IH]; intros st w Hinv; cbn [V1.process_hrefs].
  { unfold_monad. apply wp_ret. split; [apply Hinv|]. split; [done|]. by intros st' [= <-]. }
  destruct (Nat.leb_spec MAX (length (jobs st))) as [Hfull|Hroom].
  { unfold_monad. apply wp_ret. split; [apply Hinv|]. split; [done|]. by intros st' [= <-]. }
  case_bool_decide as Hseen; [by apply IH|].
  unfold_monad. wp_emit.
  pose proof (inv_mark _ _ _ _ Hinv Hseen Hroom) as Hinv1.
  destruct Hinv as [[Hord Hacc] Hjobs Hmarks].
  apply wp_bind. eapply wp_mono; [apply V1_visit_spec; cbn [log]|].
  - exact Hinv1.
  - rewrite marked_snoc. apply elem_of_app. right. by apply list_elem_of_singleton.
  - rewrite opened_snoc, app_nil_r. intros Hin. apply Hseen, Hmarks.
    by eapply orderly_opened_marked.
  - rewrite pushed_snoc, app_nil_r. by rewrite <- Hjobs.
  - intros r w1 (Hsettled1 & Hr1 & Hok1). cbn [log] in Hr1.
    rewrite round_starts_snoc, app_nil_r in Hr1.
    destruct r as [st1|e]; cbv beta iota; [|done].
    destruct (Hok1 _ eq_refl) as (Hinv' & Hs1 & Hst1 & Hl1). simpl in Hst1, Hl1.
    eapply wp_mono; [by apply IH|].
    intros r w2 (Hsettled2 & Hr2 & Hok2). split; [done|]. split; [congruence|].
    intros st2 ->. destruct (Hok2 _ eq_refl) as (Hinv2 & Hs2 & Hst2 & Hl2).
    split_and!; [done| |congruence..].
    intros x Hx. apply Hs2. rewrite Hs1. simpl. apply elem_of_union. by right.
Qed.

(** One round of the first engine. When [lastSeen] is the size the
    seen-set had when the round began, a round that does not end at the
    cap resets the counter if the seen-set grew during the round and
    increments it otherwise. *)
Lemma V1_round_step_spec scroller round st w :
  inv MAX st (log w) →
  wp (V1.round_step scroller round st)
    (λ r w',
       settled MAX (log w') ∧
       round_starts (log w') = round_starts (log w) ++ [round] ∧
       ∀ o st', r = Ok (o, st') →
         inv MAX st' (log w') ∧ seen st ⊆ seen st' ∧
         match o with
         | Some MaxResults => MAX ≤ length (jobs st')
         | Some MaxRounds => False
         | _ =>
             stagnant st'
             = (if size (seen st') =? lastSeen st then S (stagnant st) else 0) ∧
             lastSeen st' = size (seen st') ∧
             (THRESHOLD ≤ stagnant st' ↔ o = Some Stagnant)
         end) w.
Proof.
  intros Hinv. unfold V1.round_step. unfold_monad.
  wp_emit.
  pose proof (inv_round _ _ _ round Hinv) as Hinv0.
  assert (∀ h, h = log w ++ [EvRound round] →
               settled MAX h ∧ round_starts h = round_starts (log w) ++ [round]) as Hidle.
  { intros h ->. split; [apply Hinv0|]. by rewrite round_starts_snoc. }
  wp_call V1_handleConsentIfPresent_quiet as [[]|e] w1 Hw1;
    [|split; [|split]; [apply Hidle; congruence..|done]].
  wp_total V1_collectLeftHrefs_quiet V1_collectLeftHrefs_safe as hrefsRaw w2 Hw2.
  assert (log w2 = log w ++ [EvRound round]) as Hlog2 by congruence.
  apply wp_bind. eapply wp_mono; [apply V1_process_hrefs_spec; by rewrite Hlog2|].
  intros r w3 (Hsettled3 & Hr1 & Hok1).
  assert (round_starts (log w3) = round_starts (log w) ++ [round]) as Hrounds.
  { by rewrite Hr1, Hlog2, round_starts_snoc. }
  destruct r as [st1|e]; cbv beta iota; [|done].
  destruct (Hok1 _ eq_refl) as (Hinv1 & Hsub & Hst1 & Hl1).
  destruct (Nat.leb_spec MAX (length (jobs st1))) as [Hfull|Hroom].
  { apply wp_ret. split; [done|]. split; [done|]. by intros o st' [= <- <-]. }
  cbv zeta. rewrite Hl1, Hst1.
  set (stagnant' := if size (seen st1) =? lastSeen st then S (stagnant st) else 0).
  destruct (Nat.leb_spec THRESHOLD stagnant') as [Hstag|Hgo].
  { apply wp_ret. split; [done|]. split; [done|]. intros o st' [= <- <-].
    split; [by apply inv_set_stagnation|]. split; [done|]. simpl. done. }
  assert (∀ h, h = log w3 →
               settled MAX h ∧ round_starts h = round_starts (log w) ++ [round]) as Hidle3.
  { by intros h ->. }
  wp_total (quiet_catch_default (call (goto SEARCH_URL)) tt (quiet_call _))
           (safe_catch_default (call (goto SEARCH_URL)) tt) as [] w4 Hw4.
  wp_call (quiet_call (waitForTimeout 800)) as [[]|e] w5 Hw5;
    [|split; [|split]; [apply Hidle3; congruence..|done]].
  wp_call V1_scrollLeft_quiet as [[]|e] w6 Hw6;
    [|split; [|split]; [apply Hidle3; congruence..|done]].
  apply wp_ret. assert (log w6 = log w3) as -> by congruence.
  split; [done|]. split; [done|]. intros o st' [= <- <-].
  split; [by apply inv_set_stagnation|]. split; [done|]. simpl.
  split_and!; [done..|]. split; [lia|done].
Qed.

(** The round loop of the first engine. *)
Lemma V1_rounds_spec scroller remaining round st w :
  inv MAX st (log w) →
  wp (V1.rounds scroller remaining round st)
    (λ r w',
       settled MAX (log w') ∧
       length (round_starts (log w')) ≤ length (round_starts (log w)) + remaining ∧
       ∀ reason st', r = Ok (reason, st') → inv MAX st' (log w')) w.
Proof.
  revert round st w. induction remaining as [|remaining IH]; intros round st w Hinv;
    cbn [V1.rounds]; unfold_monad.
  { apply wp_ret. split; [apply Hinv|]. split; [lia|]. by intros reason st' [= <- <-]. }
  apply wp_bind. eapply wp_mono; [by apply V1_round_step_spec|].
  intros r w1 (Hsettled & Hrounds & Hok).
  destruct r as [[o st1]|e]; cbv beta iota.
  2:{ split; [done|]. split; [|done]. rewrite Hrounds, length_app. simpl. lia. }
  destruct (Hok _ _ eq_refl) as (Hinv1 & _).
  destruct o as [reason|].
  - apply wp_ret. split; [done|]. split.
    { rewrite Hrounds, length_app. simpl. lia. }
    by intros reason' st' [= <- <-].
  - eapply wp_mono; [by apply IH|].
    intros r w2 (Hsettled2 & Hrounds2 & Hok2). split; [done|]. split; [|done].
    rewrite Hrounds, length_app in Hrounds2. simpl in Hrounds2. lia.
Qed.

Lemma V1_harvest_run_spec p :
  wp V1.harvest_run
    (λ r w',
       settled MAX (log w') ∧
       length (round_starts (log w')) ≤ V1.MAX_SCROLL_ROUNDS ∧
       ∀ reason st', r = Ok (reason, st') → inv MAX st' (log w')) (World p []).
Proof.
  assert (settled MAX []) as Hnil by by split; [constructor|].
  assert (∀ h, h = [] →
               settled MAX h ∧ length (round_starts h) ≤ V1.MAX_SCROLL_ROUNDS) as Hidle.
  { intros h ->. split; [done|]. simpl. lia. }
  unfold V1.harvest_run. unfold_monad.
  wp_total (quiet_call_total (W:=W)) (safe_call_total (W:=W)) as [] w0 Hw0.
  wp_call (quiet_call (goto SEARCH_URL)) as [[]|e] w1 Hw1;
    [|split; [|split]; [apply Hidle; congruence..|done]].
  wp_call V1_handleConsentIfPresent_quiet as [[]|e] w2 Hw2;
    [|split; [|split]; [apply Hidle; congruence..|done]].
  wp_call V1_waitForAnyJobLinks_quiet as [[]|e] w3 Hw3;
    [|split; [|split]; [apply Hidle; congruence..|done]].
  wp_call (quiet_call best_scored_scroller) as [scroller|e] w4 Hw4;
    [|split; [|split]; [apply Hidle; congruence..|done]].
  assert (log w4 = []) as Hlog4 by congruence.
  eapply wp_mono; [apply V1_rounds_spec; rewrite Hlog4; apply inv_initial|].
  intros r w5 (Hsettled & Hrounds & Hok). split; [done|]. split; [|done].
  rewrite Hlog4 in Hrounds. simpl in Hrounds. lia.
Qed.

End V1Governor.

(** ** The runs of both engines *)

Section Runs.

Context {W Handle : Type} `{!Browser W Handle} `{!Host}.

Implicit Types (p : W) (w : world W).

(** The hard timeout changes the outcome only, and only into the timeout
    error. *)
Lemma V2_withHardTimeout_run {A} (m : M W A) ms w :
  (V2.withHardTimeout m ms w).2 = (m w).2 ∧
  ((V2.withHardTimeout m ms w).1 = (m w).1 ∨
   (V2.withHardTimeout m ms w).1 = Throw (V2.TIMEOUT_message ms)).
Proof.
  unfold V2.withHardTimeout. destruct (m w) as [r w'].
  destruct (V2.timer_runs_first _ _); simpl; auto.
Qed.

Lemma V2_fetch_unfold w :
  V2.fetchLinkedInJobsAiHr w
  = V2.withHardTimeout V2.harvest V2.HARD_RUN_TIMEOUT_MS
      (World (setDefaultTimeout DEFAULT_TIMEOUT (page w)) (log w)).
Proof. reflexivity. Qed.

Lemma V2_harvest_spec p :
  let run := V2.harvest (World p []) in
  settled V2.MAX_RESULTS_TO_PROCESS (log run.2) ∧
  length (round_starts (log run.2)) ≤ V2.STAGNATION_THRESHOLD ∧
  ∀ jobs, run.1 = Ok jobs → jobs = pushed (log run.2).
Proof.
  pose proof (V2_harvest_run_spec p) as Hrun. unfold wp in Hrun.
  unfold V2.harvest, bind. simpl.
  destruct (V2.harvest_run (World p [])) as [[[reason st]|e] w'];
    simpl in *; destruct Hrun as (Hsettled & Hrounds & Hok).
  - split; [done|]. split; [done|]. intros jobs [= <-].
    destruct (Hok _ _ eq_refl) as [[_ Hjobs _] _]. done.
  - done.
Qed.

Lemma V2_fetch_spec p :
  let run := V2.fetchLinkedInJobsAiHr (World p []) in
  settled V2.MAX_RESULTS_TO_PROCESS (log run.2) ∧
  length (round_starts (log run.2)) ≤ V2.STAGNATION_THRESHOLD ∧
  ∀ jobs, run.1 = Ok jobs → jobs = pushed (log run.2).
Proof.
  intros run. subst run. rewrite V2_fetch_unfold. cbn [page log].
  destruct (V2_withHardTimeout_run V2.harvest V2.HARD_RUN_TIMEOUT_MS
              (World (setDefaultTimeout DEFAULT_TIMEOUT p) [])) as [-> Hout].
  destruct (V2_harvest_spec (setDefaultTimeout DEFAULT_TIMEOUT p))
    as (Hsettled & Hrounds & Hjobs).
  split; [done|]. split; [done|]. intros jobs Hok.
  destruct Hout as [Hout|Hout]; rewrite Hout in Hok; [by apply Hjobs|done].
Qed.

Lemma V1_fetch_spec p :
  let run := V1.fetchLinkedInJobsAiHr (World p []) in
  settled V1.MAX_RESULTS_TO_PROCESS (log run.2) ∧
  length (round_starts (log run.2)) ≤ V1.MAX_SCROLL_ROUNDS ∧
  ∀ jobs, run.1 = Ok jobs → jobs = pushed (log run.2).
Proof.
  pose proof (V1_harvest_run_spec p) as Hrun. unfold wp in Hrun.
  unfold V1.fetchLinkedInJobsAiHr, bind. simpl.
  destruct (V1.harvest_run (World p [])) as [[[reason st]|e] w'];
    simpl in *; destruct Hrun as (Hsettled & Hrounds & Hok).
  - split; [done|]. split; [done|]. intros jobs [= <-].
    destruct (Hok _ _ eq_refl) as [_ Hjobs _]. done.
  - done.
Qed.


Lemma settled_distinct max (run : outcome (list ApiJob) * world W) :
  settled max (log run.2) →
  (∀ jobs, run.1 = Ok jobs → jobs = pushed (log run.2)) →
  distinct_links run.
Proof.
  intros [Hord _] Hjobs. split.
  - by eapply orderly_NoDup_links.
  - intros jobs Hok. rewrite (Hjobs _ Hok). by eapply orderly_NoDup_links.
Qed.

Lemma settled_mark_before_dispatch max h : settled max h → mark_before_dispatch h.
Proof. intros [Hord _] h1 k h2 ->. by eapply orderly_dispatch. Qed.

Lemma settled_filtered max (run : outcome (list ApiJob) * world W) :
  settled max (log run.2) →
  (∀ jobs, run.1 = Ok jobs → jobs = pushed (log run.2)) →
  filtered run.
Proof.
  intros [Hord Hacc] Hjobs. split; [done|]. split.
  - intros j Hj. rewrite Hacc in Hj. by eapply accepted_match.
  - intros Hnone.
    assert (pushed (log run.2) = []) as Hnil.
    { destruct (pushed (log run.2)) as [|j js] eqn:Hp; [done|]. exfalso.
      assert (j ∈ accepted (log run.2)) as Hj by (rewrite <- Hacc; left).
      unfold accepted in Hj. apply list_elem_of_omap in Hj as (e & He & Hj).
      destruct e as [| | |k d|]; try done.
      destruct (ok (matchesAIandHR (haystack d))) eqn:Hok; [|done].
      unfold matchesAIandHR in Hok. simpl in Hok.
      apply andb_true_iff in Hok as [_ Hhr]. by rewrite (Hnone _ _ He) in Hhr. }
    split; [done|]. intros jobs Hok. by rewrite (Hjobs _ Hok).
Qed.


(** C2: in every run of either engine the links of the pushed records,
    and so of the returned records, are pairwise distinct. *)
Theorem result_links_distinct p :
  distinct_links (V2.fetchLinkedInJobsAiHr (World p [])) ∧
  distinct_links (V1.fetchLinkedInJobsAiHr (World p [])).
Proof.
  split.
  - destruct (V2_fetch_spec p) as (Hsettled & _ & Hjobs). by eapply settled_distinct.
  - destruct (V1_fetch_spec p) as (Hsettled & _ & Hjobs). by eapply settled_distinct.
Qed.

(** C3: in every run of either engine, each dispatch of a key to detail
    extraction comes after the key was added to the seen-set, and no key
    is dispatched a second time, in whatever round it shows up again. *)
Theorem seen_before_dispatch_and_never_again p :
  mark_before_dispatch (log (V2.fetchLinkedInJobsAiHr (World p [])).2) ∧
  mark_before_dispatch (log (V1.fetchLinkedInJobsAiHr (World p [])).2).
Proof.
  split.
  - destruct (V2_fetch_spec p) as (Hsettled & _). by eapply settled_mark_before_dispatch.
  - destruct (V1_fetch_spec p) as (Hsettled & _). by eapply settled_mark_before_dispatch.
Qed.

(** C6: the filter accepts a text exactly when both patterns match it; it
    does not see the case of ASCII letters; and in every run of either
    engine the pushed records are exactly the extracted records it
    accepts, so that a run whose extracted records never match the second
    pattern pushes and returns nothing. *)
Theorem content_filter_gates_results (p : W) :
  (∀ text, ok (matchesAIandHR text) = true ↔
           test AI_REGEX text = true ∧ test HR_REGEX text = true) ∧
  (∀ s t, same_modulo_case s t → matchesAIandHR s = matchesAIandHR t) ∧
  filtered (V2.fetchLinkedInJobsAiHr (World p [])) ∧
  filtered (V1.fetchLinkedInJobsAiHr (World p [])).
Proof.
  split; [apply matchesAIandHR_ok|]. split; [apply matchesAIandHR_modulo_case|]. split.
  - destruct (V2_fetch_spec p) as (Hsettled & _ & Hjobs). by eapply settled_filtered.
  - destruct (V1_fetch_spec p) as (Hsettled & _ & Hjobs). by eapply settled_filtered.
Qed.

End Runs.

(** ** The global deadline *)

Section Deadline.

Context {W Handle : Type} `{!Browser W Handle} `{!Host}.


(** X19: a harvest that settles before the deadline keeps its own outcome:
    the timer changes nothing. *)
Lemma hard_timeout_spares_timely_harvest (p : W) :
  (now (page (V2.harvest (World (setDefaultTimeout DEFAULT_TIMEOUT p) [])).2)
   < now (setDefaultTimeout DEFAULT_TIMEOUT p) + V2.HARD_RUN_TIMEOUT_MS)%N →
  (V2.fetchLinkedInJobsAiHr (World p [])).1
  = (V2.harvest (World (setDefaultTimeout DEFAULT_TIMEOUT p) [])).1.
Proof.
  intros Hearly. rewrite V2_fetch_unfold. cbn [page log].
  unfold V2.withHardTimeout. cbn [page].
  destruct (V2.harvest (World (setDefaultTimeout DEFAULT_TIMEOUT p) [])) as [r w'].
  cbn [snd] in Hearly. unfold V2.timer_runs_first.
  assert ((now (setDefaultTimeout DEFAULT_TIMEOUT p) + V2.HARD_RUN_TIMEOUT_MS
           <? now (page w'))%N = false) as -> by (apply N.ltb_ge; lia).
  assert ((now (setDefaultTimeout DEFAULT_TIMEOUT p) + V2.HARD_RUN_TIMEOUT_MS
           =? now (page w'))%N = false) as -> by (apply N.eqb_neq; lia).
  done.
Qed.

End Deadline.

(** ** The stagnation counter *)

Section Stagnation.

Context {W Handle : Type} `{!Browser W Handle} `{!Host}.

(** The second engine never starts more rounds than its stagnation
    threshold: the counter goes up in every round that does not end at
    the cap, so the loop cannot last longer. *)
Lemma V2_never_more_rounds_than_threshold (p : W) :
  length (round_starts (log (V2.fetchLinkedInJobsAiHr (World p [])).2))
  ≤ V2.STAGNATION_THRESHOLD.
Proof. by destruct (V2_fetch_spec p) as (_ & ? & _). Qed.

(** In the second engine a round that goes on, or that ends as stagnant,
    has counted one up, whether or not the seen-set grew in it. *)
Lemma V2_round_always_counts round st (w : world W) o st' w' :
  inv V2.MAX_RESULTS_TO_PROCESS st (log w) →
  V2.round_step round st w = (Ok (o, st'), w') →
  o ≠ Some MaxResults →
  stagnant st' = S (stagnant st).
Proof.
  intros Hinv Hrun Hcap.
  pose proof (V2_round_step_spec round st w Hinv) as Hspec. unfold wp in Hspec.
  rewrite Hrun in Hspec. destruct Hspec as (_ & _ & Hok).
  destruct (Hok _ _ eq_refl) as [_ Ho]. by destruct o as [[]|]; destruct_and?.
Qed.

(** X18: in the first engine, with [lastSeen] holding the size the
    seen-set had when the round began, a round that goes on or ends as
    stagnant resets the counter when the seen-set grew and counts one up
    when it did not. *)
Lemma V1_round_follows_rule scroller round st (w : world W) o st' w' :
  inv V1.MAX_RESULTS_TO_PROCESS st (log w) →
  lastSeen st = size (seen st) →
  V1.round_step scroller round st w = (Ok (o, st'), w') →
  o ≠ Some MaxResults →
  seen st ⊆ seen st' ∧
  stagnant st' = (if size (seen st') =? size (seen st) then S (stagnant st) else 0) ∧
  lastSeen st' = size (seen st').
Proof.
  intros Hinv Hlast Hrun Hcap.
  pose proof (V1_round_step_spec scroller round st w Hinv) as Hspec. unfold wp in Hspec.
  rewrite Hrun in Hspec. destruct Hspec as (_ & _ & Hok).
  destruct (Hok _ _ eq_refl) as (_ & Hsub & Ho).
  split; [done|]. rewrite <- Hlast. by destruct o as [[]|]; destruct_and?.
Qed.

End Stagnation.

(** ** Concrete runs *)

Section ConcreteRuns.

Import Sim SimRuns.

(** The cap at work: fifty matching candidates on the list, forty records
    returned, forty candidates dispatched, all in the first round. *)
Example V2_stops_at_the_cap :
  fetch_report
    (@V2.fetchLinkedInJobsAiHr _ _ (browser (static_site (map both_topics (seq 1 50))))
       host world0)
  = (Some (map job_key (seq 1 40)), [0], map job_key (seq 1 40)).
Proof. vm_compute. reflexivity. Qed.



(** Scenario A: three candidates whose pages match the first pattern
    only; all three are visited and nothing is returned. *)
Example scenario_A :
  fetch_report
    (@V2.fetchLinkedInJobsAiHr _ _ (browser (static_site [only_ai 1; only_ai 2; only_ai 3]))
       host world0)
  = (Some [], [0; 1; 2; 3; 4], [job_key 1; job_key 2; job_key 3]) ∧
  fetch_report
    (@V1.fetchLinkedInJobsAiHr _ _ (browser (static_site [only_ai 1; only_ai 2; only_ai 3]))
       host world0)
  = (Some [], [0; 1; 2; 3; 4], [job_key 1; job_key 2; job_key 3]).
Proof. split; vm_compute; reflexivity. Qed.

(** Scenario B: the first candidate matches both patterns, the second
    neither; one record, with the first candidate's key as its link. *)
Example scenario_B :
  fetch_report
    (@V2.fetchLinkedInJobsAiHr _ _ (browser (static_site [both_topics 1; neither 2]))
       host world0)
  = (Some [job_key 1], [0; 1; 2; 3; 4], [job_key 1; job_key 2]).
Proof. vm_compute. reflexivity. Qed.

(** C4 fails on the second engine. On a list that reveals one new link
    with every scroll, each of the five rounds marks a new key, and yet
    the counter stands at 5 after them and the run ends as stagnant with
    five keys seen: the counter was never reset. *)
Theorem V2_counts_growing_rounds_as_stagnant :
  report (@V2.harvest_run _ _ (browser (growing_site (map both_topics (seq 1 12))))
            host world0)
  = (Some (Stagnant, 5, 5, 5),
     [inl 0; inr (job_key 1); inl 1; inr (job_key 2); inl 2; inr (job_key 3);
      inl 3; inr (job_key 4); inl 4; inr (job_key 5)]).
Proof. vm_compute. reflexivity. Qed.

(** The first engine on the same list resets the counter in every round
    that marks a key: it goes through all twelve links and stops four
    rounds after the last new one. *)
Example V1_resets_on_growth :
  let r := @V1.harvest_run _ _ (browser (growing_site (map both_topics (seq 1 12))))
             host world0 in
  (report r).1 = Some (Stagnant, 4, 12, 12) ∧ round_starts (log r.2) = seq 0 16.
Proof. vm_compute. done. Qed.

(** On a list that never reveals a new link, the second engine stops
    after five rounds (its threshold); the first one, which resets the
    counter in the round that marks the initial links, after five rounds
    too (its threshold and one). *)
Example static_list_rounds :
  report (@V2.harvest_run _ _ (browser (static_site [neither 1; neither 2])) host world0)
  = (Some (Stagnant, 5, 2, 0),
     [inl 0; inr (job_key 1); inr (job_key 2); inl 1; inl 2; inl 3; inl 4]) ∧
  report (@V1.harvest_run _ _ (browser (static_site [neither 1; neither 2])) host world0)
  = (Some (Stagnant, 4, 2, 0),
     [inl 0; inr (job_key 1); inr (job_key 2); inl 1; inl 2; inl 3; inl 4]).
Proof. split; vm_compute; reflexivity. Qed.

End ConcreteRuns.

(** ** Text normalization *)

Section NormalizeText.

Implicit Types (s t : jsstring) (c : N).

Lemma trimStart_head s : head_ws (trimStart s) = false.
Proof.
  induction s as [|c s IH]; simpl; [done|].
  destruct (is_ws c) eqn:Hc; [done|]. simpl. done.
Qed.

Lemma trimStart_id s : head_ws s = false → trimStart s = s.
Proof. destruct s as [|c s]; simpl; [done|]. by intros ->. Qed.

Lemma trimEnd_snoc s c : trimEnd (s ++ [c]) = if is_ws c then trimEnd s else s ++ [c].
Proof.
  unfold trimEnd. rewrite rev_unit. simpl. destruct (is_ws c); [done|].
  simpl. by rewrite rev_involutive.
Qed.

Lemma trimEnd_prefix s : ∃ r, s = trimEnd s ++ r.
Proof.
  induction s as [|c s [r Hr]] using rev_ind; [by exists []|].
  rewrite trimEnd_snoc. destruct (is_ws c).
  - exists (r ++ [c]). by rewrite app_assoc, <- Hr.
  - exists []. by rewrite app_nil_r.
Qed.

Lemma trimEnd_head s : head_ws s = false → head_ws (trimEnd s) = false.
Proof.
  destruct (trimEnd_prefix s) as [r Hr]. destruct (trimEnd s) as [|c t]; [done|].
  rewrite Hr. done.
Qed.

Lemma loose_tail c s : loose (c :: s) = true → loose s = true.
Proof. simpl. by intros [_ ?]%andb_true_iff. Qed.

Lemma loose_trimStart s : loose s = true → loose (trimStart s) = true.
Proof.
  induction s as [|c s IH]; [done|]. intros Hl. simpl.
  destruct (is_ws c); [|done]. apply loose_tail in Hl. by apply IH.
Qed.

Lemma loose_init s c : loose (s ++ [c]) = true → loose s = true.
Proof.
  induction s as [|a s IH]; [done|]. simpl.
  intros [Ha Hs]%andb_true_iff. apply andb_true_iff. split; [|by apply IH].
  destruct (is_ws a); [|done]. apply andb_true_iff in Ha as [-> Hh].
  simpl. destruct s; [done|]. done.
Qed.

Lemma loose_closed s c :
  loose (s ++ [c]) = true → is_ws c = false → single_spaced (s ++ [c]) = true.
Proof.
  intros Hl Hc. induction s as [|a s IH]; simpl in *.
  - by rewrite Hc.
  - apply andb_true_iff in Hl as [Ha Hs]. apply andb_true_iff. split; [|by apply IH].
    destruct (is_ws a); [|done]. apply andb_true_iff in Ha as [-> Hh].
    simpl. destruct s; simpl in *; done.
Qed.

Lemma single_spaced_trimEnd s : loose s = true → single_spaced (trimEnd s) = true.
Proof.
  induction s as [|c s IH] using rev_ind; [done|]. intros Hl.
  rewrite trimEnd_snoc. destruct (is_ws c) eqn:Hc.
  - apply loose_init in Hl. by apply IH.
  - by apply loose_closed.
Qed.

Lemma loose_collapse b s :
  loose (collapse_ws_from b s) = true ∧
  (b = true → head_ws (collapse_ws_from b s) = false).
Proof.
  revert b. induction s as [|c s IH]; intros b; [done|]. simpl.
  destruct (is_ws c) eqn:Hc.
  - destruct b.
    + apply IH.
    + destruct (IH true) as [Hl Hh]. split; [|done]. simpl.
      rewrite Hl, (Hh eq_refl). done.
  - destruct (IH false) as [Hl _]. split; [|by simpl]. simpl. by rewrite Hc.
Qed.

Lemma tidy_normalizeText o : tidy (normalizeText o) = true.
Proof.
  unfold tidy, normalizeText, trim, collapse_ws. apply andb_true_iff. split.
  - apply negb_true_iff, trimEnd_head, trimStart_head.
  - apply single_spaced_trimEnd, loose_trimStart, loose_collapse.
Qed.

Lemma collapse_fixed b s :
  single_spaced s = true → (b = true → head_ws s = false) → collapse_ws_from b s = s.
Proof.
  revert b. induction s as [|c s IH]; intros b Hs Hb; [done|]. simpl in *.
  apply andb_true_iff in Hs as [Hc Hs]. destruct (is_ws c) eqn:Hws.
  - destruct b; [by specialize (Hb eq_refl)|].
    apply andb_true_iff in Hc as [->%N.eqb_eq Hnext]. f_equal.
    apply IH; [done|]. intros _. destruct s; [done|]. by apply negb_true_iff.
  - f_equal. by apply IH.
Qed.

Lemma single_spaced_last s c : single_spaced (s ++ [c]) = true → is_ws c = false.
Proof.
  induction s as [|a s IH]; simpl.
  - destruct (is_ws c); [|done]. by rewrite andb_false_r.
  - intros [_ ?]%andb_true_iff. by apply IH.
Qed.

Lemma trimEnd_fixed s : single_spaced s = true → trimEnd s = s.
Proof.
  destruct s as [|c s _] using rev_ind; [done|]. intros Hs.
  rewrite trimEnd_snoc. by rewrite (single_spaced_last _ _ Hs).
Qed.

Lemma normalizeText_fixed s : tidy s = true → normalizeText (Some s) = s.
Proof.
  intros [Hh Hs]%andb_true_iff. apply negb_true_iff in Hh.
  unfold normalizeText, trim, collapse_ws. simpl.
  rewrite collapse_fixed by done. rewrite trimStart_id by done. by apply trimEnd_fixed.
Qed.

Lemma filter_collapse b s :
  filter black (collapse_ws_from b s) = filter black s.
Proof.
  revert b. induction s as [|c s IH]; intros b; [done|]. simpl.
  destruct (is_ws c) eqn:Hc.
  - rewrite (filter_cons_False _ c) by (unfold black; congruence).
    destruct b; [done|]. by rewrite filter_cons_False.
  - rewrite !filter_cons_True by done. by rewrite IH.
Qed.

Lemma filter_trimStart s : filter black (trimStart s) = filter black s.
Proof.
  induction s as [|c s IH]; [done|]. simpl. destruct (is_ws c) eqn:Hc; [|done].
  by rewrite filter_cons_False by (unfold black; congruence).
Qed.

Lemma filter_trimEnd s : filter black (trimEnd s) = filter black s.
Proof.
  induction s as [|c s IH] using rev_ind; [done|].
  rewrite trimEnd_snoc. destruct (is_ws c) eqn:Hc; [|done].
  rewrite filter_app, IH. rewrite filter_cons_False by (unfold black; congruence).
  by rewrite filter_nil, app_nil_r.
Qed.

Lemma filter_normalizeText o :
  filter black (normalizeText o) = filter black (default [] o).
Proof.
  unfold normalizeText, trim, collapse_ws.
  by rewrite filter_trimEnd, filter_trimStart, filter_collapse.
Qed.

Lemma tidy_at s l1 c l2 :
  single_spaced s = true → s = l1 ++ c :: l2 → is_ws c = true →
  c = 32%N ∧ ∃ d l3, l2 = d :: l3 ∧ is_ws d = false.
Proof.
  intros Hs -> Hc. induction l1 as [|a l1 IH]; simpl in Hs.
  - rewrite Hc in Hs. apply andb_true_iff in Hs as [[->%N.eqb_eq Hn]%andb_true_iff _].
    split; [done|]. destruct l2 as [|d l3]; [done|]. exists d, l3. split; [done|].
    by apply negb_true_iff.
  - apply andb_true_iff in Hs as [_ Hs]. by apply IH.
Qed.

(** X1: [normalizeText] is idempotent: normalizing a normalized text
    changes nothing. *)
Theorem normalizeText_idempotent o :
  normalizeText (Some (normalizeText o)) = normalizeText o.
Proof. apply normalizeText_fixed, tidy_normalizeText. Qed.

(** X2: what [normalizeText] returns does not begin with white space;
    each of its white-space units is a U+0020 that is followed by a unit
    that is not white space; its other units are those of the input, in
    their order; and it is empty exactly when the input is [null] or
    white space only. *)
Theorem normalizeText_shape o :
  (∀ c, head (normalizeText o) = Some c → is_ws c = false) ∧
  (∀ l1 c l2, normalizeText o = l1 ++ c :: l2 → is_ws c = true →
     c = 32%N ∧ ∃ d l3, l2 = d :: l3 ∧ is_ws d = false) ∧
  filter black (normalizeText o) = filter black (default [] o) ∧
  (normalizeText o = [] ↔ Forall (λ c, is_ws c = true) (default [] o)).
Proof.
  pose proof (tidy_normalizeText o) as [Hh Hs]%andb_true_iff.
  apply negb_true_iff in Hh. split_and!.
  - intros c Hc. destruct (normalizeText o); [done|]. by injection Hc as ->.
  - intros l1 c l2. by apply tidy_at.
  - apply filter_normalizeText.
  - pose proof (filter_normalizeText o) as Hf. revert Hh Hf.
    generalize (normalizeText o) (default [] o). intros t s Ht Hf. split.
    + intros ->. rewrite filter_nil in Hf. symmetry in Hf.
      apply Forall_forall. intros c Hc.
      destruct (is_ws c) eqn:Hws; [done|]. exfalso.
      assert (c ∈ filter black s) as Hin by by apply list_elem_of_filter.
      rewrite Hf in Hin. by apply elem_of_nil in Hin.
    + intros Hall. destruct t as [|c t]; [done|]. exfalso. simpl in Ht.
      rewrite filter_cons_True in Hf by done.
      assert (c ∈ filter black s) as Hin by (rewrite <- Hf; left).
      apply list_elem_of_filter in Hin as [Hb Hin].
      rewrite Forall_forall in Hall. apply Hall in Hin. unfold black in Hb. congruence.
Qed.

End NormalizeText.

(** ** Dates in the mandatory format *)

Ltac nlia := zify; Z.to_euclidean_division_equations; lia.

Section DateRoundTrip.

Context `{!Host}.

#[local] Open Scope Z_scope.

Lemma DayFromYear_mono a b : a <= b → DayFromYear a <= DayFromYear b.
Proof. unfold DayFromYear. intros Hab. zlia. Qed.

Lemma YearFromDay_unique d y :
  -100000001 <= d <= 100000001 →
  DayFromYear y <= d < DayFromYear (y + 1) → YearFromDay d = y.
Proof.
  intros Hd [Hlo Hhi]. pose proof (YearFromDay_spec d Hd) as [Hlo' Hhi'].
  destruct (Z.lt_trichotomy (YearFromDay d) y) as [Hlt|[Heq|Hgt]]; [|done|].
  - pose proof (DayFromYear_mono (YearFromDay d + 1) y). lia.
  - pose proof (DayFromYear_mono (y + 1) (YearFromDay d)). lia.
Qed.

Lemma digit_val_digit (q : N) : (q < 10)%N → digit_val (48 + q) = Some (Z.of_N q).
Proof.
  intros Hq. unfold digit_val.
  assert ((48 <=? 48 + q)%N = true) as -> by (apply N.leb_le; lia).
  assert ((48 + q <=? 57)%N = true) as -> by (apply N.leb_le; lia).
  simpl. f_equal. lia.
Qed.

Lemma number_of_two (n : N) : (n < 100)%N → number_of (two_digits n) = Some (Z.of_N n).
Proof.
  intros Hn. unfold number_of, two_digits. cbn [number_from].
  rewrite !digit_val_digit.
  - f_equal. nlia.
  - nlia.
  - nlia.
Qed.

Lemma number_of_four (n : N) : (n < 10000)%N → number_of (four_digits n) = Some (Z.of_N n).
Proof.
  intros Hn. unfold number_of, four_digits. cbn [number_from].
  rewrite !digit_val_digit.
  - f_equal. nlia.
  - nlia.
  - nlia.
  - nlia.
  - nlia.
Qed.

Lemma MonthFromDay_monthStart leap m d :
  0 <= leap <= 1 → 0 <= m <= 11 →
  1 <= d <= (if m =? 11 then 31 else monthStart leap (m + 1) - monthStart leap m) →
  MonthFromDay leap (monthStart leap m + d - 1) = m.
Proof.
  intros Hleap Hm Hd.
  assert (m = 0 ∨ m = 1 ∨ m = 2 ∨ m = 3 ∨ m = 4 ∨ m = 5 ∨ m = 6 ∨ m = 7 ∨ m = 8 ∨
          m = 9 ∨ m = 10 ∨ m = 11) as Hcases by lia.
  unfold MonthFromDay.
  repeat destruct Hcases as [->|Hcases]; try subst m; simpl in Hd; cbn [monthStart];
    repeat match goal with
           | |- context [if ?a <? ?b then _ else _] => destruct (Z.ltb_spec a b)
           end; lia.
Qed.

Lemma monthStart_range leap m d :
  0 <= leap <= 1 → 0 <= m <= 11 →
  1 <= d <= (if m =? 11 then 31 else monthStart leap (m + 1) - monthStart leap m) →
  0 <= monthStart leap m + d - 1 < 365 + leap.
Proof.
  intros Hleap Hm Hd.
  assert (m = 0 ∨ m = 1 ∨ m = 2 ∨ m = 3 ∨ m = 4 ∨ m = 5 ∨ m = 6 ∨ m = 7 ∨ m = 8 ∨
          m = 9 ∨ m = 10 ∨ m = 11) as Hcases by lia.
  repeat destruct Hcases as [->|Hcases]; try subst m; simpl in Hd; cbn [monthStart]; lia.
Qed.

(** A calendar date and a time of day, put together and taken apart. *)
Lemma date_fields y m d ms :
  0 <= y <= 9999 → 0 <= m <= 11 → 1 <= d <= DaysInMonth y m → 0 <= ms < msPerDay →
  let t := msPerDay * MakeDay y m d + ms in
  Z.abs t <= maxTime ∧ getUTCFullYear t = y ∧ getUTCMonth t = m ∧ getUTCDate t = d.
Proof.
  intros Hy Hm Hd Hms t. unfold DaysInMonth in Hd.
  set (leap := if isLeapYear y then 1 else 0) in *.
  assert (0 <= leap <= 1) as Hleap by (unfold leap; destruct (isLeapYear y); lia).
  pose proof (monthStart_range leap m d Hleap Hm Hd) as Hwithin.
  assert (Day t = MakeDay y m d) as HDay.
  { unfold Day, t. unfold msPerDay in *. zlia. }
  assert (DayFromYear y <= MakeDay y m d < DayFromYear (y + 1)) as Hyear.
  { rewrite DayFromYear_succ. unfold MakeDay, DaysInYear. fold leap.
    unfold leap in *. destruct (isLeapYear y); lia. }
  assert (-719528 <= MakeDay y m d <= 2932897) as Hrange.
  { pose proof (DayFromYear_mono 0 y). pose proof (DayFromYear_mono (y + 1) 10000).
    change (DayFromYear 0) with (-719528) in *.
    change (DayFromYear 10000) with 2932897 in *. lia. }
  assert (YearFromTime t = y) as HY.
  { unfold YearFromTime. rewrite HDay. apply YearFromDay_unique; [lia|done]. }
  assert (InLeapYear t = leap) as HL by (unfold InLeapYear; by rewrite HY).
  assert (DayWithinYear t = monthStart leap m + d - 1) as HW.
  { unfold DayWithinYear. rewrite HY, HDay. unfold MakeDay. fold leap. lia. }
  assert (MonthFromTime t = m) as HM.
  { unfold MonthFromTime. rewrite HL, HW. by apply MonthFromDay_monthStart. }
  split_and!.
  - unfold t, msPerDay, maxTime in *. lia.
  - done.
  - done.
  - unfold getUTCDate, DateFromTime. rewrite HW, HL, HM. lia.
Qed.

Lemma number_from_bounds ds : ∀ acc v,
  0 <= acc → number_from acc ds = Some v →
  acc * 10 ^ Z.of_nat (length ds) <= v < (acc + 1) * 10 ^ Z.of_nat (length ds).
Proof.
  induction ds as [|c ds IH]; intros acc v Hacc; simpl.
  - intros [= <-]. lia.
  - unfold digit_val. destruct ((48 <=? c)%N && (c <=? 57)%N) eqn:Hc; [|done].
    apply andb_true_iff in Hc as [?%N.leb_le ?%N.leb_le].
    intros Hv. apply IH in Hv; [|lia].
    replace (Z.of_nat (S (length ds))) with (1 + Z.of_nat (length ds)) by lia.
    rewrite Z.pow_add_r by lia. change (10 ^ 1) with 10.
    assert (0 < 10 ^ Z.of_nat (length ds)) by (apply Z.pow_pos_nonneg; lia).
    nia.
Qed.

Lemma hms_bounds h m s ms v :
  (if (h <? 24) && (m <? 60) && (s <? 60)
   then Some (((h * 60 + m) * 60 + s) * 1000 + ms) else None) = Some v →
  0 <= h → 0 <= m → 0 <= s → 0 <= ms < 1000 → 0 <= v < msPerDay.
Proof.
  destruct (Z.ltb_spec h 24), (Z.ltb_spec m 60), (Z.ltb_spec s 60); simpl; try done.
  intros [= <-]. unfold msPerDay. lia.
Qed.

Lemma number_of_nonneg ds v : number_of ds = Some v → 0 <= v < 10 ^ Z.of_nat (length ds).
Proof. intros Hv. apply number_from_bounds in Hv; lia. Qed.

Lemma parse_utc_time_bounds tod ms : parse_utc_time tod = Some ms → 0 <= ms < msPerDay.
Proof.
  unfold parse_utc_time. cbv zeta.
  repeat match goal with
         | |- context [match ?x with _ => _ end] => is_var x; destruct x; cbv beta iota; try done
         end.
  all: repeat match goal with
         | |- context [match number_of ?l with _ => _ end] =>
             let H := fresh "Hn" in
             destruct (number_of l) eqn:H; [apply number_of_nonneg in H; simpl in H|done]
         end.
  all: intros Hv; apply hms_bounds in Hv; lia.
Qed.

Lemma DaysInMonth_range y m : 0 <= m <= 11 → 28 <= DaysInMonth y m <= 31.
Proof.
  intros Hm. unfold DaysInMonth.
  assert (m = 0 ∨ m = 1 ∨ m = 2 ∨ m = 3 ∨ m = 4 ∨ m = 5 ∨ m = 6 ∨ m = 7 ∨ m = 8 ∨
          m = 9 ∨ m = 10 ∨ m = 11) as Hcases by lia.
  repeat destruct Hcases as [->|Hcases]; try subst m; simpl;
    destruct (isLeapYear y); simpl; lia.
Qed.

Lemma parse_iso_date y m d rest :
  0 <= y <= 9999 → 1 <= m <= 12 → 1 <= d <= DaysInMonth y (m - 1) →
  parse_iso (iso_date y m d ++ rest)
  = match rest with
    | [] => Some (msPerDay * MakeDay y (m - 1) d)
    | (84 :: tod)%N =>
        match parse_utc_time tod with
        | Some ms => Some (msPerDay * MakeDay y (m - 1) d + ms)
        | None => None
        end
    | _ => None
    end.
Proof.
  intros Hy Hm Hd.
  pose proof (DaysInMonth_range y (m - 1)) as Hdim.
  unfold iso_date. change (js "-") with [45%N].
  unfold parse_iso, four_digits, two_digits. cbn [app].
  change [48 + Z.to_N y / 1000; 48 + (Z.to_N y / 100) mod 10;
          48 + (Z.to_N y / 10) mod 10; 48 + Z.to_N y mod 10]%N with (four_digits (Z.to_N y)).
  change [48 + Z.to_N m / 10; 48 + Z.to_N m mod 10]%N with (two_digits (Z.to_N m)).
  change [48 + Z.to_N d / 10; 48 + Z.to_N d mod 10]%N with (two_digits (Z.to_N d)).
  rewrite number_of_four, !number_of_two by lia.
  rewrite !Z2N.id by lia.
  assert ((1 <=? m) && (m <=? 12) && (1 <=? d) && (d <=? DaysInMonth y (m - 1)) = true) as ->.
  { rewrite !andb_true_iff, !Z.leb_le. lia. }
  done.
Qed.

(** X6: a calendar date of a year from 1000 to 9999, written as
    [YYYY-MM-DD], comes back from [toIsoDateOrEmpty] unchanged, on every
    host; followed by [T] and a UTC time of day it comes back without the
    time. *)
Theorem toIsoDateOrEmpty_iso_round_trip y m d :
  1000 <= y <= 9999 → 1 <= m <= 12 → 1 <= d <= DaysInMonth y (m - 1) →
  toIsoDateOrEmpty (iso_date y m d) = iso_date y m d ∧
  ∀ tod ms, parse_utc_time tod = Some ms →
    toIsoDateOrEmpty (iso_date y m d ++ [84%N] ++ tod) = iso_date y m d.
Proof.
  intros Hy Hm Hd. pose proof (DaysInMonth_range y (m - 1)) as Hdim.
  assert (∀ rest ms, 0 <= ms < msPerDay →
            parse_iso (iso_date y m d ++ rest) = Some (msPerDay * MakeDay y (m - 1) d + ms) →
            toIsoDateOrEmpty (iso_date y m d ++ rest) = iso_date y m d) as Hgen.
  { intros rest ms Hms Hparse.
    destruct (date_fields y (m - 1) d ms) as (Hclip & HY & HM & HD); [lia..|].
    unfold toIsoDateOrEmpty, Date_of_string, Date_parse.
    assert (∃ c s, iso_date y m d ++ rest = c :: s) as (c & s & Heq)
      by (unfold iso_date, four_digits; cbn [app]; eauto).
    rewrite Heq in *. rewrite Hparse. unfold TimeClip.
    apply Z.leb_le in Hclip. rewrite Hclip. rewrite HY, HM, HD.
    rewrite !String_of_Z_pos by lia. rewrite digits_four by lia.
    rewrite !pad_two by lia. unfold iso_date. by replace (m - 1 + 1) with m by lia. }
  split.
  - rewrite <- (app_nil_r (iso_date y m d)). apply (Hgen [] 0); [unfold msPerDay; lia|].
    rewrite parse_iso_date by lia. by rewrite Z.add_0_r.
  - intros tod ms Htod. apply (Hgen _ ms); [by apply (parse_utc_time_bounds tod)|].
    rewrite parse_iso_date by lia. cbn [app]. by rewrite Htod.
Qed.

End DateRoundTrip.

(** ** The content filter, field by field *)

Section Fields.

Implicit Types (r : regex) (s t rest : jsstring) (c u sep : N) (p q : option N).

Lemma separates_seq sep r1 r2 :
  separates sep (RSeq r1 r2) = true → separates sep r1 = true ∧ separates sep r2 = true.
Proof.
  unfold separates. simpl. rewrite forallb_app, !andb_true_iff. tauto.
Qed.

Lemma separates_alt sep r1 r2 :
  separates sep (RAlt r1 r2) = true → separates sep r1 = true ∧ separates sep r2 = true.
Proof.
  unfold separates. simpl. rewrite forallb_app, !andb_true_iff. tauto.
Qed.

Lemma flat_map_fmap {A B C} (f : A → list B) (g : C → A) (l : list C) :
  flat_map f (map g l) = flat_map (λ x, f (g x)) l.
Proof. induction l as [|x l IH]; simpl; [done|]. by rewrite IH. Qed.

Lemma fmap_flat_map {A B C} (f : A → list B) (g : B → C) (l : list A) :
  map g (flat_map f l) = flat_map (λ x, map g (f x)) l.
Proof. induction l as [|x l IH]; simpl; [done|]. by rewrite map_app, IH. Qed.

Lemma flat_map_ext' {A B} (f g : A → list B) (l : list A) :
  (∀ x, f x = g x) → flat_map f l = flat_map g l.
Proof. intros Hfg. induction l as [|x l IH]; simpl; [done|]. by rewrite Hfg, IH. Qed.

(** Matching before a separator goes as matching before the end. *)
Lemma rmatch_before_separator r sep rest p s :
  separates sep r = true →
  rmatch r p (s ++ sep :: rest)
  = map (λ x, (x.1, x.2 ++ sep :: rest)) (rmatch r p s).
Proof.
  revert p s. induction r as [|c|r1 IH1 r2 IH2|r1 IH1 r2 IH2|r1 IH1|]; intros p s Hsep; simpl.
  - done.
  - destruct s as [|u s]; simpl.
    + unfold separates in Hsep. simpl in Hsep.
      apply andb_true_iff in Hsep as [_ Hc]. rewrite andb_true_r in Hc.
      apply negb_true_iff in Hc. by rewrite Hc.
    + by destruct (canon u =? canon c)%N.
  - apply separates_seq in Hsep as [H1 H2]. rewrite IH1 by done.
    rewrite flat_map_fmap, fmap_flat_map. apply flat_map_ext'. intros [p1 s1]. simpl.
    by apply IH2.
  - apply separates_alt in Hsep as [H1 H2]. by rewrite map_app, IH1, IH2.
  - rewrite map_app, IH1 by done. done.
  - assert (is_word (head (s ++ sep :: rest)) = is_word (head s)) as ->.
    { destruct s; [|done]. simpl. unfold separates in Hsep.
      apply andb_true_iff in Hsep as [Hw _]. by apply negb_true_iff in Hw. }
    by destruct (xorb _ _).
Qed.

Lemma matches_at_before_separator r sep rest p s :
  separates sep r = true → matches_at r p (s ++ sep :: rest) = matches_at r p s.
Proof.
  intros Hsep. unfold matches_at. rewrite rmatch_before_separator by done.
  by destruct (rmatch r p s).
Qed.

(** Only whether the unit before the subject is a word character matters. *)
Lemma rmatch_prev r p q s :
  is_word p = is_word q →
  Forall2 (λ x y, is_word x.1 = is_word y.1 ∧ x.2 = y.2) (rmatch r p s) (rmatch r q s).
Proof.
  revert p q s. induction r as [|c|r1 IH1 r2 IH2|r1 IH1 r2 IH2|r1 IH1|];
    intros p q s Hpq; simpl.
  - by repeat constructor.
  - destruct s as [|u s]; [constructor|].
    destruct (canon u =? canon c)%N; by repeat constructor.
  - eapply flat_map_Forall2; [|by apply IH1].
    intros [p1 s1] [q1 t1] [H1 H2]. simpl in *. subst t1. by apply IH2.
  - apply Forall2_app; [by apply IH1|by apply IH2].
  - apply Forall2_app; [by apply IH1|]. by repeat constructor.
  - rewrite Hpq. destruct (xorb _ _); by repeat constructor.
Qed.

Lemma matches_at_prev r p q s : is_word p = is_word q → matches_at r p s = matches_at r q s.
Proof. intros Hpq. unfold matches_at. by destruct (rmatch_prev r p q s Hpq). Qed.

Lemma search_prev r p q s : is_word p = is_word q → search r p s = search r q s.
Proof. intros Hpq. destruct s; simpl; by rewrite (matches_at_prev r p q). Qed.

Lemma search_across_separator r sep rest p s :
  separates sep r = true →
  search r p (s ++ sep :: rest) = search r p s || search r None rest.
Proof.
  intros Hsep. revert p. induction s as [|u s IH]; intros p.
  - change ([] ++ sep :: rest) with (sep :: rest). cbn [search].
    rewrite <- (matches_at_before_separator r sep rest p []) by done.
    rewrite orb_false_r. f_equal. apply search_prev. simpl.
    unfold separates in Hsep. apply andb_true_iff in Hsep as [Hw _].
    by apply negb_true_iff in Hw.
  - change ((u :: s) ++ sep :: rest) with (u :: (s ++ sep :: rest)). cbn [search].
    rewrite IH, orb_assoc. f_equal. f_equal.
    change (u :: s ++ sep :: rest) with ((u :: s) ++ sep :: rest).
    by apply matches_at_before_separator.
Qed.

Lemma test_across_separator r sep s rest :
  separates sep r = true → test r (s ++ sep :: rest) = test r s || test r rest.
Proof. apply search_across_separator. Qed.

(** X7: the content filter looks at the three fields one by one: over
    title, company and description joined by line feeds, a pattern
    matches exactly when it matches one of the three fields; no match
    spans two fields. *)
Theorem matchesAIandHR_field_by_field d :
  ai (matchesAIandHR (haystack d))
  = test AI_REGEX (d_jobTitle d) || test AI_REGEX (d_company d)
    || test AI_REGEX (d_description d) ∧
  hr (matchesAIandHR (haystack d))
  = test HR_REGEX (d_jobTitle d) || test HR_REGEX (d_company d)
    || test HR_REGEX (d_description d) ∧
  ok (matchesAIandHR (haystack d))
  = ai (matchesAIandHR (haystack d)) && hr (matchesAIandHR (haystack d)).
Proof.
  assert (∀ r, separates LINE_FEED r = true →
            test r (haystack d)
            = test r (d_jobTitle d) || test r (d_company d) || test r (d_description d))
    as Hfields.
  { intros r Hr. unfold haystack. cbn [app].
    change 10%N with LINE_FEED.
    by rewrite !test_across_separator, orb_assoc. }
  unfold matchesAIandHR. cbn [ai hr ok].
  rewrite !Hfields by (vm_compute; reflexivity). done.
Qed.

End Fields.

(** ** What every record looks like *)

Section Records.

Implicit Types (k s t : jsstring) (d : Details) (j : ApiJob).

Lemma key_ok_facts k :
  key_ok k → k ≠ [] ∧ (QUESTION_MARK ∉ k) ∧ startsWith k (js "/") = false.
Proof.
  intros [Hne [href Hk]]. split; [done|]. split; [by eapply key_no_query|].
  apply key_not_relative in Hk. unfold absolutize in Hk.
  destruct (startsWith k (js "/")) eqn:Hrel; [|done].
  exfalso. apply (f_equal length) in Hk. rewrite length_app in Hk.
  unfold LINKEDIN_ORIGIN in Hk. simpl in Hk. lia.
Qed.

Lemma canonical_hrefs_spec hrefsRaw k :
  k ∈ canonical_hrefs hrefsRaw ↔
  k ≠ [] ∧ ∃ h, h ∈ hrefsRaw ∧ normalizeJobUrl (trim h) = Some k.
Proof.
  unfold canonical_hrefs. rewrite list_elem_of_filter, list_elem_of_omap. split.
  - intros [Hk (h & Hh & Hn)]. split; [by destruct k|].
    apply list_elem_of_filter in Hh as [_ Hh]. apply list_elem_of_fmap in Hh as (h0 & -> & Hh0).
    by exists h0.
  - intros [Hk (h & Hh & Hn)]. split; [by destruct k|].
    exists (trim h). split; [|done]. apply list_elem_of_filter. split.
    + destruct (trim h); [done|done].
    + apply list_elem_of_fmap. by exists h.
Qed.

Lemma canonical_hrefs_keys hrefsRaw : Forall key_ok (canonical_hrefs hrefsRaw).
Proof.
  apply Forall_forall. intros k (Hk & h & _ & Hn)%canonical_hrefs_spec.
  split; [done|]. by exists (trim h).
Qed.

Lemma text_ok_normalizeText o : text_ok (normalizeText o).
Proof. apply normalizeText_fixed, tidy_normalizeText. Qed.

Lemma text_ok_or_else a b : text_ok a → text_ok b → text_ok (or_else a b).
Proof. unfold or_else. by destruct (truthy a). Qed.

Lemma date_ok_toIsoDateOrEmpty `{!Host} s : date_ok (toIsoDateOrEmpty s).
Proof.
  pose proof (toIsoDateOrEmpty_format s) as Hf.
  destruct (Date_of_string s) as [t|]; [|by left].
  destruct Hf as (m & d & Hm & Hd & -> & Hy & _). right.
  by exists (getUTCFullYear t), m, d.
Qed.

Lemma job_ok_of k d : key_ok k → details_ok d → job_ok (job_of k d (d_postingDate d)).
Proof. intros Hk (? & ? & ? & ? & ? & ?). by split_and!. Qed.

End Records.

Ltac keeps_quietly H := apply keeps_quiet; [apply H|apply returns_any].

Section V2Records.

Context {W Handle : Type} `{!Browser W Handle} `{!Host}.

Implicit Types (w : world W) (st : HarvestState) (k : jsstring).

Lemma V2_read_jobTitle_returns :
  returns (λ t, t ≠ [] ∧ text_ok t) V2.read_jobTitle.
Proof.
  unfold V2.read_jobTitle. eapply returns_bind; [apply returns_any|]. intros titleText _.
  destruct (truthy (normalizeText titleText)) eqn:Ht.
  - apply returns_ret. split; [by destruct (normalizeText titleText)|].
    apply text_ok_normalizeText.
  - eapply returns_bind; [apply returns_any|]. intros pageTitle _.
    apply returns_ret. split; [by apply or_else_nonempty|].
    apply text_ok_or_else; [apply text_ok_normalizeText|reflexivity].
Qed.

Lemma V2_read_company_returns :
  returns (λ c, c ≠ [] ∧ text_ok c) V2.read_company.
Proof.
  unfold V2.read_company. eapply returns_bind; [apply returns_any|]. intros companyText _.
  apply returns_ret. split; [by apply or_else_nonempty|].
  apply text_ok_or_else; [apply text_ok_normalizeText|reflexivity].
Qed.

Lemma V2_read_description_returns : returns text_ok V2.read_description.
Proof.
  unfold V2.read_description. eapply returns_bind; [apply returns_any|]. intros descText _.
  cbv zeta. destruct (_ || _).
  - eapply returns_bind; [apply returns_any|]. intros rootText _.
    apply returns_ret, text_ok_normalizeText.
  - apply returns_ret, text_ok_normalizeText.
Qed.

Lemma V2_read_postingDate_returns : returns date_ok V2.read_postingDate.
Proof.
  unfold V2.read_postingDate. eapply returns_bind; [apply returns_any|]. intros datetime _.
  apply returns_ret. destruct datetime as [dt|]; [|by left].
  destruct (truthy dt); [apply date_ok_toIsoDateOrEmpty|by left].
Qed.

Lemma V2_readJobPageDetails_returns : returns details_ok V2.readJobPageDetails.
Proof.
  unfold V2.readJobPageDetails. unfold_monad.
  eapply returns_bind; [apply returns_any|]. intros _ _.
  eapply returns_bind; [apply returns_any|]. intros _ _.
  eapply returns_bind; [apply V2_read_jobTitle_returns|]. intros t [Ht1 Ht2].
  eapply returns_bind; [apply V2_read_company_returns|]. intros c [Hc1 Hc2].
  eapply returns_bind; [apply V2_read_description_returns|]. intros d Hd.
  eapply returns_bind; [apply V2_read_postingDate_returns|]. intros pd Hpd.
  apply returns_ret. by split_and!.
Qed.

Lemma V2_attempt_keeps k st :
  key_ok k → keeps event_ok (λ _, True) (V2.attempt k st).
Proof.
  intros Hk. unfold V2.attempt. unfold_monad.
  eapply keeps_bind; [by apply keeps_emit|]. intros _ _.
  eapply keeps_bind; [keeps_quietly V2_gotoWithTimeout_quiet|]. intros _ _.
  eapply keeps_bind; [keeps_quietly (quiet_call (waitForTimeout 350))|]. intros _ _.
  eapply keeps_bind.
  { apply keeps_quiet; [apply V2_readJobPageDetails_quiet|apply V2_readJobPageDetails_returns]. }
  intros d Hd.
  eapply keeps_bind; [by apply keeps_emit|]. intros _ _. cbv zeta.
  destruct (ok _); [|by apply keeps_ret].
  eapply keeps_bind; [apply keeps_emit; by apply job_ok_of|]. intros _ _. by apply keeps_ret.
Qed.

Lemma V2_visit_keeps k st :
  key_ok k → keeps event_ok (λ _, True) (V2.visit k st).
Proof.
  intros Hk. unfold V2.visit. apply keeps_try_finally.
  - apply keeps_try_catch; [by apply V2_attempt_keeps|]. intros e. by apply keeps_ret.
  - keeps_quietly V2_back_to_list_quiet.
Qed.

Lemma V2_process_hrefs_keeps hrefs st :
  Forall key_ok hrefs → keeps event_ok (λ _, True) (V2.process_hrefs hrefs st).
Proof.
  intros Hkeys. revert st. induction Hkeys as [|k rest Hk Hrest IH]; intros st;
    cbn [V2.process_hrefs]; unfold_monad.
  { by apply keeps_ret. }
  destruct (_ <=? _); [by apply keeps_ret|].
  case_bool_decide; [apply IH|].
  eapply keeps_bind; [by apply keeps_emit|]. intros _ _.
  eapply keeps_bind; [by apply V2_visit_keeps|]. intros st' _. apply IH.
Qed.

Lemma V2_round_step_keeps round st :
  keeps event_ok (λ _, True) (V2.round_step round st).
Proof.
  unfold V2.round_step. unfold_monad.
  eapply keeps_bind; [by apply keeps_emit|]. intros _ _.
  eapply keeps_bind; [keeps_quietly V2_handleConsentIfPresent_quiet|]. intros _ _.
  eapply keeps_bind; [keeps_quietly V2_waitForJobsOrDetectBlock_quiet|]. intros [|] _;
    [|apply keeps_throw].
  eapply keeps_bind; [keeps_quietly V2_findLeftListScroller_quiet|]. intros scroller _.
  eapply keeps_bind; [keeps_quietly V2_collectLeftHrefs_quiet|]. intros hrefsRaw _.
  eapply keeps_bind; [apply V2_process_hrefs_keeps, canonical_hrefs_keys|]. intros st1 _.
  destruct (_ <=? _); [by apply keeps_ret|]. cbv zeta.
  eapply keeps_bind; [keeps_quietly V2_findLeftListScroller_quiet|]. intros scrollerAfter _.
  eapply keeps_bind; [keeps_quietly V2_scrollLeft_quiet|]. intros _ _.
  eapply keeps_bind; [keeps_quietly V2_findLeftListScroller_quiet|]. intros scrollerCheck _.
  eapply keeps_bind; [keeps_quietly V2_collectLeftHrefs_quiet|]. intros hrefsAfterRaw _.
  destruct (_ <=? _); by apply keeps_ret.
Qed.

Lemma V2_rounds_keeps remaining round st :
  keeps event_ok (λ _, True) (V2.rounds remaining round st).
Proof.
  revert round st. induction remaining as [|remaining IH]; intros round st;
    cbn [V2.rounds]; unfold_monad; [by apply keeps_ret|].
  eapply keeps_bind; [apply V2_round_step_keeps|]. intros [[reason|] st'] _;
    [by apply keeps_ret|apply IH].
Qed.

Lemma V2_harvest_keeps : keeps event_ok (λ _, True) V2.harvest.
Proof.
  unfold V2.harvest, V2.harvest_run. unfold_monad.
  eapply keeps_bind; [|intros; by apply keeps_ret].
  eapply keeps_bind; [keeps_quietly V2_gotoWithTimeout_quiet|]. intros _ _.
  eapply keeps_bind; [keeps_quietly V2_handleConsentIfPresent_quiet|]. intros _ _.
  eapply keeps_bind; [keeps_quietly V2_waitForJobsOrDetectBlock_quiet|]. intros [|] _;
    [|apply keeps_throw].
  apply V2_rounds_keeps.
Qed.

Lemma V2_events_ok p : Forall event_ok (log (V2.fetchLinkedInJobsAiHr (World p [])).2).
Proof.
  rewrite V2_fetch_unfold. cbn [page log].
  destruct (V2_withHardTimeout_run V2.harvest V2.HARD_RUN_TIMEOUT_MS
              (World (setDefaultTimeout DEFAULT_TIMEOUT p) [])) as [-> _].
  by apply V2_harvest_keeps.
Qed.

End V2Records.

Section V1Records.

Context {W Handle : Type} `{!Browser W Handle} `{!Host}.

Implicit Types (w : world W) (st : HarvestState) (k : jsstring).

Lemma V1_read_jobTitle_returns :
  returns (λ t, t ≠ [] ∧ text_ok t) V1.read_jobTitle.
Proof.
  unfold V1.read_jobTitle. eapply returns_bind; [apply returns_any|]. intros titleText _.
  apply returns_ret. split; [by apply or_else_nonempty|].
  apply text_ok_or_else; [apply text_ok_normalizeText|reflexivity].
Qed.

Lemma V1_read_company_returns :
  returns (λ c, c ≠ [] ∧ text_ok c) V1.read_company.
Proof.
  unfold V1.read_company. eapply returns_bind; [apply returns_any|]. intros companyText _.
  apply returns_ret. split; [by apply or_else_nonempty|].
  apply text_ok_or_else; [apply text_ok_normalizeText|reflexivity].
Qed.

Lemma V1_read_description_returns : returns text_ok V1.read_description.
Proof.
  unfold V1.read_description. eapply returns_bind; [apply returns_any|]. intros descText _.
  apply returns_ret, text_ok_normalizeText.
Qed.

Lemma V1_read_postingDate_returns : returns date_ok V1.read_postingDate.
Proof.
  unfold V1.read_postingDate. eapply returns_bind; [apply returns_any|]. intros datetime _.
  cbv zeta.
  assert (date_ok match datetime with
                  | Some dt => if truthy dt then toIsoDateOrEmpty dt else []
                  | None => []
                  end) as Hdate.
  { destruct datetime as [dt|]; [|by left].
    destruct (truthy dt); [apply date_ok_toIsoDateOrEmpty|by left]. }
  destruct (negb _); [|by apply returns_ret].
  eapply returns_bind; [apply returns_any|]. intros postedText _.
  apply returns_ret, date_ok_toIsoDateOrEmpty.
Qed.

Lemma V1_readJobPageDetails_returns : returns details_ok V1.readJobPageDetails.
Proof.
  unfold V1.readJobPageDetails. unfold_monad.
  eapply returns_bind; [apply returns_any|]. intros _ _.
  eapply returns_bind; [apply V1_read_jobTitle_returns|]. intros t [Ht1 Ht2].
  eapply returns_bind; [apply V1_read_company_returns|]. intros c [Hc1 Hc2].
  eapply returns_bind; [apply V1_read_description_returns|]. intros d Hd.
  eapply returns_bind; [apply V1_read_postingDate_returns|]. intros pd Hpd.
  apply returns_ret. by split_and!.
Qed.

Lemma V1_visit_keeps k st :
  key_ok k → keeps event_ok (λ _, True) (V1.visit k st).
Proof.
  intros Hk. unfold V1.visit. unfold_monad.
  eapply keeps_bind; [by apply keeps_emit|]. intros _ _.
  eapply keeps_bind; [keeps_quietly (quiet_catch_default (call (goto k)) tt (quiet_call _))|].
  intros _ _.
  eapply keeps_bind; [keeps_quietly (quiet_call (waitForTimeout 800))|]. intros _ _.
  eapply keeps_bind.
  { apply keeps_quiet; [apply V1_readJobPageDetails_quiet|apply V1_readJobPageDetails_returns]. }
  intros d Hd.
  eapply keeps_bind; [by apply keeps_emit|]. intros _ _. cbv zeta.
  destruct (negb _); [by apply keeps_ret|].
  eapply keeps_bind; [apply keeps_emit; by apply job_ok_of|]. intros _ _. by apply keeps_ret.
Qed.

Lemma V1_process_hrefs_keeps hrefs st :
  Forall key_ok hrefs → keeps event_ok (λ _, True) (V1.process_hrefs hrefs st).
Proof.
  intros Hkeys. revert st. induction Hkeys as [|k rest Hk Hrest IH]; intros st;
    cbn [V1.process_hrefs]; unfold_monad.
  { by apply keeps_ret. }
  destruct (_ <=? _); [by apply keeps_ret|].
  case_bool_decide; [apply IH|].
  eapply keeps_bind; [by apply keeps_emit|]. intros _ _.
  eapply keeps_bind; [by apply V1_visit_keeps|]. intros st' _. apply IH.
Qed.

Lemma V1_round_step_keeps scroller round st :
  keeps event_ok (λ _, True) (V1.round_step scroller round st).
Proof.
  unfold V1.round_step. unfold_monad.
  eapply keeps_bind; [by apply keeps_emit|]. intros _ _.
  eapply keeps_bind; [keeps_quietly V1_handleConsentIfPresent_quiet|]. intros _ _.
  eapply keeps_bind; [keeps_quietly V1_collectLeftHrefs_quiet|]. intros hrefsRaw _.
  eapply keeps_bind; [apply V1_process_hrefs_keeps, canonical_hrefs_keys|]. intros st1 _.
  destruct (_ <=? _); [by apply keeps_ret|]. cbv zeta.
  destruct (_ <=? _); [by apply keeps_ret|].
  eapply keeps_bind;
    [keeps_quietly (quiet_catch_default (call (goto SEARCH_URL)) tt (quiet_call _))|].
  intros _ _.
  eapply keeps_bind; [keeps_quietly (quiet_call (waitForTimeout 800))|]. intros _ _.
  eapply keeps_bind; [keeps_quietly V1_scrollLeft_quiet|]. intros _ _.
  by apply keeps_ret.
Qed.

Lemma V1_rounds_keeps scroller remaining round st :
  keeps event_ok (λ _, True) (V1.rounds scroller remaining round st).
Proof.
  revert round st. induction remaining as [|remaining IH]; intros round st;
    cbn [V1.rounds]; unfold_monad; [by apply keeps_ret|].
  eapply keeps_bind; [apply V1_round_step_keeps|]. intros [[reason|] st'] _;
    [by apply keeps_ret|apply IH].
Qed.

Lemma V1_events_ok p : Forall event_ok (log (V1.fetchLinkedInJobsAiHr (World p [])).2).
Proof.
  assert (keeps event_ok (λ _, True) (V1.fetchLinkedInJobsAiHr (W:=W))) as Hk.
  { unfold V1.fetchLinkedInJobsAiHr, V1.harvest_run. unfold_monad.
    eapply keeps_bind; [|intros; by apply keeps_ret].
    eapply keeps_bind; [keeps_quietly (quiet_call_total (W:=W))|]. intros _ _.
    eapply keeps_bind; [keeps_quietly (quiet_call (goto SEARCH_URL))|]. intros _ _.
    eapply keeps_bind; [keeps_quietly V1_handleConsentIfPresent_quiet|]. intros _ _.
    eapply keeps_bind; [keeps_quietly V1_waitForAnyJobLinks_quiet|]. intros _ _.
    eapply keeps_bind; [keeps_quietly (quiet_call best_scored_scroller)|]. intros scroller _.
    apply V1_rounds_keeps. }
  by apply Hk.
Qed.

End V1Records.

Section RecordTheorems.

Context {W Handle : Type} `{!Browser W Handle} `{!Host}.

Lemma every_record_of (P : ApiJob → Prop) (run : outcome (list ApiJob) * world W) :
  Forall event_ok (log run.2) →
  (∀ jobs, run.1 = Ok jobs → jobs = pushed (log run.2)) →
  (∀ j, job_ok j → P j) →
  every_record P run.
Proof.
  intros Hev Hjobs HP.
  assert (Forall P (pushed (log run.2))) as Hall.
  { apply Forall_forall. intros j Hj%elem_of_pushed. apply HP.
    rewrite Forall_forall in Hev. by apply (Hev (EvPush j)). }
  split; [done|]. intros jobs Hok. by rewrite (Hjobs _ Hok).
Qed.

Lemma every_record_both (P : ApiJob → Prop) (p : W) :
  (∀ j, job_ok j → P j) →
  every_record P (V2.fetchLinkedInJobsAiHr (World p [])) ∧
  every_record P (V1.fetchLinkedInJobsAiHr (World p [])).
Proof.
  intros HP. split.
  - destruct (V2_fetch_spec p) as (_ & _ & Hjobs).
    apply every_record_of; [apply V2_events_ok|done..].
  - destruct (V1_fetch_spec p) as (_ & _ & Hjobs).
    apply every_record_of; [apply V1_events_ok|done..].
Qed.

(** X8: every record of a run of either engine has a canonical key as
    its link: a non-empty string without [?] that does not start with [/]
    and that [normalizeJobUrl] returned for some href; its contact is
    empty. *)
Theorem record_links_are_canonical_keys (p : W) :
  let is_key j :=
    link j ≠ [] ∧ (QUESTION_MARK ∉ link j) ∧ startsWith (link j) (js "/") = false ∧
    (∃ href, normalizeJobUrl href = Some (link j)) ∧ contact j = [] in
  every_record is_key (V2.fetchLinkedInJobsAiHr (World p [])) ∧
  every_record is_key (V1.fetchLinkedInJobsAiHr (World p [])).
Proof.
  apply every_record_both. intros j (Hk & Hc & _).
  destruct (key_ok_facts _ Hk) as (? & ? & ?). destruct Hk as [_ ?]. done.
Qed.

(** X9: every record of a run of either engine has a title and a company
    that are not empty, and a title, a company and a description that
    [normalizeText] leaves as they are. *)
Theorem record_texts_are_normalized (p : W) :
  let tidy_texts j :=
    jobTitle j ≠ [] ∧ company j ≠ [] ∧
    normalizeText (Some (jobTitle j)) = jobTitle j ∧
    normalizeText (Some (company j)) = company j ∧
    normalizeText (Some (description j)) = description j in
  every_record tidy_texts (V2.fetchLinkedInJobsAiHr (World p [])) ∧
  every_record tidy_texts (V1.fetchLinkedInJobsAiHr (World p [])).
Proof. apply every_record_both. by intros j (_ & _ & ? & ? & ? & ? & ? & _). Qed.

(** X10: every record of a run of either engine has a posting date that
    is empty or made of a year, a two-digit month from 01 to 12 and a
    two-digit day from 01 to 31, joined by hyphens. *)
Theorem record_dates_are_well_formed (p : W) :
  every_record (λ j, date_ok (postingDate j)) (V2.fetchLinkedInJobsAiHr (World p [])) ∧
  every_record (λ j, date_ok (postingDate j)) (V1.fetchLinkedInJobsAiHr (World p [])).
Proof. apply every_record_both. by intros j (_ & _ & _ & _ & _ & _ & _ & ?). Qed.

End RecordTheorems.

(** ** The protocol of a run *)

Section Protocol.

Implicit Types (h : list event) (ph : phase) (k : jsstring).

Lemma between_candidates_open h k :
  trace h (Marked k) → between_candidates (h ++ [EvOpen k]).
Proof. intros Ht. exists (Opened k). split; [|done]. econstructor; [done|constructor]. Qed.

Lemma between_candidates_round h n :
  between_candidates h → between_candidates (h ++ [EvRound n]).
Proof.
  intros (ph & Ht & Hf). exists Resting. split; [|done]. econstructor; [done|by constructor].
Qed.

Lemma trace_seen h k : between_candidates h → trace (h ++ [EvSeen k]) (Marked k).
Proof. intros (ph & Ht & Hf). econstructor; [done|by constructor]. Qed.

Lemma sublist_init {A} (l1 l2 k : list A) : l1 ++ l2 `sublist_of` k → l1 `sublist_of` k.
Proof. intros Hs. transitivity (l1 ++ l2); [by apply sublist_inserts_r|done]. Qed.

(** What the protocol says of the lists of a history. *)
Lemma trace_lists h ph :
  trace h ph →
  marked h = opened h ++ match ph with Marked k => [k] | _ => [] end ∧
  sublist (map link (pushed h) ++ pending ph) (opened h).
Proof.
  induction 1 as [|h e ph ph' Ht [IHm IHs] Hnext]; [done|].
  rewrite marked_snoc, opened_snoc, pushed_snoc.
  destruct Hnext as [ph n Hf|ph k Hf|k|k d|k d Hok]; simpl in *; rewrite ?app_nil_r in *.
  - destruct ph; try done; simpl in *; rewrite ?app_nil_r in *; (split; [done|]);
      try done; by eapply sublist_init.
  - destruct ph; try done; simpl in *; rewrite ?app_nil_r in *; (split; [by rewrite IHm|]);
      try done; by eapply sublist_init.
  - split; [done|]. by apply sublist_app.
  - done.
  - split; [done|]. by rewrite map_app.
Qed.

End Protocol.

Section V2Protocol.

Context {W Handle : Type} `{!Browser W Handle} `{!Host}.

Implicit Types (w : world W) (st : HarvestState) (k : jsstring).

Lemma V2_attempt_protocol k st w :
  trace (log w) (Marked k) →
  wp (V2.attempt k st) (λ _ w', between_candidates (log w')) w.
Proof.
  intros Ht. unfold V2.attempt. unfold_monad.
  wp_emit.
  assert (trace (log w ++ [EvOpen k]) (Opened k)) as Hopen
    by (econstructor; [done|constructor]).
  wp_call V2_gotoWithTimeout_quiet as [[]|e] w1 Hw1;
    [|rewrite Hw1; by exists (Opened k)].
  wp_call (quiet_call (waitForTimeout 350)) as [[]|e] w2 Hw2;
    [|rewrite Hw2, Hw1; by exists (Opened k)].
  wp_call V2_readJobPageDetails_quiet as [d|e] w3 Hw3;
    [|rewrite Hw3, Hw2, Hw1; by exists (Opened k)].
  wp_emit. cbv zeta.
  assert (log w3 = log w ++ [EvOpen k]) as Hlog3 by congruence.
  assert (trace (log w3 ++ [EvExtracted k d]) (Extracted k d)) as Hext.
  { rewrite Hlog3. econstructor; [done|constructor]. }
  destruct (ok (matchesAIandHR (haystack d))) eqn:Hok.
  - wp_emit. apply wp_ret. cbn [log]. exists Resting. split; [|done].
    econstructor; [done|by constructor].
  - apply wp_ret. cbn [log]. by exists (Extracted k d).
Qed.

Lemma V2_visit_protocol k st w :
  trace (log w) (Marked k) →
  wp (V2.visit k st) (λ _ w', between_candidates (log w')) w.
Proof.
  intros Ht. unfold V2.visit.
  apply wp_try_finally, wp_try_catch.
  eapply wp_mono; [by apply V2_attempt_protocol|].
  intros [st'|e] w1 Hr; cbv beta iota.
  - apply wp_quiet; [apply V2_back_to_list_quiet|].
    intros [[]|e] w2 Hw2; by rewrite Hw2.
  - unfold_monad. apply wp_ret.
    apply wp_quiet; [apply V2_back_to_list_quiet|].
    intros [[]|e'] w2 Hw2; by rewrite Hw2.
Qed.

Lemma V2_process_hrefs_protocol hrefs st w :
  between_candidates (log w) →
  wp (V2.process_hrefs hrefs st) (λ _ w', between_candidates (log w')) w.
Proof.
  revert st w. induction hrefs as [|k rest IH]; intros st w Hb; cbn [V2.process_hrefs].
  { unfold_monad. by apply wp_ret. }
  destruct (_ <=? _); [unfold_monad; by apply wp_ret|].
  case_bool_decide; [by apply IH|].
  unfold_monad. wp_emit.
  apply wp_bind. eapply wp_mono; [apply V2_visit_protocol; cbn [log]; by apply trace_seen|].
  intros [st'|e] w1 Hb1; cbv beta iota; [by apply IH|done].
Qed.

Lemma V2_round_step_protocol round st w :
  between_candidates (log w) →
  wp (V2.round_step round st) (λ _ w', between_candidates (log w')) w.
Proof.
  intros Hb. unfold V2.round_step. unfold_monad.
  wp_emit.
  pose proof (between_candidates_round _ round Hb) as Hb0.
  wp_call V2_handleConsentIfPresent_quiet as [[]|e] w1 Hw1; [|by rewrite Hw1].
  wp_call V2_waitForJobsOrDetectBlock_quiet as [[|]|e] w2 Hw2;
    [| |by rewrite Hw2, Hw1].
  2:{ apply wp_throw. by rewrite Hw2, Hw1. }
  wp_call V2_findLeftListScroller_quiet as [scroller|e] w3 Hw3;
    [|by rewrite Hw3, Hw2, Hw1].
  wp_total V2_collectLeftHrefs_quiet V2_collectLeftHrefs_safe as hrefsRaw w4 Hw4.
  apply wp_bind. eapply wp_mono.
  { apply V2_process_hrefs_protocol. by rewrite Hw4, Hw3, Hw2, Hw1. }
  intros [st1|e] w5 Hb5; cbv beta iota; [|done].
  destruct (_ <=? _); [by apply wp_ret|]. cbv zeta.
  wp_call V2_findLeftListScroller_quiet as [scrollerAfter|e] w6 Hw6; [|by rewrite Hw6].
  wp_call V2_scrollLeft_quiet as [[]|e] w7 Hw7; [|by rewrite Hw7, Hw6].
  wp_call V2_findLeftListScroller_quiet as [scrollerCheck|e] w8 Hw8;
    [|by rewrite Hw8, Hw7, Hw6].
  wp_total V2_collectLeftHrefs_quiet V2_collectLeftHrefs_safe as hrefsAfterRaw w9 Hw9.
  destruct (_ <=? _); apply wp_ret; by rewrite Hw9, Hw8, Hw7, Hw6.
Qed.

Lemma V2_rounds_protocol remaining round st w :
  between_candidates (log w) →
  wp (V2.rounds remaining round st) (λ _ w', between_candidates (log w')) w.
Proof.
  revert round st w. induction remaining as [|remaining IH]; intros round st w Hb;
    cbn [V2.rounds]; unfold_monad; [by apply wp_ret|].
  apply wp_bind. eapply wp_mono; [by apply V2_round_step_protocol|].
  intros [[[reason|] st']|e] w1 Hb1; cbv beta iota; [by apply wp_ret|by apply IH|done].
Qed.

Lemma V2_protocol p :
  between_candidates (log (V2.fetchLinkedInJobsAiHr (World p [])).2).
Proof.
  rewrite V2_fetch_unfold. cbn [page log].
  destruct (V2_withHardTimeout_run V2.harvest V2.HARD_RUN_TIMEOUT_MS
              (World (setDefaultTimeout DEFAULT_TIMEOUT p) [])) as [-> _].
  assert (between_candidates []) as Hnil by (exists Resting; split; [constructor|done]).
  change (wp V2.harvest (λ _ w', between_candidates (log w'))
            (World (setDefaultTimeout DEFAULT_TIMEOUT p) [])).
  unfold V2.harvest, V2.harvest_run. unfold_monad.
  apply wp_bind, wp_bind.
  apply wp_quiet; [apply V2_gotoWithTimeout_quiet|]. intros [[]|e] w1 Hw1; cbv beta iota;
    [|by rewrite Hw1].
  wp_call V2_handleConsentIfPresent_quiet as [[]|e] w2 Hw2; [|by rewrite Hw2, Hw1].
  wp_call V2_waitForJobsOrDetectBlock_quiet as [[|]|e] w3 Hw3; [| |by rewrite Hw3, Hw2, Hw1].
  2:{ apply wp_throw. by rewrite Hw3, Hw2, Hw1. }
  eapply wp_mono; [apply V2_rounds_protocol; by rewrite Hw3, Hw2, Hw1|].
  intros [[reason st]|e] w4 Hb4; cbv beta iota; [by apply wp_ret|done].
Qed.

End V2Protocol.

Section V1Protocol.

Context {W Handle : Type} `{!Browser W Handle} `{!Host}.

Implicit Types (w : world W) (st : HarvestState) (k : jsstring).

Lemma V1_visit_protocol k st w :
  trace (log w) (Marked k) →
  wp (V1.visit k st) (λ _ w', between_candidates (log w')) w.
Proof.
  intros Ht. unfold V1.visit. unfold_monad.
  wp_emit.
  assert (trace (log w ++ [EvOpen k]) (Opened k)) as Hopen
    by (econstructor; [done|constructor]).
  wp_total (quiet_catch_default (call (goto k)) tt (quiet_call _))
           (safe_catch_default (call (goto k)) tt) as [] w1 Hw1.
  wp_call (quiet_call (waitForTimeout 800)) as [[]|e] w2 Hw2;
    [|rewrite Hw2, Hw1; by exists (Opened k)].
  wp_call V1_readJobPageDetails_quiet as [d|e] w3 Hw3;
    [|rewrite Hw3, Hw2, Hw1; by exists (Opened k)].
  wp_emit. cbv zeta.
  assert (log w3 = log w ++ [EvOpen k]) as Hlog3 by congruence.
  assert (trace (log w3 ++ [EvExtracted k d]) (Extracted k d)) as Hext.
  { rewrite Hlog3. econstructor; [done|constructor]. }
  destruct (ok (matchesAIandHR (haystack d))) eqn:Hok; cbn [negb].
  - wp_emit. apply wp_ret. cbn [log]. exists Resting. split; [|done].
    econstructor; [done|by constructor].
  - apply wp_ret. cbn [log]. by exists (Extracted k d).
Qed.

Lemma V1_process_hrefs_protocol hrefs st w :
  between_candidates (log w) →
  wp (V1.process_hrefs hrefs st) (λ _ w', between_candidates (log w')) w.
Proof.
  revert st w. induction hrefs as [|k rest IH]; intros st w Hb; cbn [V1.process_hrefs].
  { unfold_monad. by apply wp_ret. }
  destruct (_ <=? _); [unfold_monad; by apply wp_ret|].
  case_bool_decide; [by apply IH|].
  unfold_monad. wp_emit.
  apply wp_bind. eapply wp_mono; [apply V1_visit_protocol; cbn [log]; by apply trace_seen|].
  intros [st'|e] w1 Hb1; cbv beta iota; [by apply IH|done].
Qed.

Lemma V1_round_step_protocol scroller round st w :
  between_candidates (log w) →
  wp (V1.round_step scroller round st) (λ _ w', between_candidates (log w')) w.
Proof.
  intros Hb. unfold V1.round_step. unfold_monad.
  wp_emit.
  pose proof (between_candidates_round _ round Hb) as Hb0.
  wp_call V1_handleConsentIfPresent_quiet as [[]|e] w1 Hw1; [|by rewrite Hw1].
  wp_total V1_collectLeftHrefs_quiet V1_collectLeftHrefs_safe as hrefsRaw w2 Hw2.
  apply wp_bind. eapply wp_mono.
  { apply V1_process_hrefs_protocol. by rewrite Hw2, Hw1. }
  intros [st1|e] w3 Hb3; cbv beta iota; [|done].
  destruct (_ <=? _); [by apply wp_ret|]. cbv zeta.
  destruct (_ <=? _); [by apply wp_ret|].
  wp_total (quiet_catch_default (call (goto SEARCH_URL)) tt (quiet_call _))
           (safe_catch_default (call (goto SEARCH_URL)) tt) as [] w4 Hw4.
  wp_call (quiet_call (waitForTimeout 800)) as [[]|e] w5 Hw5; [|by rewrite Hw5, Hw4].
  wp_call V1_scrollLeft_quiet as [[]|e] w6 Hw6; [|by rewrite Hw6, Hw5, Hw4].
  apply wp_ret. by rewrite Hw6, Hw5, Hw4.
Qed.

Lemma V1_rounds_protocol scroller remaining round st w :
  between_candidates (log w) →
  wp (V1.rounds scroller remaining round st) (λ _ w', between_candidates (log w')) w.
Proof.
  revert round st w. induction remaining as [|remaining IH]; intros round st w Hb;
    cbn [V1.rounds]; unfold_monad; [by apply wp_ret|].
  apply wp_bind. eapply wp_mono; [by apply V1_round_step_protocol|].
  intros [[[reason|] st']|e] w1 Hb1; cbv beta iota; [by apply wp_ret|by apply IH|done].
Qed.

Lemma V1_protocol p :
  between_candidates (log (V1.fetchLinkedInJobsAiHr (World p [])).2).
Proof.
  assert (between_candidates []) as Hnil by (exists Resting; split; [constructor|done]).
  change (wp V1.fetchLinkedInJobsAiHr (λ _ w', between_candidates (log w')) (World p [])).
  unfold V1.fetchLinkedInJobsAiHr, V1.harvest_run. unfold_monad.
  apply wp_bind, wp_bind.
  apply wp_quiet_safe; [apply quiet_call_total|apply safe_call_total|].
  intros [] w0 Hw0; cbv beta iota.
  wp_call (quiet_call (goto SEARCH_URL)) as [[]|e] w1 Hw1; [|by rewrite Hw1, Hw0].
  wp_call V1_handleConsentIfPresent_quiet as [[]|e] w2 Hw2; [|by rewrite Hw2, Hw1, Hw0].
  wp_call V1_waitForAnyJobLinks_quiet as [[]|e] w3 Hw3; [|by rewrite Hw3, Hw2, Hw1, Hw0].
  wp_call (quiet_call best_scored_scroller) as [scroller|e] w4 Hw4;
    [|by rewrite Hw4, Hw3, Hw2, Hw1, Hw0].
  eapply wp_mono; [apply V1_rounds_protocol; by rewrite Hw4, Hw3, Hw2, Hw1, Hw0|].
  intros [[reason st]|e] w5 Hb5; cbv beta iota; [by apply wp_ret|done].
Qed.

End V1Protocol.

Section ProtocolTheorems.

Context {W Handle : Type} `{!Browser W Handle} `{!Host}.

(** X27: the history of every run of either engine follows the protocol:
    a candidate is marked, then dispatched, then extracted, then pushed,
    the record pushed being the one just extracted for that key and
    accepted by the filter; a step may be the last for the candidate, but
    none is skipped, and a round or a candidate begins only when the
    previous candidate has been dispatched. *)
Theorem histories_follow_the_protocol (p : W) :
  between_candidates (log (V2.fetchLinkedInJobsAiHr (World p [])).2) ∧
  between_candidates (log (V1.fetchLinkedInJobsAiHr (World p [])).2).
Proof. split; [apply V2_protocol|apply V1_protocol]. Qed.

Lemma between_candidates_lists h :
  between_candidates h → opened h = marked h ∧ sublist (map link (pushed h)) (opened h).
Proof.
  intros (ph & Ht & Hf). destruct (trace_lists h ph Ht) as [Hm Hs]. split.
  - destruct ph; try done; by rewrite Hm, app_nil_r.
  - by eapply sublist_init.
Qed.

(** X28: in every run of either engine each marked key is dispatched, in
    the order of marking, and the links of the records, pushed or
    returned, come in the order of dispatch. *)
Theorem records_come_in_dispatch_order (p : W) :
  let in_order (run : outcome (list ApiJob) * world W) :=
    opened (log run.2) = marked (log run.2) ∧
    sublist (map link (pushed (log run.2))) (opened (log run.2)) ∧
    ∀ jobs, run.1 = Ok jobs → sublist (map link jobs) (opened (log run.2)) in
  in_order (V2.fetchLinkedInJobsAiHr (World p [])) ∧
  in_order (V1.fetchLinkedInJobsAiHr (World p [])).
Proof.
  cbv zeta. split.
  - destruct (between_candidates_lists _ (V2_protocol p)) as [Hm Hs].
    destruct (V2_fetch_spec p) as (_ & _ & Hjobs).
    split_and!; [done..|]. intros jobs Hok. by rewrite (Hjobs _ Hok).
  - destruct (between_candidates_lists _ (V1_protocol p)) as [Hm Hs].
    destruct (V1_fetch_spec p) as (_ & _ & Hjobs).
    split_and!; [done..|]. intros jobs Hok. by rewrite (Hjobs _ Hok).
Qed.

End ProtocolTheorems.

(** ** Hrefs, dates and rounds *)

Section Urls.

Implicit Types (href key path : jsstring).

(** X3: a relative href and its absolute spelling on the LinkedIn origin
    have the same key, or are both discarded. *)
Theorem normalizeJobUrl_relative_and_absolute path :
  normalizeJobUrl (js "/" ++ path) = normalizeJobUrl (LINKEDIN_ORIGIN ++ js "/" ++ path).
Proof.
  unfold normalizeJobUrl, absolutize.
  assert (startsWith (js "/" ++ path) (js "/") = true) as -> by by apply startsWith_slash.
  assert (startsWith (LINKEDIN_ORIGIN ++ js "/" ++ path) (js "/") = false) as -> by done.
  reflexivity.
Qed.

Lemma omap_length_le {A B} (f : A → option B) (l : list A) : length (omap f l) ≤ length l.
Proof.
  induction l as [|x l IH]; [done|]. cbn [omap list_omap length].
  destruct (f x); cbn [length]; lia.
Qed.

(** X4: the [hrefs] of a round are exactly the non-empty keys of the
    trimmed raw hrefs; none holds a [?] or starts with [/]; there are no
    more of them than raw hrefs; and they come in the order of the raw
    hrefs, repetitions included. *)
Theorem canonical_hrefs_are_the_keys hrefsRaw :
  (∀ k, k ∈ canonical_hrefs hrefsRaw ↔
        k ≠ [] ∧ ∃ h, h ∈ hrefsRaw ∧ normalizeJobUrl (trim h) = Some k) ∧
  Forall (λ k, (QUESTION_MARK ∉ k) ∧ startsWith k (js "/") = false) (canonical_hrefs hrefsRaw) ∧
  length (canonical_hrefs hrefsRaw) ≤ length hrefsRaw ∧
  (∀ more, canonical_hrefs (hrefsRaw ++ more)
           = canonical_hrefs hrefsRaw ++ canonical_hrefs more).
Proof.
  split_and!.
  - apply canonical_hrefs_spec.
  - eapply Forall_impl; [apply canonical_hrefs_keys|].
    intros k Hk. by destruct (key_ok_facts k Hk) as (_ & ? & ?).
  - unfold canonical_hrefs.
    etrans; [apply length_filter|]. etrans; [apply omap_length_le|].
    etrans; [apply length_filter|]. by rewrite length_map.
  - intros more. unfold canonical_hrefs.
    by rewrite map_app, filter_app, omap_app, filter_app.
Qed.

End Urls.

Section DateShape.

Context `{!Host}.

(** X5: [toIsoDateOrEmpty] returns the empty string for every input that
    is not a valid date, and otherwise the UTC year of the date as
    [String] prints it, its UTC month plus one and its UTC day of the
    month, each of the two written with two digits, joined by hyphens:
    a string that is not empty, with a month from 01 to 12 and a day from
    01 to 31, and of the form [YYYY-MM-DD] when the year lies between
    1000 and 9999. *)
Theorem toIsoDateOrEmpty_shape s :
  date_ok (toIsoDateOrEmpty s) ∧
  match Date_of_string s with
  | None => toIsoDateOrEmpty s = []
  | Some t =>
      toIsoDateOrEmpty s
      = String_of_Z (getUTCFullYear t) ++ js "-"
        ++ two_digits (Z.to_N (getUTCMonth t + 1)) ++ js "-"
        ++ two_digits (Z.to_N (getUTCDate t)) ∧
      (0 ≤ getUTCMonth t ≤ 11)%Z ∧ (1 ≤ getUTCDate t ≤ 31)%Z ∧
      toIsoDateOrEmpty s ≠ [] ∧
      ((1000 ≤ getUTCFullYear t ≤ 9999)%Z →
       toIsoDateOrEmpty s = iso_date (getUTCFullYear t) (getUTCMonth t + 1) (getUTCDate t))
  end.
Proof.
  split; [apply date_ok_toIsoDateOrEmpty|].
  pose proof (toIsoDateOrEmpty_parts s) as Hf.
  destruct (Date_of_string s) as [t|]; [|done].
  destruct Hf as (Hm & Hd & Heq & Hy & Hfour).
  split; [done|]. split; [done|]. split; [done|]. split.
  - intros Hnil. rewrite Heq in Hnil. apply (f_equal length) in Hnil.
    rewrite !length_app in Hnil. simpl in Hnil. lia.
  - intros Hrange. rewrite Heq, (Hfour Hrange). reflexivity.
Qed.

End DateShape.

Section Rounds.

Context {W Handle : Type} `{!Browser W Handle} `{!Host}.

(** X17: neither engine starts more rounds than it may: the first at
    most [MAX_SCROLL_ROUNDS]; the second at most as many as its
    stagnation threshold, which is below its [MAX_SCROLL_ROUNDS], so that
    its round loop always ends in a [break]. *)
Theorem rounds_are_bounded (p : W) :
  length (round_starts (log (V1.fetchLinkedInJobsAiHr (World p [])).2))
    ≤ V1.MAX_SCROLL_ROUNDS ∧
  length (round_starts (log (V2.fetchLinkedInJobsAiHr (World p [])).2))
    ≤ V2.STAGNATION_THRESHOLD ∧
  V2.STAGNATION_THRESHOLD < V2.MAX_SCROLL_ROUNDS ∧
  (∀ reason st w', V2.harvest_run (World p []) = (Ok (reason, st), w') → reason ≠ MaxRounds).
Proof.
  split_and!.
  - by destruct (V1_fetch_spec p) as (_ & ? & _).
  - by destruct (V2_fetch_spec p) as (_ & ? & _).
  - unfold V2.STAGNATION_THRESHOLD, V2.MAX_SCROLL_ROUNDS. lia.
  - intros reason st w' Hrun. pose proof (V2_harvest_run_spec p) as Hspec.
    unfold wp in Hspec. rewrite Hrun in Hspec. destruct Hspec as (_ & _ & Hok).
    by destruct (Hok _ _ eq_refl).
Qed.

End Rounds.

(** ** How the engines fail *)

Section V2Errors.

Context {W Handle : Type} `{!Browser W Handle} `{!Host}.

Implicit Types (w : world W) (st : HarvestState) (k : jsstring).

Lemma wp_quiet_returns {A} (m : M W A) (Q' : A → Prop) (Q : outcome A → world W → Prop) w :
  quiet m → returns Q' m →
  (∀ r w', log w' = log w → (∀ a, r = Ok a → Q' a) → Q r w') → wp m Q w.
Proof. intros Hq Hr HQ. apply HQ; [apply Hq|]. intros a Ha. by apply (Hr w). Qed.

Lemma V2_failure_pause (pauses : list N) e :
  pauses ⊆ [300; 400; 500]%N → pause_rejected pauses e → V2_failure e.
Proof.
  intros Hsub He. do 6 right. by eapply pause_rejected_mono.
Qed.

(** The helpers reject only as their pause does. *)
Lemma V2_consent_loop_rejects sels :
  rejects_with (pause_rejected [300%N]) (V2.consent_loop sels).
Proof. induction sels as [|sel sels IH]; simpl; repeat rejects_step. Qed.

Lemma V2_handleConsentIfPresent_rejects :
  rejects_with (pause_rejected [300%N]) V2.handleConsentIfPresent.
Proof. apply V2_consent_loop_rejects. Qed.

Lemma V2_scrollLeft_rejects scroller delta :
  rejects_with (pause_rejected [500%N]) (V2.scrollLeft scroller delta).
Proof. unfold V2.scrollLeft. repeat rejects_step. Qed.

Lemma V2_block_poll_rejects fuel start :
  rejects_with (pause_rejected [300; 400]%N) (V2.block_poll fuel start).
Proof.
  induction fuel as [|fuel IH]; cbn [V2.block_poll]; unfold_monad; [apply rejects_ret|].
  apply rejects_bind; [apply rejects_safe, safe_observe|]. intros t.
  destruct (_ <? _)%N; [|apply rejects_ret].
  apply rejects_bind.
  { eapply rejects_weaken; [apply V2_handleConsentIfPresent_rejects|].
    intros e. apply pause_rejected_mono. compute_done. }
  intros _. repeat rejects_step.
Qed.

Lemma V2_waitForJobsOrDetectBlock_rejects :
  rejects_with (pause_rejected [300; 400]%N) V2.waitForJobsOrDetectBlock.
Proof.
  unfold V2.waitForJobsOrDetectBlock.
  apply rejects_bind; [apply rejects_safe, safe_observe|]. intros start.
  apply V2_block_poll_rejects.
Qed.

Lemma returns_count_none :
  never_shows_links → returns (λ n, n = 0) (catch_default (call (count JOB_LINK_SELECTOR)) 0).
Proof.
  intros Hnone w n. unfold catch_default, try_catch, call.
  destruct (count JOB_LINK_SELECTOR (page w)) as [[n'|e] p'] eqn:Hc; simpl.
  - intros [= <-]. by eapply Hnone.
  - by intros [= <-].
Qed.

Lemma V2_block_poll_no_links fuel start :
  never_shows_links → returns (λ r, r = BLOCKED) (V2.block_poll fuel start).
Proof.
  intros Hnone. induction fuel as [|fuel IH]; cbn [V2.block_poll]; unfold_monad;
    [by apply returns_ret|].
  eapply returns_bind; [apply returns_any|]. intros t _.
  destruct (_ <? _)%N; [|by apply returns_ret].
  eapply returns_bind; [apply returns_any|]. intros _ _.
  eapply returns_bind; [apply returns_any|]. intros [|] _; [by apply returns_ret|].
  eapply returns_bind; [by apply returns_count_none|]. intros n ->. simpl.
  eapply returns_bind; [apply returns_any|]. intros _ _. apply IH.
Qed.

Lemma returns_blocked_always :
  always_blocked →
  returns (λ b, b = true) (catch_default (call (isVisible V2.BLOCK_SELECTOR (Some 800%N))) false).
Proof.
  intros Hblocked w b. unfold catch_default, try_catch, call.
  specialize (Hblocked (page w)).
  destruct (isVisible V2.BLOCK_SELECTOR (Some 800%N) (page w)) as [r p']. simpl in *.
  subst r. by intros [= <-].
Qed.

Lemma V2_block_poll_blocked fuel start :
  always_blocked → returns (λ r, r = BLOCKED) (V2.block_poll fuel start).
Proof.
  intros Hblocked. destruct fuel as [|fuel]; cbn [V2.block_poll]; unfold_monad;
    [by apply returns_ret|].
  eapply returns_bind; [apply returns_any|]. intros t _.
  destruct (_ <? _)%N; [|by apply returns_ret].
  eapply returns_bind; [apply returns_any|]. intros _ _.
  eapply returns_bind; [by apply returns_blocked_always|]. intros b ->.
  by apply returns_ret.
Qed.

(** With a block marker in sight the poll ends before its own pause. *)
Lemma V2_block_poll_blocked_rejects fuel start :
  always_blocked → rejects_with (pause_rejected [300%N]) (V2.block_poll fuel start).
Proof.
  intros Hblocked. destruct fuel as [|fuel]; cbn [V2.block_poll]; unfold_monad;
    [apply rejects_ret|].
  apply rejects_bind; [apply rejects_safe, safe_observe|]. intros t.
  destruct (_ <? _)%N; [|apply rejects_ret].
  apply rejects_bind; [apply V2_handleConsentIfPresent_rejects|]. intros _.
  eapply rejects_bind_returns;
    [by apply returns_blocked_always|apply rejects_safe, safe_catch_default|].
  intros b ->. apply rejects_ret.
Qed.

Lemma V2_wait_no_links :
  never_shows_links → returns (λ r, r = BLOCKED) V2.waitForJobsOrDetectBlock.
Proof.
  intros Hnone. unfold V2.waitForJobsOrDetectBlock. eapply returns_bind; [apply returns_any|].
  intros start _. by apply V2_block_poll_no_links.
Qed.

Lemma V2_wait_blocked :
  always_blocked → returns (λ r, r = BLOCKED) V2.waitForJobsOrDetectBlock.
Proof.
  intros Hblocked. unfold V2.waitForJobsOrDetectBlock. eapply returns_bind; [apply returns_any|].
  intros start _. by apply V2_block_poll_blocked.
Qed.

(** A computation ends as its two judgements say. *)
Lemma returns_or_rejects {A} (Q : A → Prop) E (m : M W A) w :
  returns Q m → rejects_with E m →
  match (m w).1 with Ok a => Q a | Throw e => E e end.
Proof.
  intros Hr He. specialize (Hr w). specialize (He w).
  destruct (m w).1 as [a|e]; [by apply Hr|by apply He].
Qed.

(** X14: [waitForJobsOrDetectBlock] rejects only when one of its pauses
    does, the one behind a consent click or the one between two polls.
    On a page that never shows a job link it never answers OK: it answers
    BLOCKED unless a pause rejects. On a page that shows a block marker
    whenever it is looked for it answers BLOCKED at the first poll,
    unless the pause behind a consent click rejects. *)
Theorem waitForJobsOrDetectBlock_verdicts :
  rejects_with (pause_rejected [300; 400]%N) V2.waitForJobsOrDetectBlock ∧
  (never_shows_links → ∀ w,
     match (V2.waitForJobsOrDetectBlock w).1 with
     | Ok state => state = BLOCKED
     | Throw e => pause_rejected [300; 400]%N e
     end) ∧
  (always_blocked → ∀ w,
     match (V2.waitForJobsOrDetectBlock w).1 with
     | Ok state => state = BLOCKED
     | Throw e => pause_rejected [300%N] e
     end).
Proof.
  split; [apply V2_waitForJobsOrDetectBlock_rejects|]. split.
  - intros Hnone w. apply returns_or_rejects;
      [by apply V2_wait_no_links|apply V2_waitForJobsOrDetectBlock_rejects].
  - intros Hblocked w. apply returns_or_rejects; [by apply V2_wait_blocked|].
    unfold V2.waitForJobsOrDetectBlock.
    apply rejects_bind; [apply rejects_safe, safe_observe|]. intros start.
    by apply V2_block_poll_blocked_rejects.
Qed.

Lemma V2_back_to_list_rejects : rejects_with (pause_rejected [300%N]) V2.back_to_list.
Proof. unfold V2.back_to_list. repeat rejects_step. Qed.

(** The [try] with its [catch] never rejects; the [finally] block can. *)
Lemma V2_visit_rejects k st : rejects_with (pause_rejected [300%N]) (V2.visit k st).
Proof.
  unfold V2.visit. apply rejects_try_finally; [|apply V2_back_to_list_rejects].
  apply rejects_safe, safe_try_catch. intros e. apply safe_ret.
Qed.

Lemma V2_process_hrefs_rejects hrefs st :
  rejects_with (pause_rejected [300%N]) (V2.process_hrefs hrefs st).
Proof.
  revert st. induction hrefs as [|k rest IH]; intros st; cbn [V2.process_hrefs];
    unfold_monad; [apply rejects_ret|].
  destruct (_ <=? _); [apply rejects_ret|]. case_bool_decide; [apply IH|].
  apply rejects_bind; [apply rejects_safe, safe_emit|]. intros _.
  apply rejects_bind; [apply V2_visit_rejects|]. intros st'. apply IH.
Qed.

Lemma V2_gotoWithTimeout_rejects url ms tag :
  rejects_with (λ e, e = V2.NAV_TIMEOUT_message tag ms url ∨
                     ∃ p, (goto_race_timer url ms p).1 = Some (Throw e))
    (V2.gotoWithTimeout url ms tag).
Proof.
  intros w e. unfold V2.gotoWithTimeout.
  destruct (goto_race_timer url ms (page w)) as [[r|] p'] eqn:Hg; simpl.
  - intros ->. right. exists (page w). by rewrite Hg.
  - intros [= <-]. by left.
Qed.

Lemma V2_findLeftListScroller_rejects :
  rejects_with V2_failure V2.findLeftListScroller.
Proof.
  eapply rejects_weaken; [apply rejects_call|]. intros e He. unfold V2_failure. tauto.
Qed.

Lemma rejects_pauses_V2 {A} (pauses : list N) (m : M W A) :
  pauses ⊆ [300; 400; 500]%N → rejects_with (pause_rejected pauses) m →
  rejects_with V2_failure m.
Proof.
  intros Hsub Hm. eapply rejects_weaken; [exact Hm|]. intros e. by apply V2_failure_pause.
Qed.

Lemma V2_round_step_rejects round st : rejects_with V2_failure (V2.round_step round st).
Proof.
  unfold V2.round_step. unfold_monad.
  apply rejects_bind; [apply rejects_safe, safe_emit|]. intros _.
  apply rejects_bind.
  { eapply rejects_pauses_V2; [|apply V2_handleConsentIfPresent_rejects]. compute_done. }
  intros _.
  apply rejects_bind.
  { eapply rejects_pauses_V2; [|apply V2_waitForJobsOrDetectBlock_rejects]. compute_done. }
  intros [|].
  2:{ apply rejects_throw. unfold V2_failure. tauto. }
  apply rejects_bind; [apply V2_findLeftListScroller_rejects|]. intros scroller.
  apply rejects_bind; [apply rejects_safe, V2_collectLeftHrefs_safe|]. intros hrefsRaw.
  apply rejects_bind.
  { eapply rejects_pauses_V2; [|apply V2_process_hrefs_rejects]. compute_done. }
  intros st1.
  destruct (_ <=? _); [apply rejects_ret|]. cbv zeta.
  apply rejects_bind; [apply V2_findLeftListScroller_rejects|]. intros scrollerAfter.
  apply rejects_bind.
  { eapply rejects_pauses_V2; [|apply V2_scrollLeft_rejects]. compute_done. }
  intros _.
  apply rejects_bind; [apply V2_findLeftListScroller_rejects|]. intros scrollerCheck.
  apply rejects_bind; [apply rejects_safe, V2_collectLeftHrefs_safe|]. intros hrefsAfterRaw.
  destruct (_ <=? _); apply rejects_ret.
Qed.

Lemma V2_rounds_rejects remaining round st :
  rejects_with V2_failure (V2.rounds remaining round st).
Proof.
  revert round st. induction remaining as [|remaining IH]; intros round st;
    cbn [V2.rounds]; unfold_monad; [apply rejects_ret|].
  apply rejects_bind; [apply V2_round_step_rejects|]. intros [[reason|] st'];
    [apply rejects_ret|apply IH].
Qed.

Lemma V2_harvest_rejects : rejects_with V2_failure V2.harvest.
Proof.
  unfold V2.harvest, V2.harvest_run. unfold_monad.
  apply rejects_bind; [|intros; apply rejects_ret].
  apply rejects_bind.
  { eapply rejects_weaken; [apply V2_gotoWithTimeout_rejects|].
    intros e [->|He]; unfold V2_failure; tauto. }
  intros _.
  apply rejects_bind.
  { eapply rejects_pauses_V2; [|apply V2_handleConsentIfPresent_rejects]. compute_done. }
  intros _.
  apply rejects_bind.
  { eapply rejects_pauses_V2; [|apply V2_waitForJobsOrDetectBlock_rejects]. compute_done. }
  intros [|].
  - apply V2_rounds_rejects.
  - apply rejects_throw. unfold V2_failure. tauto.
Qed.

(** X11: every rejection of the second engine is one of its own four
    errors (the global timeout, the timeout of the first navigation, the
    two block errors), a rejection of the first navigation, a rejection
    of the scroller script, or a rejection of one of the pauses that are
    awaited outside the [try] block of a candidate (300, 400 or 500 ms).
    What fails inside that [try] block, the navigation to the job page,
    its pause or the extractor, never surfaces. *)
Theorem V2_rejections (p : W) e :
  (V2.fetchLinkedInJobsAiHr (World p [])).1 = Throw e → V2_failure e.
Proof.
  rewrite V2_fetch_unfold. cbn [page log].
  destruct (V2_withHardTimeout_run V2.harvest V2.HARD_RUN_TIMEOUT_MS
              (World (setDefaultTimeout DEFAULT_TIMEOUT p) [])) as [_ [-> | ->]].
  - apply V2_harvest_rejects.
  - intros [= <-]. unfold V2_failure. tauto.
Qed.

(** X13: on a page that never shows a job link the second engine
    dispatches nothing and rejects; it never answers with an empty list
    there. *)
Theorem V2_rejects_without_links (p : W) :
  never_shows_links →
  ∃ e, (V2.fetchLinkedInJobsAiHr (World p [])).1 = Throw e ∧
       log (V2.fetchLinkedInJobsAiHr (World p [])).2 = [].
Proof.
  intros Hnone.
  assert (∀ w, log w = [] →
            wp V2.harvest (λ r w', (∃ e, r = Throw e) ∧ log w' = []) w) as Hharvest.
  { intros w Hw. unfold V2.harvest, V2.harvest_run. unfold_monad.
    apply wp_bind, wp_bind.
    apply wp_quiet; [apply V2_gotoWithTimeout_quiet|]. intros [[]|e] w1 Hw1; cbv beta iota;
      [|split; [by eexists|congruence]].
    apply wp_bind, wp_quiet; [apply V2_handleConsentIfPresent_quiet|].
    intros [[]|e] w2 Hw2; cbv beta iota; [|split; [by eexists|congruence]].
    apply wp_bind.
    apply (wp_quiet_returns _ (λ r, r = BLOCKED));
      [apply V2_waitForJobsOrDetectBlock_quiet|by apply V2_wait_no_links|].
    intros [r|e] w3 Hw3 Hr; cbv beta iota; [|split; [by eexists|congruence]].
    rewrite (Hr r eq_refl). apply wp_throw. split; [by eexists|congruence]. }
  rewrite V2_fetch_unfold. cbn [page log].
  destruct (V2_withHardTimeout_run V2.harvest V2.HARD_RUN_TIMEOUT_MS
              (World (setDefaultTimeout DEFAULT_TIMEOUT p) [])) as [-> Hout].
  specialize (Hharvest (World (setDefaultTimeout DEFAULT_TIMEOUT p) []) eq_refl).
  unfold wp in Hharvest. destruct Hharvest as [[e He] Hlog].
  destruct Hout as [Hout|Hout]; rewrite Hout; [rewrite He|]; eauto.
Qed.

End V2Errors.

Section V1Errors.

Context {W Handle : Type} `{!Browser W Handle} `{!Host}.

Implicit Types (w : world W) (st : HarvestState) (k : jsstring).



Lemma V1_consent_loop_rejects sels :
  rejects_with (pause_rejected [600%N]) (V1.consent_loop sels).
Proof. induction sels as [|sel sels IH]; simpl; repeat rejects_step. Qed.

Lemma V1_handleConsentIfPresent_rejects :
  rejects_with (pause_rejected [600%N]) V1.handleConsentIfPresent.
Proof. apply V1_consent_loop_rejects. Qed.

Lemma V1_scrollLeft_rejects scroller delta :
  rejects_with (pause_rejected [650%N]) (V1.scrollLeft scroller delta).
Proof. unfold V1.scrollLeft. repeat rejects_step. Qed.

Lemma V1_links_poll_rejects fuel start :
  rejects_with (pause_rejected [400; 600]%N) (V1.links_poll fuel start).
Proof.
  induction fuel as [|fuel IH]; cbn [V1.links_poll]; unfold_monad; [apply rejects_ret|].
  apply rejects_bind; [apply rejects_safe, safe_observe|]. intros t.
  destruct (_ <? _)%N; [|apply rejects_ret].
  apply rejects_bind.
  { eapply rejects_weaken; [apply V1_handleConsentIfPresent_rejects|].
    intros e. apply pause_rejected_mono. compute_done. }
  intros _. repeat rejects_step.
Qed.

Lemma V1_waitForAnyJobLinks_rejects :
  rejects_with (pause_rejected [400; 600]%N) V1.waitForAnyJobLinks.
Proof.
  unfold V1.waitForAnyJobLinks.
  apply rejects_bind; [apply rejects_safe, safe_observe|]. intros start.
  apply V1_links_poll_rejects.
Qed.

Lemma V1_readJobPageDetails_rejects :
  rejects_with (pause_rejected [250%N]) V1.readJobPageDetails.
Proof.
  unfold V1.readJobPageDetails. unfold_monad.
  apply rejects_bind; [apply V1_expand_description_rejects|]. intros _.
  apply rejects_bind; [apply rejects_safe, V1_read_jobTitle_safe|]. intros t.
  apply rejects_bind; [apply rejects_safe, V1_read_company_safe|]. intros c.
  apply rejects_bind; [apply rejects_safe, V1_read_description_safe|]. intros d.
  apply rejects_bind; [apply rejects_safe, V1_read_postingDate_safe|]. intros pd.
  apply rejects_ret.
Qed.

(** Nothing catches what the visit of a candidate awaits behind the
    navigation: the pause and the extractor. *)
Lemma V1_visit_rejects k st : rejects_with (pause_rejected [250; 800]%N) (V1.visit k st).
Proof.
  unfold V1.visit. unfold_monad.
  apply rejects_bind; [apply rejects_safe, safe_emit|]. intros _.
  apply rejects_bind; [apply rejects_safe, safe_catch_default|]. intros _.
  apply rejects_bind; [apply rejects_pause; compute_done|]. intros _.
  apply rejects_bind.
  { eapply rejects_weaken; [apply V1_readJobPageDetails_rejects|].
    intros e. apply pause_rejected_mono. compute_done. }
  intros d.
  apply rejects_bind; [apply rejects_safe, safe_emit|]. intros _. cbv zeta.
  destruct (negb _); [apply rejects_ret|].
  apply rejects_bind; [apply rejects_safe, safe_emit|]. intros _. apply rejects_ret.
Qed.

Lemma V1_process_hrefs_rejects hrefs st :
  rejects_with (pause_rejected [250; 800]%N) (V1.process_hrefs hrefs st).
Proof.
  revert st. induction hrefs as [|k rest IH]; intros st; cbn [V1.process_hrefs];
    unfold_monad; [apply rejects_ret|].
  destruct (_ <=? _); [apply rejects_ret|]. case_bool_decide; [apply IH|].
  apply rejects_bind; [apply rejects_safe, safe_emit|]. intros _.
  apply rejects_bind; [apply V1_visit_rejects|]. intros st'. apply IH.
Qed.




End V1Errors.

Section Isolation.

Context {W Handle : Type} `{!Browser W Handle} `{!Host}.

(** X15: what fails while a candidate is visited stays with the
    candidate, up to the pauses that nothing catches. In the second
    engine the loop over the candidates rejects only when the pause of
    the [finally] block does: no navigation that rejects or times out,
    and nothing the extractor meets, makes it reject. In the first engine
    a navigation that rejects is passed over, and the loop rejects only
    when the pause behind the navigation or the pause of the extractor
    does. *)
Theorem candidate_failures_stay_with_the_candidate hrefs st :
  rejects_with (pause_rejected [300%N]) (V2.process_hrefs (W:=W) hrefs st) ∧
  rejects_with (pause_rejected [250; 800]%N) (V1.process_hrefs (W:=W) hrefs st).
Proof. split; [apply V2_process_hrefs_rejects|apply V1_process_hrefs_rejects]. Qed.

(** X16: collecting the hrefs never rejects. The other page helpers,
    dismissing the consent banner, scrolling and (in the first engine)
    waiting for the first links, absorb every rejection of a locator or
    of a script and reject only when their own pause does. *)
Theorem page_helpers_reject_only_by_their_pause scroller delta :
  safe (V2.collectLeftHrefs (W:=W) scroller) ∧
  safe (V1.collectLeftHrefs (W:=W) scroller) ∧
  rejects_with (pause_rejected [300%N]) (V2.handleConsentIfPresent (W:=W)) ∧
  rejects_with (pause_rejected [500%N]) (V2.scrollLeft (W:=W) scroller delta) ∧
  rejects_with (pause_rejected [600%N]) (V1.handleConsentIfPresent (W:=W)) ∧
  rejects_with (pause_rejected [650%N]) (V1.scrollLeft (W:=W) scroller delta) ∧
  rejects_with (pause_rejected [400; 600]%N) (V1.waitForAnyJobLinks (W:=W)).
Proof.
  split_and!.
  - apply V2_collectLeftHrefs_safe.
  - apply V1_collectLeftHrefs_safe.
  - apply V2_handleConsentIfPresent_rejects.
  - apply V2_scrollLeft_rejects.
  - apply V1_handleConsentIfPresent_rejects.
  - apply V1_scrollLeft_rejects.
  - apply V1_waitForAnyJobLinks_rejects.
Qed.

End Isolation.

Section ErrorRuns.

Import Sim.

Lemma V2_rejections_witness :
  @V2_failure _ _ (browser dead_site) closed.
Proof. apply (@V2_rejections _ _ (browser dead_site) host start). vm_compute. reflexivity. Defined.


(** The pauses do reject: on a page that is closed during a pause the
    extractor, the consent helper, the loop over the candidates and both
    engines reject with the error of the pause. *)
Example pause_rejections_surface :
  let B := closing (static_site [both_topics 1]) in
  (@V2.readJobPageDetails _ _ B host world0).1 = Throw closed ∧
  (@V1.readJobPageDetails _ _ B host world0).1 = Throw closed ∧
  (@V2.handleConsentIfPresent _ _ B world0).1 = Throw closed ∧
  (@V2.process_hrefs _ _ B host [job_key 1] initial_state world0).1 = Throw closed ∧
  (@V1.process_hrefs _ _ B host [job_key 1] initial_state world0).1 = Throw closed ∧
  (@V2.fetchLinkedInJobsAiHr _ _ B host world0).1 = Throw closed ∧
  (@V1.fetchLinkedInJobsAiHr _ _ B host world0).1 = Throw closed.
Proof. vm_compute. done. Qed.

Lemma V2_rejects_without_links_witness :
  ∃ e, (@V2.fetchLinkedInJobsAiHr _ _ (browser (static_site [])) host world0).1 = Throw e ∧
       log (@V2.fetchLinkedInJobsAiHr _ _ (browser (static_site [])) host world0).2 = [].
Proof.
  apply (@V2_rejects_without_links _ _ (browser (static_site [])) host start).
  intros p n p'. cbn. by intros [= <- _].
Defined.

End ErrorRuns.

(** ** The scroller scripts *)

Section Scroller.

Import Dom.

Implicit Types (el x : element) (els : list element) (slack : N).

(** The loop keeps the first element of the best score seen so far. *)
Lemma scoring_loop slack els :
  let r := foldl (scoring_step slack) (None, 0%N) els in
  (∀ x, x ∈ els → isScrollable slack x = true → (score x ≤ r.2)%N) ∧
  match r.1 with
  | None => r.2 = 0%N
  | Some el =>
      isScrollable slack el = true ∧ r.2 = score el ∧ (0 < score el)%N ∧
      ∃ l1 l2, els = l1 ++ el :: l2 ∧
        ∀ x, x ∈ l1 → isScrollable slack x = true → (score x < score el)%N
  end.
Proof.
  cbn zeta. induction els as [|a els [Hall Hbest]] using rev_ind.
  { split; [by intros x ?%elem_of_nil|done]. }
  rewrite foldl_snoc.
  destruct (foldl (scoring_step slack) (None, 0%N) els) as [best sc]. cbn [fst snd] in *.
  unfold scoring_step. cbn [snd].
  destruct (isScrollable slack a) eqn:Hscr; cbn [negb].
  2:{ split.
      - intros x [Hx| ->%list_elem_of_singleton]%elem_of_app Hx'; [by apply Hall|congruence].
      - cbn [fst snd]. destruct best as [el|]; [|done].
        destruct Hbest as (He & Hsc & Hpos & l1 & l2 & -> & Hfirst).
        split_and!; [done..|]. exists l1, (l2 ++ [a]). by rewrite <- app_assoc. }
  destruct (N.ltb_spec sc (score a)) as [Hbetter|Hworse]; cbn [fst snd].
  - split.
    + intros x [Hx| ->%list_elem_of_singleton]%elem_of_app Hx'; [|done].
      specialize (Hall x Hx Hx'). lia.
    + split_and!; [done..|lia|]. exists els, []. split; [done|].
      intros x Hx Hx'. specialize (Hall x Hx Hx'). lia.
  - split.
    + intros x [Hx| ->%list_elem_of_singleton]%elem_of_app Hx'; [by apply Hall|done].
    + destruct best as [el|]; [|done].
      destruct Hbest as (He & Hsc & Hpos & l1 & l2 & -> & Hfirst).
      split_and!; [done..|]. exists l1, (l2 ++ [a]). by rewrite <- app_assoc.
Qed.

Lemma best_scored_spec slack els :
  match best_scored slack els with
  | Some el =>
      isScrollable slack el = true ∧ (0 < score el)%N ∧
      ∃ l1 l2, els = l1 ++ el :: l2 ∧
        (∀ x, x ∈ l1 → isScrollable slack x = true → (score x < score el)%N) ∧
        (∀ x, x ∈ l2 → isScrollable slack x = true → (score x ≤ score el)%N)
  | None => ∀ x, x ∈ els → isScrollable slack x = true → score x = 0%N
  end.
Proof.
  unfold best_scored. destruct (scoring_loop slack els) as [Hall Hbest]. cbn zeta in *.
  destruct (foldl (scoring_step slack) (None, 0%N) els) as [[el|] sc]; cbn [fst snd] in *.
  - destruct Hbest as (He & -> & Hpos & l1 & l2 & Hels & Hfirst).
    split_and!; [done..|]. exists l1, l2. split_and!; [done..|].
    intros x Hx Hx'. apply Hall; [|done]. rewrite Hels. apply elem_of_app. right. by right.
  - subst sc. intros x Hx Hx'. specialize (Hall x Hx Hx'). lia.
Qed.

(** X20: the first engine's scroller script returns the first of the
    best-scored scrollable elements, and [null] exactly when every
    scrollable element scores zero (it has no job link and no height). *)
Theorem V1_script_picks_first_best els :
  match V1_script els with
  | Some el =>
      isScrollable 50 el = true ∧ (0 < score el)%N ∧
      ∃ l1 l2, els = l1 ++ el :: l2 ∧
        (∀ x, x ∈ l1 → isScrollable 50 x = true → (score x < score el)%N) ∧
        (∀ x, x ∈ l2 → isScrollable 50 x = true → (score x ≤ score el)%N)
  | None =>
      ∀ x, x ∈ els → isScrollable 50 x = true → jobLinks x = 0%N ∧ clientHeight x = 0%N
  end.
Proof.
  pose proof (best_scored_spec 50 els) as Hspec. unfold V1_script.
  destruct (best_scored 50 els) as [el|]; [done|].
  intros x Hx Hx'. specialize (Hspec x Hx Hx'). unfold score in Hspec. lia.
Qed.

(** [find] returns the first element that qualifies. *)
Lemma find_first_candidate (f : element → bool) (candidates : list (option element)) el :
  find f (omap id candidates) = Some el →
  f el = true ∧
  ∃ before after, candidates = before ++ Some el :: after ∧
    ∀ c, Some c ∈ before → f c = false.
Proof.
  induction candidates as [|[c|] candidates IH]; cbn [omap list_omap id find]; [done| |].
  - cbn. destruct (f c) eqn:Hc.
    + intros [= ->]. split; [done|]. exists [], candidates. split; [done|].
      by intros c' ?%elem_of_nil.
    + intros (Hel & before & after & -> & Hbefore)%IH. split; [done|].
      exists (Some c :: before), after. split; [done|].
      intros c' [[= ->]|Hc']%elem_of_cons; [done|by apply Hbefore].
  - intros (Hel & before & after & -> & Hbefore)%IH. split; [done|].
    exists (None :: before), after. split; [done|].
    intros c' [[=]|Hc']%elem_of_cons. by apply Hbefore.
Qed.

(** X21: the second engine's scroller script prefers a known container:
    the first of the four, in the order of the script, that is
    scrollable and holds a job link is returned whatever the scores are
    (those before it are missing, not scrollable or without a job link);
    without one, the best-scored element; [null] exactly when neither
    exists. What it returns is always scrollable. *)
Theorem V2_script_prefers_known_containers candidates els :
  match V2_script candidates els with
  | Some el =>
      isScrollable 30 el = true ∧
      ((0 < jobLinks el)%N ∧
       (∃ before after, candidates = before ++ Some el :: after ∧
          ∀ c, Some c ∈ before → isScrollable 30 c = true → jobLinks c = 0%N) ∨
       (best_scored 30 els = Some el ∧ (0 < score el)%N ∧
        ∀ c, Some c ∈ candidates → isScrollable 30 c = true → jobLinks c = 0%N))
  | None =>
      (∀ c, Some c ∈ candidates → isScrollable 30 c = true → jobLinks c = 0%N) ∧
      (∀ x, x ∈ els → isScrollable 30 x = true → jobLinks x = 0%N ∧ clientHeight x = 0%N)
  end.
Proof.
  unfold V2_script.
  destruct (find _ (omap id candidates)) as [el|] eqn:Hfind.
  - apply find_first_candidate in Hfind
      as ([Hs Hl%N.ltb_lt]%andb_true_iff & before & after & Hcands & Hbefore).
    split; [done|]. left. split; [done|]. exists before, after. split; [done|].
    intros c Hc Hscr. specialize (Hbefore c Hc). rewrite Hscr in Hbefore.
    simpl in Hbefore. apply N.ltb_ge in Hbefore. lia.
  - assert (∀ c, Some c ∈ candidates → isScrollable 30 c = true → jobLinks c = 0%N) as Hnone.
    { intros c Hc Hs. eapply find_none in Hfind.
      2:{ apply list_elem_of_In, list_elem_of_omap. by exists (Some c). }
      simpl in Hfind. rewrite Hs in Hfind. simpl in Hfind. apply N.ltb_ge in Hfind. lia. }
    pose proof (best_scored_spec 30 els) as Hspec.
    destruct (best_scored 30 els) as [el|].
    + destruct Hspec as (Hs & Hpos & _). split; [done|]. right. done.
    + split; [done|]. intros x Hx Hx'. specialize (Hspec x Hx Hx'). unfold score in Hspec. lia.
Qed.

End Scroller.

(** ** The session wrapper and the trigger *)

Section Inversion.

Context {W : Type}.
Implicit Types (w : world W).

Lemma bind_inv_Ok {A B} (m : M W A) (f : A → M W B) w b w' :
  bind m f w = (Ok b, w') → ∃ a w1, m w = (Ok a, w1) ∧ f a w1 = (Ok b, w').
Proof. unfold bind. destruct (m w) as [[a|e] w1]; [eauto|done]. Qed.

Lemma try_finally_inv_Ok {A} (body : M W A) fin w a w' :
  try_finally body fin w = (Ok a, w') → ∃ w1, body w = (Ok a, w1) ∧ fin w1 = (Ok tt, w').
Proof.
  unfold try_finally. destruct (body w) as [r w1].
  destruct (fin w1) as [[[]|e] w2] eqn:Hfin; [|done]. intros [= -> ->]. eauto.
Qed.

Lemma call_log {A} (op : W → outcome A * W) w r w' : call op w = (r, w') → log w' = log w.
Proof. intros Hc. pose proof (quiet_call op w) as Hq. by rewrite Hc in Hq. Qed.

End Inversion.

Section Gate.

Context {W Handle : Type} `{!Browser W Handle} `{!Session W}.

Implicit Types (w : world W).

Import Reuse.

Lemma guarded_inv_Ok {T} (work : M W T) w a w' :
  guarded work w = (Ok a, w') →
  ∃ wg w1,
    call (goto LINKEDIN_FEED_URL) w = (Ok tt, wg) ∧
    isLoggedOutOrChallengeUrl (url (page wg)) = false ∧
    catch_default (call (locator_isVisible LOGIN_FIELD_SELECTOR)) false wg = (Ok false, w1) ∧
    work w1 = (Ok a, w').
Proof.
  unfold guarded. unfold_monad.
  intros ([] & wg & Hgoto & Hrest)%bind_inv_Ok.
  apply bind_inv_Ok in Hrest as (u & wg' & [= <- <-] & Hrest).
  destruct (isLoggedOutOrChallengeUrl (url (page wg))) eqn:Hgate; [done|].
  apply bind_inv_Ok in Hrest as (visible & w1 & Hvis & Hrest).
  destruct visible; [done|]. by exists wg, w1.
Qed.

Lemma runWithLinkedInSession_inv_Ok {T} (work : M W T) w a w' :
  runWithLinkedInSession work w = (Ok a, w') →
  existsSync SESSION_PATH (page w) = true ∧
  ∃ w0 wg w1 w2,
    log w0 = log w ∧
    call (goto LINKEDIN_FEED_URL) w0 = (Ok tt, wg) ∧
    log wg = log w ∧
    isLoggedOutOrChallengeUrl (url (page wg)) = false ∧
    catch_default (call (locator_isVisible LOGIN_FIELD_SELECTOR)) false wg = (Ok false, w1) ∧
    log w1 = log w ∧
    work w1 = (Ok a, w2) ∧
    close_all w2 = (Ok tt, w') ∧ log w' = log w2.
Proof.
  unfold runWithLinkedInSession. unfold_monad.
  intros (present & w0 & [= <- <-] & Hrest)%bind_inv_Ok.
  destruct (existsSync SESSION_PATH (page w)) eqn:Hfile; [|done]. split; [done|].
  cbn [negb] in Hrest.
  apply bind_inv_Ok in Hrest as ([] & wa & Ha%call_log & Hrest).
  apply bind_inv_Ok in Hrest as ([] & wb & Hb%call_log & Hrest).
  apply bind_inv_Ok in Hrest as ([] & wc & Hc%call_log & Hrest).
  apply bind_inv_Ok in Hrest as ([] & wd & [= <-] & Hrest).
  apply try_finally_inv_Ok in Hrest as (w2 & Hbody & Hfin).
  apply guarded_inv_Ok in Hbody as (wg & w1 & Hgoto & Hgate & Hvis & Hwork).
  pose proof (call_log _ _ _ _ Hgoto) as Hlog. cbn [log] in Hlog.
  eexists _, wg, w1, w2. split_and!; [|exact Hgoto|..]; try done.
  - cbn [log]. congruence.
  - congruence.
  - pose proof (quiet_catch_default _ false (quiet_call (locator_isVisible LOGIN_FIELD_SELECTOR)) wg)
      as Hq. rewrite Hvis in Hq. simpl in Hq. congruence.
  - assert (quiet (close_all (W:=W))) as Hq.
    { unfold close_all. unfold_monad. apply quiet_bind; [apply quiet_call|].
      intros _. apply quiet_call. }
    specialize (Hq w2). by rewrite Hfin in Hq.
Qed.

(** X22: the session wrapper fulfils only with what [work] fulfilled
    with, and [work] has run only behind the gate: the session file
    existed, the navigation to the feed fulfilled and did not end on a
    login, checkpoint or challenge URL, no login form was visible, and
    context and browser were closed after [work]. The wrapper itself adds
    nothing to the history. *)
Theorem runWithLinkedInSession_gate {T} (work : M W T) w a w' :
  runWithLinkedInSession work w = (Ok a, w') →
  existsSync SESSION_PATH (page w) = true ∧
  ∃ w0 wg w1 w2,
    log w0 = log w ∧
    call (goto LINKEDIN_FEED_URL) w0 = (Ok tt, wg) ∧
    log wg = log w ∧
    isLoggedOutOrChallengeUrl (url (page wg)) = false ∧
    catch_default (call (locator_isVisible LOGIN_FIELD_SELECTOR)) false wg = (Ok false, w1) ∧
    log w1 = log w ∧
    work w1 = (Ok a, w2) ∧
    close_all w2 = (Ok tt, w') ∧ log w' = log w2.
Proof. apply runWithLinkedInSession_inv_Ok. Qed.

End Gate.

Section TriggerTheory.

Context {W Handle : Type} `{!Browser W Handle} `{!Session W} `{!Host}.

Implicit Types (w : world W) (fetch : M W (list ApiJob)).

Import Reuse Trigger.

(** X23: [runJobsAiHr] never rejects: it answers 200 with the jobs and
    their number when the wrapped harvest fulfils, and otherwise 401 or
    500 with the error message, 401 exactly when the message holds
    [AUTH_REQUIRED] or [SESSION_MISSING]. *)
Theorem runJobsAiHr_always_answers fetch w :
  ∃ resp w', runJobsAiHr fetch w = (Ok resp, w') ∧
    match (runWithLinkedInSession fetch w).1 with
    | Ok jobs => status resp = 200%N ∧ ∃ took, jsonBody resp = Success (length jobs) took jobs
    | Throw e =>
        jsonBody resp = Failure e ∧ (status resp = 401%N ∨ status resp = 500%N) ∧
        (status resp = 401%N ↔
         includes e (js "AUTH_REQUIRED") = true ∨ includes e (js "SESSION_MISSING") = true)
    end.
Proof.
  unfold runJobsAiHr, try_catch, bind, observe. unfold_monad. unfold bind, observe. cbn [fst snd].
  destruct (runWithLinkedInSession fetch w) as [[jobs|e] w1]; cbn [fst].
  - eexists _, _. split; [reflexivity|]. cbn. split; [done|]. by eexists.
  - eexists _, _. split; [reflexivity|]. cbv zeta. cbn [status jsonBody].
    split; [done|].
    destruct (includes e (js "AUTH_REQUIRED")), (includes e (js "SESSION_MISSING"));
      cbn [orb]; (split; [by (left + right)|]);
      (split; [first [done|intros _; by left|intros _; by right]|by intros [|]]).
Qed.

(** X24: without the session file the answer is 401 with the
    [SESSION_MISSING] message, and nothing has been launched: the world
    is left as it was. *)
Theorem runJobsAiHr_without_session_file fetch w :
  existsSync SESSION_PATH (page w) = false →
  runJobsAiHr fetch w
  = (Ok {| status := 401; jsonBody := Failure (SESSION_MISSING_message SESSION_PATH) |}, w).
Proof.
  intros Hfile. unfold runJobsAiHr, runWithLinkedInSession, try_catch, bind, observe, throw.
  unfold_monad. unfold bind, observe, throw, ret. rewrite Hfile. cbn [negb].
  assert (includes (SESSION_MISSING_message SESSION_PATH) (js "SESSION_MISSING") = true) as ->
    by reflexivity.
  by rewrite orb_true_r.
Qed.

(** X25: a 200 answer over the second engine carries the jobs of a run
    of the engine: their number, at most [MAX_RESULTS_TO_PROCESS] of
    them, with pairwise distinct links. *)
Theorem runJobsAiHr_success_is_capped (p : W) resp w' :
  runJobsAiHr V2.fetchLinkedInJobsAiHr (World p []) = (Ok resp, w') →
  status resp = 200%N →
  ∃ took jobs,
    jsonBody resp = Success (length jobs) took jobs ∧
    length jobs ≤ V2.MAX_RESULTS_TO_PROCESS ∧ NoDup (map link jobs).
Proof.
  unfold runJobsAiHr, try_catch. unfold_monad.
  intros (startedAt & w0 & [= <- <-] & Hrun)%bind_inv_Ok Hstatus.
  destruct (bind (runWithLinkedInSession V2.fetchLinkedInJobsAiHr) _ (World p []))
    as [[resp'|e] w1] eqn:Hwrapped.
  2:{ cbv zeta in Hrun. injection Hrun as <- _. cbn in Hstatus.
      by destruct (_ || _). }
  injection Hrun as -> ->.
  apply bind_inv_Ok in Hwrapped as (jobs & w2 & Hsession & Hrest).
  apply bind_inv_Ok in Hrest as (finishedAt & w3 & _ & [= <- _]).
  apply runWithLinkedInSession_inv_Ok in Hsession
    as (_ & _ & wg & [p1 h1] & w4 & _ & _ & _ & _ & _ & Hlog & Hwork & _).
  cbn [log] in Hlog. subst h1.
  destruct (V2_fetch_spec p1) as ([Hord _] & _ & Hjobs). rewrite Hwork in *. cbn [fst snd] in *.
  specialize (Hjobs jobs eq_refl). eexists _, jobs. split; [reflexivity|]. rewrite Hjobs. split.
  - by eapply orderly_pushed_le.
  - by eapply orderly_NoDup_links.
Qed.

(** X26: the second engine's own errors are answered with 500: the
    global timeout, the timeout of the first navigation and the two block
    errors, although a block can mean that LinkedIn asks to sign in. *)
Theorem runJobsAiHr_engine_errors_are_500 w e :
  (runWithLinkedInSession V2.fetchLinkedInJobsAiHr w).1 = Throw e →
  e ∈ [ V2.TIMEOUT_message V2.HARD_RUN_TIMEOUT_MS;
        V2.NAV_TIMEOUT_message (js "search") V2.NAV_TIMEOUT_SEARCH_MS SEARCH_URL;
        V2.BLOCKED_OR_NO_JOBS; V2.BLOCKED_MIDRUN ] →
  ∃ w', runJobsAiHr V2.fetchLinkedInJobsAiHr w
        = (Ok {| status := 500; jsonBody := Failure e |}, w').
Proof.
  intros Hrun He. unfold runJobsAiHr, try_catch, bind, observe. unfold_monad.
  unfold bind, observe.
  destruct (runWithLinkedInSession V2.fetchLinkedInJobsAiHr w) as [r w1]. cbn [fst] in Hrun.
  subst r. exists w1. cbv zeta.
  assert (includes e (js "AUTH_REQUIRED") || includes e (js "SESSION_MISSING") = false) as ->;
    [|done].
  repeat (apply elem_of_cons in He as [->|He]; [vm_compute; reflexivity|]).
  by apply elem_of_nil in He.
Qed.

End TriggerTheory.

Section TriggerRuns.

Import Sim SimSession SimRuns Reuse Trigger.

Lemma runWithLinkedInSession_gate_witness :
  existsSync (Session := signed_in) (SESSION_PATH (Session0 := signed_in)) (page world0) = true ∧
  ∃ w0 wg w1 w2,
    log w0 = log world0 ∧
    call (goto (Browser := browser one_job) LINKEDIN_FEED_URL) w0 = (Ok tt, wg) ∧
    log wg = log world0 ∧
    isLoggedOutOrChallengeUrl (url (Session := signed_in) (page wg)) = false ∧
    catch_default (call (locator_isVisible (Session := signed_in) LOGIN_FIELD_SELECTOR)) false wg
    = (Ok false, w1) ∧
    log w1 = log world0 ∧
    @V2.fetchLinkedInJobsAiHr _ _ (browser one_job) host w1
    = (Ok (value_of (session_run one_job signed_in) []), w2) ∧
    close_all (Session0 := signed_in) w2 = (Ok tt, (session_run one_job signed_in).2) ∧
    log (session_run one_job signed_in).2 = log w2.
Proof.
  apply (@runWithLinkedInSession_gate _ _ (browser one_job) signed_in _
           (@V2.fetchLinkedInJobsAiHr _ _ (browser one_job) host) world0
           (value_of (session_run one_job signed_in) []) (session_run one_job signed_in).2).
  vm_compute. reflexivity.
Defined.

Lemma runJobsAiHr_without_session_file_witness :
  trigger_run one_job no_file
  = (Ok {| status := 401;
           jsonBody := Failure (SESSION_MISSING_message (SESSION_PATH (Session0 := no_file))) |},
     world0).
Proof.
  apply (@runJobsAiHr_without_session_file _ _ (browser one_job) no_file). reflexivity.
Defined.

Lemma runJobsAiHr_success_is_capped_witness :
  ∃ took jobs,
    jsonBody (value_of (trigger_run one_job signed_in) {| status := 0; jsonBody := Failure [] |})
    = Success (length jobs) took jobs ∧
    length jobs ≤ V2.MAX_RESULTS_TO_PROCESS ∧ NoDup (map link jobs).
Proof.
  apply (@runJobsAiHr_success_is_capped _ _ (browser one_job) signed_in host start _
           (trigger_run one_job signed_in).2); vm_compute; reflexivity.
Defined.

Lemma runJobsAiHr_engine_errors_are_500_witness :
  ∃ w', trigger_run (static_site []) signed_in
        = (Ok {| status := 500; jsonBody := Failure V2.BLOCKED_OR_NO_JOBS |}, w').
Proof.
  apply (@runJobsAiHr_engine_errors_are_500 _ _ (browser (static_site [])) signed_in host world0).
  - vm_compute. reflexivity.
  - apply elem_of_cons. right. apply elem_of_cons. right. apply elem_of_cons. by left.
Defined.

End TriggerRuns.

(** ** More concrete runs *)

Section MoreRuns.

Import Sim SimRuns.

Lemma toIsoDateOrEmpty_iso_round_trip_witness :
  toIsoDateOrEmpty (H := host) (iso_date 2024 2 29) = iso_date 2024 2 29 ∧
  ∀ tod ms, parse_utc_time tod = Some ms →
    toIsoDateOrEmpty (H := host) (iso_date 2024 2 29 ++ [84%N] ++ tod) = iso_date 2024 2 29.
Proof.
  apply (@toIsoDateOrEmpty_iso_round_trip host 2024 2 29); [lia|lia|].
  vm_compute. split; discriminate.
Defined.

Lemma V1_round_follows_rule_witness :
  seen initial_state ⊆ seen (value_of first_round (None, initial_state)).2 ∧
  stagnant (value_of first_round (None, initial_state)).2
  = (if size (seen (value_of first_round (None, initial_state)).2) =? size (seen initial_state)
     then S (stagnant initial_state) else 0) ∧
  lastSeen (value_of first_round (None, initial_state)).2
  = size (seen (value_of first_round (None, initial_state)).2).
Proof.
  apply (@V1_round_follows_rule _ _ (browser (growing_site (map both_topics (seq 1 3)))) host
           None 0 initial_state world0
           (value_of first_round (None, initial_state)).1
           (value_of first_round (None, initial_state)).2
           first_round.2).
  - apply inv_initial.
  - reflexivity.
  - vm_compute. reflexivity.
  - vm_compute. discriminate.
Defined.

Lemma hard_timeout_spares_timely_harvest_witness :
  (@V2.fetchLinkedInJobsAiHr _ _ (browser one_job) host world0).1
  = (@V2.harvest _ _ (browser one_job) host
       (World (setDefaultTimeout (Browser := browser one_job) DEFAULT_TIMEOUT start) [])).1.
Proof.
  apply (@hard_timeout_spares_timely_harvest _ _ (browser one_job) host start).
  vm_compute. reflexivity.
Defined.

End MoreRuns.

(** ** Sanity checks of the built-ins *)

Example String_of_Z_examples :
  String_of_Z 2024 = js "2024" ∧ String_of_Z 0 = js "0" ∧ String_of_Z (-1) = js "-1".
Proof. by repeat split. Qed.

Example normalizeText_example :
  normalizeText (Some (js "  Senior   AI Engineer ")) = js "Senior AI Engineer" ∧
  normalizeText None = [].
Proof. by split. Qed.

Example normalizeJobUrl_examples :
  normalizeJobUrl (js "/jobs/view/123/?trk=abc")
  = Some (js "https://www.linkedin.com/jobs/view/123/") ∧
  normalizeJobUrl (js "https://www.linkedin.com/jobs/view/7") 
  = Some (js "https://www.linkedin.com/jobs/view/7") ∧
  normalizeJobUrl (js "/jobs/search/") = None ∧
  normalizeJobUrl [] = None.
Proof. by repeat split. Qed.

Example regex_examples :
  test AI_REGEX (js "We use AI daily") = true ∧
  test AI_REGEX (js "fair maid") = false ∧
  test AI_REGEX (js "K.I. Experte") = true ∧
  test AI_REGEX (js "html") = false ∧
  test HR_REGEX (js "Recruiter (m/w/d)") = true ∧
  test HR_REGEX (js "Personalwesen") = true ∧
  test HR_REGEX (js "Personalized") = false ∧
  test HR_REGEX (js "three") = false.
Proof. by repeat split. Qed.
